(** * blitz-js-loader: the Auth class of lib/auth.js

    A shallow embedding of [lib/auth.js] and the properties of its key
    and credential bootstrap.

    The class is asynchronous.  Its methods are embedded in a resumption
    monad over an explicit [world]: a method runs until it reaches an
    [await], where it hands back the world together with the rest of its
    body.  The world holds everything the class touches: the files below
    [process.cwd()], the mongodb servers, the sources of randomness, the
    fields of the single [Auth] instance, the [config] objects handed in
    by the loader (by reference) and a trace of the calls made to the
    outside.

    Conventions of the model:
    - an outside operation (file system, database, bcrypt) takes effect
      when it is issued; awaiting it only suspends the caller;
    - paths are written relative to [process.cwd()];
    - the text of [credentials.json] is kept together with the document
      it parses to ([CredsDoc]); any other text is [Raw] and is taken
      not to parse.  A [Raw] text that [JSON.parse] would accept
      ([null], an array, a number) is outside the model; [plain_cache]
      says of a world that its cache file holds no such text;
    - [credentials[id]] finds the entries of the document and, for an id
      that is a name of [Object.prototype], the member inherited under
      that name ([get_property]);
    - an unhandled rejection is recorded in [unhandled] and the process
      goes on, as Node.js does before version 15. *)

From stdpp Require Import gmap strings list fin_maps.


(** ** Values *)

Inductive error : Type :=
  | ENOENT (path : string)
  | EACCES (path : string)
  | EEXIST (path : string)
  | EISDIR (path : string)
  | SyntaxError
  | TypeError
  | MongoNetworkError (url : option string)
  | MongoWriteError (op : string)
  | BcryptError.

(** [keypair()] returns [{ public, private }]. *)
Record keypair : Type := { public : string; private : string }.

(** One entry of [credentials.json]. *)
Module Cache.
Record entry : Type := { user_key : string; user_secret : string }.
End Cache.

Definition credentials : Type := gmap string Cache.entry.

(** A document of the [users] collection. *)
Record user : Type := {
  user_key : string;
  user_secret : string;
  user_id : string;
  last_ip : list string;
  scope : string;
  refresh_token : string
}.

Inductive file_data : Type :=
  | Raw (text : string)
  | CredsDoc (doc : credentials).

(** The two promises of the instance are created without a [reject]
    function, so they are pending or resolved. *)
Inductive promise (A : Type) : Type :=
  | Pending
  | Resolved (a : A).
Arguments Pending {A}.
Arguments Resolved {A} a.

(** A node's [config]: [local] is written by [verify], [provided] holds
    the operator's overrides.  A missing property reads as [undefined]. *)
Record config : Type := {
  local : gmap string string;
  provided : gmap string string
}.

Inductive event : Type :=
  | EvLstat (path : string)
  | EvReadFile (path : string)
  | EvMkdir (path : string)
  | EvWriteFile (path : string) (data : file_data)
  | EvGenerateKeys
  | EvUid
  | EvConnect (url : option string)
  | EvDeleteOne (url : string) (id : string)
  | EvInsertOne (url : string) (u : user)
  | EvHash (data : string)
  | EvLog (msg : string).

(** ** The world *)

(** What the program cannot change: which paths refuse access, whether
    the database refuses writes, and the outside functions. *)
Record environment : Type := {
  unreadable : gset string;
  unwritable : gset string;
  delete_fails : bool;
  insert_fails : bool;
  keypair_of : nat -> keypair;
  uid_of : nat -> string;
  bcrypt_hash : string -> option string
}.

Record world : Type := {
  env : environment;
  (* file system below process.cwd() *)
  dirs : gset string;
  files : gmap string file_data;
  (* mongodb servers by url, each with its users collection *)
  mongo : gmap string (list user);
  (* number of random values drawn so far *)
  entropy : nat;
  (* fields of the Auth instance *)
  certPrivate : option string;
  certPublic : option string;
  ready : promise unit;
  authDb : promise (option string);
  (* config objects, by reference *)
  heap : gmap nat config;
  (* calls made to the outside, oldest first *)
  trace : list event;
  (* rejections of promises nobody holds *)
  unhandled : list error
}.

Definition set_dirs (f : gset string -> gset string) (w : world) : world :=
  {| env := env w; dirs := f (dirs w); files := files w; mongo := mongo w;
     entropy := entropy w; certPrivate := certPrivate w;
     certPublic := certPublic w; ready := ready w; authDb := authDb w;
     heap := heap w; trace := trace w; unhandled := unhandled w |}.

Definition set_files (f : gmap string file_data -> gmap string file_data)
    (w : world) : world :=
  {| env := env w; dirs := dirs w; files := f (files w); mongo := mongo w;
     entropy := entropy w; certPrivate := certPrivate w;
     certPublic := certPublic w; ready := ready w; authDb := authDb w;
     heap := heap w; trace := trace w; unhandled := unhandled w |}.

Definition set_mongo
    (f : gmap string (list user) -> gmap string (list user))
    (w : world) : world :=
  {| env := env w; dirs := dirs w; files := files w; mongo := f (mongo w);
     entropy := entropy w; certPrivate := certPrivate w;
     certPublic := certPublic w; ready := ready w; authDb := authDb w;
     heap := heap w; trace := trace w; unhandled := unhandled w |}.

Definition set_entropy (n : nat) (w : world) : world :=
  {| env := env w; dirs := dirs w; files := files w; mongo := mongo w;
     entropy := n; certPrivate := certPrivate w;
     certPublic := certPublic w; ready := ready w; authDb := authDb w;
     heap := heap w; trace := trace w; unhandled := unhandled w |}.

Definition set_certPrivate (v : option string) (w : world) : world :=
  {| env := env w; dirs := dirs w; files := files w; mongo := mongo w;
     entropy := entropy w; certPrivate := v;
     certPublic := certPublic w; ready := ready w; authDb := authDb w;
     heap := heap w; trace := trace w; unhandled := unhandled w |}.

Definition set_certPublic (v : option string) (w : world) : world :=
  {| env := env w; dirs := dirs w; files := files w; mongo := mongo w;
     entropy := entropy w; certPrivate := certPrivate w;
     certPublic := v; ready := ready w; authDb := authDb w;
     heap := heap w; trace := trace w; unhandled := unhandled w |}.

Definition set_ready (p : promise unit) (w : world) : world :=
  {| env := env w; dirs := dirs w; files := files w; mongo := mongo w;
     entropy := entropy w; certPrivate := certPrivate w;
     certPublic := certPublic w; ready := p; authDb := authDb w;
     heap := heap w; trace := trace w; unhandled := unhandled w |}.

Definition set_authDb (p : promise (option string)) (w : world) : world :=
  {| env := env w; dirs := dirs w; files := files w; mongo := mongo w;
     entropy := entropy w; certPrivate := certPrivate w;
     certPublic := certPublic w; ready := ready w; authDb := p;
     heap := heap w; trace := trace w; unhandled := unhandled w |}.

Definition set_heap (f : gmap nat config -> gmap nat config)
    (w : world) : world :=
  {| env := env w; dirs := dirs w; files := files w; mongo := mongo w;
     entropy := entropy w; certPrivate := certPrivate w;
     certPublic := certPublic w; ready := ready w; authDb := authDb w;
     heap := f (heap w); trace := trace w; unhandled := unhandled w |}.

Definition emit (e : event) (w : world) : world :=
  {| env := env w; dirs := dirs w; files := files w; mongo := mongo w;
     entropy := entropy w; certPrivate := certPrivate w;
     certPublic := certPublic w; ready := ready w; authDb := authDb w;
     heap := heap w; trace := trace w ++ [e]; unhandled := unhandled w |}.

Definition set_unhandled (e : error) (w : world) : world :=
  {| env := env w; dirs := dirs w; files := files w; mongo := mongo w;
     entropy := entropy w; certPrivate := certPrivate w;
     certPublic := certPublic w; ready := ready w; authDb := authDb w;
     heap := heap w; trace := trace w; unhandled := unhandled w ++ [e] |}.

(** ** The resumption monad of async functions *)

Inductive res (A : Type) : Type :=
  | Done (a : A) (w : world)
  | Fail (e : error) (w : world)
  (* awaiting an operation already issued: can go on at any time *)
  | Yield (k : world -> res A) (w : world)
  (* awaiting this.ready *)
  | AwaitReady (k : world -> res A) (w : world)
  (* awaiting this.authDb, to be handed its value *)
  | AwaitAuthDb (k : option string -> world -> res A) (w : world).
Arguments Done {A} a w.
Arguments Fail {A} e w.
Arguments Yield {A} k w.
Arguments AwaitReady {A} k w.
Arguments AwaitAuthDb {A} k w.

Definition M (A : Type) : Type := world -> res A.

Definition world_of {A} (r : res A) : world :=
  match r with
  | Done _ w | Fail _ w | Yield _ w | AwaitReady _ w | AwaitAuthDb _ w => w
  end.

Definition ret {A} (a : A) : M A := fun w => Done a w.
Definition throw {A} (e : error) : M A := fun w => Fail e w.

Fixpoint bind_res {A B} (r : res A) (f : A -> M B) : res B :=
  match r with
  | Done a w => f a w
  | Fail e w => Fail e w
  | Yield k w => Yield (fun w' => bind_res (k w') f) w
  | AwaitReady k w => AwaitReady (fun w' => bind_res (k w') f) w
  | AwaitAuthDb k w => AwaitAuthDb (fun u w' => bind_res (k u w') f) w
  end.

Definition bind {A B} (m : M A) (f : A -> M B) : M B :=
  fun w => bind_res (m w) f.

Notation "'let!' x ':=' m 'in' k" := (bind m (fun x => k))
  (at level 10, x name, m at level 100, k at level 200).
Notation "m ;; k" := (bind m (fun _ => k))
  (at level 100, k at level 200, right associativity).

(** [try { m } catch (err) { h err }] *)
Fixpoint catch_res {A} (r : res A) (h : error -> M A) : res A :=
  match r with
  | Done a w => Done a w
  | Fail e w => h e w
  | Yield k w => Yield (fun w' => catch_res (k w') h) w
  | AwaitReady k w => AwaitReady (fun w' => catch_res (k w') h) w
  | AwaitAuthDb k w => AwaitAuthDb (fun u w' => catch_res (k u w') h) w
  end.

Definition try_catch {A} (m : M A) (h : error -> M A) : M A :=
  fun w => catch_res (m w) h.

(** A synchronous step. *)
Definition sync {A} (f : world -> A * world) : M A :=
  fun w => let '(a, w') := f w in Done a w'.

Definition modify (f : world -> world) : M unit :=
  fun w => Done tt (f w).

Definition get {A} (f : world -> A) : M A := fun w => Done (f w) w.

(** [await op(...)]: the operation is issued, the caller is suspended and
    later receives the outcome. *)
Definition io {A} (op : world -> (error + A) * world) : M A :=
  fun w =>
    let issued := op w in
    Yield (fun w2 => match issued.1 with
                     | inr a => Done a w2
                     | inl e => Fail e w2
                     end) issued.2.

(** [op(...)] without [await]: the operation is issued and its promise
    dropped; a failure becomes an unhandled rejection. *)
Definition detached {A} (op : world -> (error + A) * world) : M unit :=
  fun w =>
    let issued := op w in
    Done tt match issued.1 with
            | inr _ => issued.2
            | inl e => set_unhandled e issued.2
            end.

Definition await_ready : M unit := fun w => AwaitReady (fun w' => Done tt w') w.

Definition await_authDb : M (option string) :=
  fun w => AwaitAuthDb (fun u w' => Done u w') w.

(** Going on with a suspended call in the current world [w]. A call that
    awaits a pending promise stays where it is. *)
Definition resume {A} (r : res A) (w : world) : res A :=
  match r with
  | Done a _ => Done a w
  | Fail e _ => Fail e w
  | Yield k _ => k w
  | AwaitReady k _ =>
      match ready w with
      | Resolved _ => k w
      | Pending => AwaitReady k w
      end
  | AwaitAuthDb k _ =>
      match authDb w with
      | Resolved u => k u w
      | Pending => AwaitAuthDb k w
      end
  end.

(** A call left to run on its own, with nothing else scheduled in
    between: it ends, or stops at a promise that is still pending. *)
Fixpoint run {A} (r : res A) : res A :=
  match r with
  | Yield k w => run (k w)
  | AwaitReady k w =>
      match ready w with
      | Resolved _ => run (k w)
      | Pending => r
      end
  | AwaitAuthDb k w =>
      match authDb w with
      | Resolved u => run (k u w)
      | Pending => r
      end
  | _ => r
  end.

(** ** The outside: fs, keypair, rand-token, mongodb, bcrypt, JSON *)

(** The directory part of a path; [None] for a name directly below
    [process.cwd()]. *)
Fixpoint dirname (path : string) : option string :=
  match path with
  | EmptyString => None
  | String c rest =>
      match dirname rest with
      | Some d => Some (String c d)
      | None => if Ascii.eqb c (Ascii.ascii_of_nat 47) then Some EmptyString else None
      end
  end.

Definition parent_exists (dirs : gset string) (path : string) : bool :=
  match dirname path with
  | None => true
  | Some d => bool_decide (d ∈ dirs)
  end.

(** What [readFile] finds at [path]. *)
Definition read_result (files : gmap string file_data)
    (dirs unreadable : gset string) (path : string) : error + file_data :=
  match files !! path with
  | Some d =>
      if bool_decide (path ∈ unreadable) then inl (EACCES path) else inr d
  | None =>
      if bool_decide (path ∈ dirs) then inl (EISDIR path)
      else inl (ENOENT path)
  end.

(** Why [mkdir(path)] fails, if it does. *)
Definition mkdir_error (files : gmap string file_data)
    (dirs unwritable : gset string) (path : string) : option error :=
  if bool_decide (path ∈ dom files ∪ dirs) then Some (EEXIST path)
  else if negb (parent_exists dirs path) then Some (ENOENT path)
  else if bool_decide (path ∈ unwritable) then Some (EACCES path)
  else None.

(** Why [writeFile(path, ...)] fails, if it does. *)
Definition write_error (dirs unwritable : gset string) (path : string)
    : option error :=
  if bool_decide (path ∈ dirs) then Some (EISDIR path)
  else if negb (parent_exists dirs path) then Some (ENOENT path)
  else if bool_decide (path ∈ unwritable) then Some (EACCES path)
  else None.

Definition op_lstat (path : string) (w : world) : (error + unit) * world :=
  (if bool_decide (path ∈ dom (files w) ∪ dirs w)
   then inr tt else inl (ENOENT path),
   emit (EvLstat path) w).

Definition op_readFile (path : string) (w : world)
    : (error + file_data) * world :=
  (read_result (files w) (dirs w) (unreadable (env w)) path,
   emit (EvReadFile path) w).

Definition op_mkdir (path : string) (w : world) : (error + unit) * world :=
  match mkdir_error (files w) (dirs w) (unwritable (env w)) path with
  | Some e => (inl e, emit (EvMkdir path) w)
  | None => (inr tt, set_dirs (union {[path]}) (emit (EvMkdir path) w))
  end.

Definition op_writeFile (path : string) (data : file_data) (w : world)
    : (error + unit) * world :=
  match write_error (dirs w) (unwritable (env w)) path with
  | Some e => (inl e, emit (EvWriteFile path data) w)
  | None =>
      (inr tt, set_files <[path := data]> (emit (EvWriteFile path data) w))
  end.

Definition fileExists (path : string) : M unit := io (op_lstat path).
Definition readFile (path : string) : M file_data := io (op_readFile path).
Definition mkdir (path : string) : M unit := io (op_mkdir path).
Definition writeFile (path : string) (data : file_data) : M unit :=
  io (op_writeFile path data).

(** [keypair()], synchronous. *)
Definition generateKeys : M keypair :=
  sync (fun w =>
    (keypair_of (env w) (entropy w),
     set_entropy (S (entropy w)) (emit EvGenerateKeys w))).

(** [randtoken.uid(256)], synchronous; the length is the oracle's. *)
Definition randtoken_uid (len : nat) : M string :=
  sync (fun w =>
    (uid_of (env w) (entropy w),
     set_entropy (S (entropy w)) (emit EvUid w))).

(** [mongodb.connect(url)]: the handle stands for the server at [url]. *)
Definition op_connect (url : option string) (w : world)
    : (error + string) * world :=
  (match url with
   | Some u =>
       match mongo w !! u with
       | Some _ => inr u
       | None => inl (MongoNetworkError url)
       end
   | None => inl (MongoNetworkError url)
   end,
   emit (EvConnect url) w).

Definition mongodb_connect (url : option string) : M string :=
  io (op_connect url).

(** [deleteOne({ user_id: id })] removes the first document that matches. *)
Fixpoint delete_first (id : string) (users : list user) : list user :=
  match users with
  | [] => []
  | u :: rest =>
      if String.eqb (user_id u) id then rest else u :: delete_first id rest
  end.

Definition op_deleteOne (db id : string) (w : world) : (error + unit) * world :=
  if delete_fails (env w)
  then (inl (MongoWriteError "deleteOne"), emit (EvDeleteOne db id) w)
  else (inr tt,
        set_mongo (alter (delete_first id) db) (emit (EvDeleteOne db id) w)).

Definition op_insertOne (db : string) (u : user) (w : world)
    : (error + unit) * world :=
  if insert_fails (env w)
  then (inl (MongoWriteError "insertOne"), emit (EvInsertOne db u) w)
  else (inr tt,
        set_mongo (alter (fun users => users ++ [u]) db)
                  (emit (EvInsertOne db u) w)).

Definition op_hash (data : string) (w : world) : (error + string) * world :=
  (match bcrypt_hash (env w) data with
   | Some h => inr h
   | None => inl BcryptError
   end,
   emit (EvHash data) w).

Definition bcrypt_hash_async (data : string) : M string := io (op_hash data).

Definition JSON_parse (d : file_data) : M credentials :=
  match d with
  | CredsDoc c => ret c
  | Raw _ => throw SyntaxError
  end.

Definition JSON_stringify (c : credentials) : file_data := CredsDoc c.

(** Texts that [JSON.parse] rejects whatever they go on with: after the
    white space comes nothing, or a character that starts no JSON
    value. *)
Definition json_space (c : Ascii.ascii) : bool :=
  existsb (Nat.eqb (Ascii.nat_of_ascii c)) [32; 9; 10; 13].

(** An opening brace, bracket or quote, a minus sign, a digit, or the
    first letter of [true], [false] and [null]. *)
Definition starts_value (c : Ascii.ascii) : bool :=
  let n := Ascii.nat_of_ascii c in
  existsb (Nat.eqb n) [123; 91; 34; 45; 116; 102; 110] ||
  (48 <=? n) && (n <=? 57).

Fixpoint not_json (text : string) : bool :=
  match text with
  | EmptyString => true
  | String c rest =>
      if json_space c then not_json rest else negb (starts_value c)
  end.

(** The text of a file as [readFile(path, 'utf-8')] hands it over; a
    credentials document is rendered without its white space. *)
Definition quoted (s : string) : string :=
  String (Ascii.ascii_of_nat 34) (s ++ String (Ascii.ascii_of_nat 34) "").

Definition render_entry (kv : string * Cache.entry) : string :=
  quoted kv.1 ++ ":{" ++ quoted "user_key" ++ ":"
    ++ quoted (Cache.user_key kv.2) ++ "," ++ quoted "user_secret" ++ ":"
    ++ quoted (Cache.user_secret kv.2) ++ "}".

Definition text_of (d : file_data) : string :=
  match d with
  | Raw s => s
  | CredsDoc c =>
      "{" ++ String.concat "," (render_entry <$> map_to_list c) ++ "}"
  end.

Definition log_silly (msg : string) : M unit := modify (emit (EvLog msg)).

(** ** Objects *)

(** JavaScript truthiness of a property that holds a string or nothing. *)
Definition truthy (v : option string) : bool :=
  match v with
  | Some s => negb (String.eqb s "")
  | None => false
  end.

(** [a || b] *)
Definition or_else (a b : option string) : option string :=
  if truthy a then a else b.

(** [obj.key = v]; a property set to [undefined] reads like a missing one. *)
Definition set_prop (key : string) (v : option string)
    (obj : gmap string string) : gmap string string :=
  match v with
  | Some s => <[key := s]> obj
  | None => delete key obj
  end.

(** The names an object literal, or the result of [JSON.parse], inherits
    from [Object.prototype].  Each of them holds a function, or the
    prototype itself, and so is truthy. *)
Definition prototype_names : list string :=
  ["constructor"; "__defineGetter__"; "__defineSetter__"; "hasOwnProperty";
   "__lookupGetter__"; "__lookupSetter__"; "isPrototypeOf";
   "propertyIsEnumerable"; "toString"; "valueOf"; "__proto__";
   "toLocaleString"].

Definition inherited (name : string) : bool :=
  existsb (String.eqb name) prototype_names.

(** [credentials[id]]: an entry of the document, a member inherited from
    the prototype, or [undefined]. *)
Inductive property : Type :=
  | Own (entry : Cache.entry)
  | Inherited
  | Missing.

Definition get_property (credentials : credentials) (id : string)
    : property :=
  match credentials !! id with
  | Some entry => Own entry
  | None => if inherited id then Inherited else Missing
  end.

(** Reading [config]; a reference to nothing is a TypeError. *)
Definition get_config (c : nat) : M config :=
  fun w =>
    match heap w !! c with
    | Some cfg => Done cfg w
    | None => Fail TypeError w
    end.

(** [config.local.key = v] *)
Definition set_local (c : nat) (key : string) (v : option string) : M unit :=
  fun w =>
    match heap w !! c with
    | Some cfg =>
        Done tt (set_heap
          <[c := {| local := set_prop key v (local cfg);
                    provided := provided cfg |}]> w)
    | None => Fail TypeError w
    end.

(** ** class Auth *)

Definition certDir : string := "config/certs".
Definition private_pem : string := "config/certs/auth.private.pem".
Definition public_pem : string := "config/certs/auth.public.pem".
Definition gitignore : string := "config/certs/.gitignore".
Definition credentials_json : string := "config/certs/credentials.json".

(** The [resolve] function of [this.ready]; resolving twice changes
    nothing. *)
Definition resolve_ready_step (w : world) : world :=
  match ready w with
  | Pending => set_ready (Resolved tt) w
  | Resolved _ => w
  end.

Definition resolve_ready : M unit := modify resolve_ready_step.

(** [this.resolveDb], the [resolve] function of [this.authDb]. *)
Definition resolveDb_step (url : option string) (w : world) : world :=
  match authDb w with
  | Pending => set_authDb (Resolved url) w
  | Resolved _ => w
  end.

Definition resolveDb (url : option string) : M unit :=
  modify (resolveDb_step url).

(** [writeFile(path, this.field)] *)
Definition writeFile_field (path : string) (field : world -> option string)
    : M unit :=
  let! v := get field in
  match v with
  | Some s => writeFile path (Raw s)
  | None => throw TypeError
  end.

Definition checkRSAKeys (resolve : M unit) : M unit :=
  try_catch
    (fileExists private_pem ;;
     let! priv := readFile private_pem in
     modify (set_certPrivate (Some (text_of priv))) ;;
     let! pub := readFile public_pem in
     modify (set_certPublic (Some (text_of pub))))
    (fun err =>
     let! keys := generateKeys in
     modify (set_certPrivate (Some (private keys))) ;;
     modify (set_certPublic (Some (public keys))) ;;
     (* Save keys so we can use them next time *)
     try_catch (mkdir "config") (fun err => ret tt) ;;
     try_catch (mkdir certDir) (fun err => ret tt) ;;
     writeFile_field public_pem certPublic ;;
     writeFile_field private_pem certPrivate ;;
     writeFile gitignore (Raw "*.*")) ;;
  resolve.

(** The promise of a call that nobody holds: when the call throws, the
    rejection is unhandled. *)
Definition dropped (m : M unit) : M unit :=
  try_catch m (fun err => modify (set_unhandled err)).

(** [constructor()].  The executor of [this.ready] starts [checkRSAKeys]
    and drops its promise; the result is that call, suspended at its
    first [await]. *)
Definition fresh_instance (w : world) : world :=
  set_authDb Pending
    (set_ready Pending (set_certPublic None (set_certPrivate None w))).

Definition constructor : M unit :=
  fun w => dropped (checkRSAKeys resolve_ready) (fresh_instance w).

Definition verifyKeys (type id : string) (config : nat) : M unit :=
  if String.eqb type "api" || String.eqb type "auth" then
    let! pub := get certPublic in
    set_local config "certPublic" pub ;;
    let! priv := get certPrivate in
    set_local config "certPrivate" priv
  else ret tt.

Definition checkUser (id : string) (config : nat) : M unit :=
  let! url := await_authDb in
  let! db := mongodb_connect url in
  (* See if user credentials for id are available locally *)
  let! credentials :=
    try_catch (let! text := readFile credentials_json in JSON_parse text)
              (fun err => ret ∅) in
  let! found :=
    match get_property credentials id with
    | Own entry =>
        (* Found user -> Get credentials from stored file *)
        ret (Some (Cache.user_key entry), Some (Cache.user_secret entry))
    | Inherited =>
        (* an inherited member has no user_key and no user_secret *)
        ret (None, None)
    | Missing =>
        (* User not found -> create new, save in db and locally *)
        log_silly (id ++ " credentials not found - creating..") ;;
        let! user_key := randtoken_uid 256 in
        let! user_secret := randtoken_uid 256 in
        (* Remove existing user with same id if present *)
        io (op_deleteOne db id) ;;
        (* Save in db *)
        let! hashed := bcrypt_hash_async user_secret in
        let! token := randtoken_uid 256 in
        let user :=
          {| user_key := user_key;
             user_secret := hashed;
             user_id := id;
             last_ip := [];
             scope := "write_root";
             refresh_token := user_key ++ token |} in
        detached (op_insertOne db user) ;;
        (* Append to credentials file *)
        let credentials :=
          <[id := {| Cache.user_key := user_key;
                     Cache.user_secret := user_secret |}]> credentials in
        writeFile credentials_json (JSON_stringify credentials) ;;
        ret (Some user_key, Some user_secret)
    end in
  set_local config "userKey" found.1 ;;
  set_local config "userSecret" found.2.

(** [await p] for the promise [p] of a call that was started earlier and
    has got as far as [started]. *)
Definition await_call {A} (started : res A) : M A :=
  fun w =>
    match started with
    | Done a _ => Done a w
    | Fail e _ => Fail e w
    | Yield k _ => Yield k w
    | AwaitReady k _ => AwaitReady k w
    | AwaitAuthDb k _ => AwaitAuthDb k w
    end.

Definition verifyUser (type id : string) (config : nat) : M unit :=
  if String.eqb type "core" then
    let! cfg := get_config config in
    if negb (truthy (provided cfg !! "userSecret")) then
      fun w =>
        (* this.complete = this.checkUser(id, config) *)
        let complete := checkUser id config w in
        ((if String.eqb id "auth_core" then
            let! cfg := get_config config in
            resolveDb (or_else (provided cfg !! "mongoUrl")
                               (local cfg !! "mongoUrl"))
          else ret tt) ;;
         await_call complete) (world_of complete)
    else ret tt
  else ret tt.

Definition verify (type id : string) (config : nat) : M unit :=
  await_ready ;;
  verifyKeys type id config ;;
  verifyUser type id config.

(** ** The process: the loader's calls and the event loop *)

(** A process holds the world, the key check started by the constructor
    and the [verify] calls made so far, each as far as it has got. *)
Record process : Type := {
  state : world;
  keycheck : res unit;
  calls : list (res unit)
}.

Inductive action : Type :=
  (* the loader calls verify(type, id, config) *)
  | Verify (type id : string) (config : nat)
  (* the event loop goes on with the key check *)
  | WakeKeys
  (* the event loop goes on with the i-th verify call *)
  | Wake (i : nat).

Definition act (p : process) (a : action) : process :=
  match a with
  | Verify type id config =>
      let r := verify type id config (state p) in
      {| state := world_of r; keycheck := keycheck p;
         calls := calls p ++ [r] |}
  | WakeKeys =>
      let r := resume (keycheck p) (state p) in
      {| state := world_of r; keycheck := r; calls := calls p |}
  | Wake i =>
      match calls p !! i with
      | Some r =>
          let r' := resume r (state p) in
          {| state := world_of r'; keycheck := keycheck p;
             calls := <[i := r']> (calls p) |}
      | None => p
      end
  end.

Definition clear_log (w : world) : world :=
  {| env := env w; dirs := dirs w; files := files w; mongo := mongo w;
     entropy := entropy w; certPrivate := certPrivate w;
     certPublic := certPublic w; ready := ready w; authDb := authDb w;
     heap := heap w; trace := []; unhandled := [] |}.

(** [module.exports = new Auth()] in a process that has done nothing
    yet. *)
Definition boot (w : world) : process :=
  let r := constructor (clear_log w) in
  {| state := world_of r; keycheck := r; calls := [] |}.

Definition exec (acts : list action) (p : process) : process :=
  fold_left act acts p.

(** ** What a call does at each of its steps *)

(** [conts R G r]: however the call [r] is resumed, in worlds that the
    others changed by [R] only, each of its steps changes the world by
    [G]. *)
Fixpoint conts {A} (R G : world -> world -> Prop) (r : res A) : Prop :=
  match r with
  | Done _ _ | Fail _ _ => True
  | Yield k w =>
      forall w', R w w' -> G w' (world_of (k w')) /\ conts R G (k w')
  | AwaitReady k w =>
      forall w', R w w' -> ready w' = Resolved tt ->
        G w' (world_of (k w')) /\ conts R G (k w')
  | AwaitAuthDb k w =>
      forall u w', R w w' -> authDb w' = Resolved u ->
        G w' (world_of (k u w')) /\ conts R G (k u w')
  end.

Definition always {A} (R G : world -> world -> Prop) (w0 : world)
    (r : res A) : Prop :=
  G w0 (world_of r) /\ conts R G r.

Definition anything : world -> world -> Prop := fun _ _ => True.

(** ** Properties of worlds and of steps *)

(** Every connection made so far went to the resolved target. *)
Definition connected_to_target (w : world) : Prop :=
  forall url, EvConnect url ∈ trace w -> authDb w = Resolved url.

(** A step keeps a resolved target, and connects to the target only. *)
Definition G_target (w w' : world) : Prop :=
  (forall u, authDb w = Resolved u -> authDb w' = Resolved u) /\
  (forall url, EvConnect url ∈ trace w' ->
     EvConnect url ∈ trace w \/ authDb w' = Resolved url).

(** A step leaves the target promise alone and connects nowhere. *)
Definition G_no_target (w w' : world) : Prop :=
  authDb w' = authDb w /\
  (forall url, EvConnect url ∈ trace w' -> EvConnect url ∈ trace w).

(** The file at [path] holds the text [s]. *)
Definition stored (w : world) (path s : string) : Prop :=
  exists d, files w !! path = Some d /\ text_of d = s.

(** Once [this.ready] is resolved, both keys are in memory and on disk. *)
Definition keys_complete (w : world) : Prop :=
  ready w = Resolved tt ->
  exists priv pub,
    certPrivate w = Some priv /\ certPublic w = Some pub /\
    stored w private_pem priv /\ stored w public_pem pub.

(** What a [verify] call leaves alone at each step: the key material,
    [this.ready], and every file but [credentials.json]. *)
Definition keeps_keys (w w' : world) : Prop :=
  certPrivate w' = certPrivate w /\ certPublic w' = certPublic w /\
  ready w' = ready w /\
  (forall path, path <> credentials_json ->
     files w' !! path = files w !! path).

(** The invariant of a process: a property [I] of the state, the key
    check and every call behaving by their step relations, each resumed
    in a world the others changed as it relies on. *)
Definition sys_inv (Rk Gk Rv Gv : world -> world -> Prop)
    (I : world -> Prop) (p : process) : Prop :=
  I (state p) /\
  conts Rk Gk (keycheck p) /\ Rk (world_of (keycheck p)) (state p) /\
  Forall (fun r => conts Rv Gv r /\ Rv (world_of r) (state p)) (calls p).

Definition is_verify (allowed : string -> string -> nat -> Prop)
    (a : action) : Prop :=
  match a with
  | Verify type id config => allowed type id config
  | _ => True
  end.

(** [guar R G m]: every step of a call of [m], started in any world,
    changes the world by [G]. *)
Definition guar {A} (R G : world -> world -> Prop) (m : M A) : Prop :=
  forall w, always R G w (m w).

(** A step leaves [this.authDb] as it is. *)
Definition keeps_target (w w' : world) : Prop := authDb w' = authDb w.


(** [ensures R G Q r]: like [conts], and when the call ends, with a value
    or an error, [Q] holds of the outcome and the world. *)
Fixpoint ensures {A} (R G : world -> world -> Prop)
    (Q : error + A -> world -> Prop) (r : res A) : Prop :=
  match r with
  | Done a w => Q (inr a) w
  | Fail e w => Q (inl e) w
  | Yield k w =>
      forall w', R w w' -> G w' (world_of (k w')) /\ ensures R G Q (k w')
  | AwaitReady k w =>
      forall w', R w w' -> ready w' = Resolved tt ->
        G w' (world_of (k w')) /\ ensures R G Q (k w')
  | AwaitAuthDb k w =>
      forall u w', R w w' -> authDb w' = Resolved u ->
        G w' (world_of (k u w')) /\ ensures R G Q (k u w')
  end.

(** [triple R G P m Q]: started where [P] holds, [m] steps by [G] and
    ends in [Q], the others stepping by [R]. *)
Definition triple {A} (R G : world -> world -> Prop) (P : world -> Prop)
    (m : M A) (Q : error + A -> world -> Prop) : Prop :=
  forall w, P w -> G w (world_of (m w)) /\ ensures R G Q (m w).

(** A step does not break [keys_complete]. *)
Definition G_keys (w w' : world) : Prop := keys_complete w -> keys_complete w'.

(** The key check has read or made both keys and they are on disk, and
    it has not resolved [this.ready] yet. *)
Definition keys_loaded (w : world) : Prop :=
  ready w = Pending /\
  exists priv pub,
    certPrivate w = Some priv /\ certPublic w = Some pub /\
    stored w private_pem priv /\ stored w public_pem pub.

(** What the key check knows while it runs: [this.ready] is pending, and
    what it has stored in the two fields and found or put in the two
    files so far. *)
Definition knows (priv pub : option string) (fpriv fpub : option file_data)
    (w : world) : Prop :=
  ready w = Pending /\
  (forall s, priv = Some s -> certPrivate w = Some s) /\
  (forall s, pub = Some s -> certPublic w = Some s) /\
  (forall d, fpriv = Some d -> files w !! private_pem = Some d) /\
  (forall d, fpub = Some d -> files w !! public_pem = Some d).

(** A postcondition by cases: on a value, on an error. *)
Definition outcome {A} (ok : A -> world -> Prop) (err : world -> Prop)
    : error + A -> world -> Prop :=
  fun r w =>
    match r with
    | inr a => ok a w
    | inl _ => err w
    end.

(** Every call but [verify('core', 'auth_core', ...)]. *)
Definition not_the_target_call (type id : string) (c : nat) : Prop :=
  ~ (type = "core" /\ id = "auth_core").

(** The worlds a call passes through when it runs on its own: the one it
    reaches first, and the one at each later suspension or at its end. *)
Fixpoint visited {A} (r : res A) : list world :=
  match r with
  | Done _ w | Fail _ w => [w]
  | Yield k w => w :: visited (k w)
  | AwaitReady k w =>
      w :: match ready w with
           | Resolved _ => visited (k w)
           | Pending => []
           end
  | AwaitAuthDb k w =>
      w :: match authDb w with
           | Resolved u => visited (k u w)
           | Pending => []
           end
  end.

(** The documents of a collection that belong to [id]. *)
Definition records_of (id : string) (users : list user) : list user :=
  filter (fun u => user_id u = id) users.

(** No collection holds two documents of one [user_id]. *)
Definition at_most_one (w : world) : Prop :=
  forall url users id,
    mongo w !! url = Some users -> length (records_of id users) <= 1.

(** Nobody else touches the shared store. *)
Definition same_store (w w' : world) : Prop := mongo w' = mongo w.

(** A step leaves the records of the id [X] as they are, in every
    collection. *)
Definition keeps_records (X : string) (w w' : world) : Prop :=
  forall url,
    records_of X <$> (mongo w' !! url) = records_of X <$> (mongo w !! url).

(** Every call but those for the id [X]. *)
Definition not_for (X : string) (type id : string) (c : nat) : Prop :=
  id <> X.

(** [this.ready] is pending. *)
Definition pending (w : world) : Prop := ready w = Pending.

(** A step of the key check: it leaves every [config] alone, and changes
    nothing at all once [this.ready] is resolved. *)
Definition G_quiet (w w' : world) : Prop :=
  heap w' = heap w /\ (ready w = Resolved tt -> w' = w).

(** From a world in which [this.ready] is resolved, the process has not
    changed [this.ready], the keys in memory, or any file but
    [credentials.json]. *)
Definition keys_settled (w w' : world) : Prop :=
  ready w = Resolved tt -> keeps_keys w w'.

(** A step of a [verify]: it leaves the instance's keys alone, and a key
    it puts into a [config] is the instance's, taken when [this.ready] is
    resolved. *)
Definition G_certs (w w' : world) : Prop :=
  keeps_keys w w' /\
  forall c cfg' v, heap w' !! c = Some cfg' ->
    (local cfg' !! "certPublic" = Some v ->
       (exists cfg, heap w !! c = Some cfg /\
          local cfg !! "certPublic" = Some v) \/
       (ready w = Resolved tt /\ certPublic w = Some v)) /\
    (local cfg' !! "certPrivate" = Some v ->
       (exists cfg, heap w !! c = Some cfg /\
          local cfg !! "certPrivate" = Some v) \/
       (ready w = Resolved tt /\ certPrivate w = Some v)).

(** Every key found in a [config] is the instance's, and [this.ready] is
    resolved. *)
Definition certs_from_instance (w : world) : Prop :=
  forall c cfg v, heap w !! c = Some cfg ->
    (local cfg !! "certPublic" = Some v ->
       ready w = Resolved tt /\ certPublic w = Some v) /\
    (local cfg !! "certPrivate" = Some v ->
       ready w = Resolved tt /\ certPrivate w = Some v).

(** No [config] holds a key yet. *)
Definition key_free (w : world) : Prop :=
  forall c cfg, heap w !! c = Some cfg ->
    local cfg !! "certPublic" = None /\ local cfg !! "certPrivate" = None.


Definition key_consuming (type : string) : Prop :=
  type = "api" \/ type = "auth".

(** [config.provided.userSecret] is absent, or empty. *)
Definition no_override (cfg : config) : Prop :=
  truthy (provided cfg !! "userSecret") = false.

(** What [checkUser] leaves in [config.local]. *)
Definition with_credentials (e : Cache.entry) (cfg : config) : config :=
  {| local := <["userSecret" := Cache.user_secret e]>
                (<["userKey" := Cache.user_key e]> (local cfg));
     provided := provided cfg |}.

(** What [checkUser] leaves in [config.local] for an id it found on the
    prototype: both properties are set to [undefined]. *)
Definition without_credentials (cfg : config) : config :=
  {| local := delete "userSecret" (delete "userKey" (local cfg));
     provided := provided cfg |}.

(** What [verifyKeys] leaves in [config.local] of an api or auth node. *)
Definition with_keys (w : world) (cfg : config) : config :=
  {| local := set_prop "certPrivate" (certPrivate w)
                (set_prop "certPublic" (certPublic w) (local cfg));
     provided := provided cfg |}.

(** How a call ended, if it did. *)
Definition settled {A} (r : res A) : option (error + A) :=
  match r with
  | Done a _ => Some (inr a)
  | Fail e _ => Some (inl e)
  | _ => None
  end.

(** ** Calls for one id that overlap *)






(** What a call for the id [X] relies on from the others: the records
    of [X] stay as they are, and no id gets a second record. *)
Definition R_own (X : string) (w w' : world) : Prop :=
  keeps_records X w w' /\ (at_most_one w -> at_most_one w').

(** What a call for the id [X] does in turn: the records of every other
    id stay as they are, and no id gets a second record. *)
Definition G_own (X : string) (w w' : world) : Prop :=
  (forall Y, Y <> X -> keeps_records Y w w') /\
  (at_most_one w -> at_most_one w').




(** The connection target a config supplies:
    [config.provided.mongoUrl || config.local.mongoUrl]. *)
Definition target_of (cfg : config) : option string :=
  or_else (provided cfg !! "mongoUrl") (local cfg !! "mongoUrl").

(** The world in which [verifyUser] awaits [checkUser]: the call for
    ['auth_core'] has run [this.resolveDb] by then. *)
Definition entering (id : string) (cfg : config) (w : world) : world :=
  if String.eqb id "auth_core" then resolveDb_step (target_of cfg) w else w.

(** How a call left to run on its own ends: with a value or an error, or
    blocked at a promise that is still pending. *)
Inductive ending (A : Type) : Type :=
  | Ended (o : error + A) (w : world)
  | Blocked (w : world).
Arguments Ended {A} o w.
Arguments Blocked {A} w.

Definition ending_of {A} (r : res A) : ending A :=
  match r with
  | Done a w => Ended (inr a) w
  | Fail e w => Ended (inl e) w
  | Yield _ w | AwaitReady _ w | AwaitAuthDb _ w => Blocked w
  end.

Definition solo {A} (m : M A) (w : world) : ending A := ending_of (run (m w)).

(** The file at [path] is missing, or cannot be read. *)
Definition unavailable (w : world) (path : string) : Prop :=
  files w !! path = None \/ path ∈ unreadable (env w).

(** The call is suspended at [await this.ready]. *)
Definition awaits_ready {A} (r : res A) : Prop :=
  match r with
  | AwaitReady _ _ => True
  | _ => False
  end.

(** The world a call left to run on its own comes to rest in. *)
Definition last_world {A} (e : ending A) : world :=
  match e with
  | Ended _ w | Blocked w => w
  end.

(** The events a call issued, from the world it started in to the one it
    came to rest in. *)
Definition issued (w w1 : world) : list event :=
  drop (length (trace w)) (trace w1).

(** ** The methods in one piece

    What a call that runs on its own comes to, written out from the first
    line of the method to the last; [checkUser_solo] and its like show
    these to be the endings of the methods above. *)

(** The last two lines of [checkUser]. *)
Definition hand_over (c : nat) (e : Cache.entry) (w : world) : ending unit :=
  match heap w !! c with
  | Some cfg => Ended (inr tt) (set_heap <[c := with_credentials e cfg]> w)
  | None => Ended (inl TypeError) w
  end.

(** The same two lines after a lookup that found an inherited member. *)
Definition hand_over_undefined (c : nat) (w : world) : ending unit :=
  match heap w !! c with
  | Some cfg => Ended (inr tt) (set_heap <[c := without_credentials cfg]> w)
  | None => Ended (inl TypeError) w
  end.

(** The credentials [checkUser] has after reading [credentials.json]. *)
Definition cached (w : world) : credentials :=
  match read_result (files w) (dirs w) (unreadable (env w))
          credentials_json with
  | inr (CredsDoc doc) => doc
  | _ => ∅
  end.


(** The three tokens of a creation and the document it inserts. *)
Definition new_key (w : world) : string := uid_of (env w) (entropy w).
Definition new_secret (w : world) : string := uid_of (env w) (S (entropy w)).
Definition new_token (w : world) : string :=
  uid_of (env w) (S (S (entropy w))).

Definition new_entry (w : world) : Cache.entry :=
  {| Cache.user_key := new_key w; Cache.user_secret := new_secret w |}.

Definition new_user (id hashed : string) (w : world) : user :=
  {| user_key := new_key w;
     user_secret := hashed;
     user_id := id;
     last_ip := [];
     scope := "write_root";
     refresh_token := new_key w ++ new_token w |}.

(** The worlds of a creation, in order: after the lookup failed and two
    tokens were drawn, after [deleteOne], after the hash and the third
    token, after [insertOne]. *)
Definition looked_up (url : option string) (w : world) : world :=
  emit (EvReadFile credentials_json) (emit (EvConnect url) w).

Definition drawn (id : string) (url : option string) (w : world) : world :=
  set_entropy (S (S (entropy w)))
    (emit EvUid
      (set_entropy (S (entropy w))
        (emit EvUid
          (emit (EvLog (id ++ " credentials not found - creating.."))
            (looked_up url w))))).

Definition deleted (id db : string) (w : world) : world :=
  set_mongo (alter (delete_first id) db)
    (emit (EvDeleteOne db id) (drawn id (Some db) w)).

Definition hashed_at (id db : string) (w : world) : world :=
  set_entropy (S (S (S (entropy w))))
    (emit EvUid (emit (EvHash (new_secret w)) (deleted id db w))).

Definition inserted (id db hashed : string) (w : world) : world :=
  if insert_fails (env w)
  then set_unhandled (MongoWriteError "insertOne")
         (emit (EvInsertOne db (new_user id hashed w)) (hashed_at id db w))
  else set_mongo (alter (fun users => users ++ [new_user id hashed w]) db)
         (emit (EvInsertOne db (new_user id hashed w)) (hashed_at id db w)).


Definition new_doc (id : string) (w : world) : file_data :=
  CredsDoc (<[id := new_entry w]> (cached w)).

Definition checkUser_alone (id : string) (c : nat) (w : world) : ending unit :=
  match authDb w with
  | Pending => Blocked w
  | Resolved url =>
      match url ≫= (fun u => mongo w !! u ≫= (fun _ => Some u)) with
      | None => Ended (inl (MongoNetworkError url)) (emit (EvConnect url) w)
      | Some db =>
          match cached w !! id with
          | Some entry => hand_over c entry (looked_up url w)
          | None =>
              if inherited id then hand_over_undefined c (looked_up url w)
              else if delete_fails (env w)
              then Ended (inl (MongoWriteError "deleteOne"))
                     (emit (EvDeleteOne db id) (drawn id url w))
              else
                match bcrypt_hash (env w) (new_secret w) with
                | None =>
                    Ended (inl BcryptError)
                      (emit (EvHash (new_secret w)) (deleted id db w))
                | Some hashed =>
                    match write_error (dirs w) (unwritable (env w))
                            credentials_json with
                    | Some e =>
                        Ended (inl e)
                          (emit (EvWriteFile credentials_json (new_doc id w))
                             (inserted id db hashed w))
                    | None =>
                        hand_over c (new_entry w)
                          (set_files <[credentials_json := new_doc id w]>
                             (emit
                                (EvWriteFile credentials_json (new_doc id w))
                                (inserted id db hashed w)))
                    end
                end
          end
      end
  end.

Definition verifyKeys_alone (type : string) (c : nat) (w : world)
    : ending unit :=
  if String.eqb type "api" || String.eqb type "auth" then
    match heap w !! c with
    | Some cfg => Ended (inr tt) (set_heap <[c := with_keys w cfg]> w)
    | None => Ended (inl TypeError) w
    end
  else Ended (inr tt) w.

Definition verifyUser_alone (type id : string) (c : nat) (w : world)
    : ending unit :=
  if String.eqb type "core" then
    match heap w !! c with
    | Some cfg =>
        if negb (truthy (provided cfg !! "userSecret"))
        then checkUser_alone id c (entering id cfg w)
        else Ended (inr tt) w
    | None => Ended (inl TypeError) w
    end
  else Ended (inr tt) w.

Definition verify_alone (type id : string) (c : nat) (w : world)
    : ending unit :=
  match ready w with
  | Pending => Blocked w
  | Resolved _ =>
      match verifyKeys_alone type c w with
      | Ended (inr _) w1 => verifyUser_alone type id c w1
      | Ended (inl e) w1 => Ended (inl e) w1
      | Blocked w1 => Blocked w1
      end
  end.

(** The world after [mkdir(path)] inside [try { } catch (err) { }]. *)
Definition made (path : string) (w : world) : world :=
  match mkdir_error (files w) (dirs w) (unwritable (env w)) path with
  | Some _ => emit (EvMkdir path) w
  | None => set_dirs (union {[path]}) (emit (EvMkdir path) w)
  end.

(** [await writeFile(path, data)] and then [next]. *)
Definition written (path : string) (data : file_data) (w : world)
    (next : world -> ending unit) : ending unit :=
  match write_error (dirs w) (unwritable (env w)) path with
  | Some e => Ended (inl e) (emit (EvWriteFile path data) w)
  | None => next (set_files <[path := data]> (emit (EvWriteFile path data) w))
  end.

(** The [try] block of [checkRSAKeys]. *)
Definition load_keys (w : world) : ending unit :=
  let w1 := emit (EvLstat private_pem) w in
  if bool_decide (private_pem ∈ dom (files w) ∪ dirs w) then
    match read_result (files w) (dirs w) (unreadable (env w)) private_pem with
    | inl e => Ended (inl e) (emit (EvReadFile private_pem) w1)
    | inr priv =>
        let w2 := set_certPrivate (Some (text_of priv))
                    (emit (EvReadFile private_pem) w1) in
        match read_result (files w) (dirs w) (unreadable (env w))
                public_pem with
        | inl e => Ended (inl e) (emit (EvReadFile public_pem) w2)
        | inr pub =>
            Ended (inr tt)
              (set_certPublic (Some (text_of pub))
                 (emit (EvReadFile public_pem) w2))
        end
    end
  else Ended (inl (ENOENT private_pem)) w1.

(** The [catch] block of [checkRSAKeys]: the new keys in the fields, the
    two directories, the three files. *)
Definition generated (w : world) : world :=
  set_certPublic (Some (public (keypair_of (env w) (entropy w))))
    (set_certPrivate (Some (private (keypair_of (env w) (entropy w))))
       (set_entropy (S (entropy w)) (emit EvGenerateKeys w))).

Definition save_keys (w : world) : ending unit :=
  let w3 := made certDir (made "config" w) in
  match certPublic w3 with
  | None => Ended (inl TypeError) w3
  | Some pub =>
      written public_pem (Raw pub) w3 (fun w4 =>
        match certPrivate w4 with
        | None => Ended (inl TypeError) w4
        | Some priv =>
            written private_pem (Raw priv) w4 (fun w5 =>
              written gitignore (Raw "*.*") w5 (fun w6 => Ended (inr tt) w6))
        end)
  end.

Definition checkRSAKeys_alone (w : world) : ending unit :=
  match
    match load_keys w with
    | Ended (inl _) w' => save_keys (generated w')
    | other => other
    end
  with
  | Ended (inr _) w' => Ended (inr tt) (resolve_ready_step w')
  | other => other
  end.

Definition constructor_alone (w : world) : ending unit :=
  match checkRSAKeys_alone (fresh_instance w) with
  | Ended (inl e) w' => Ended (inr tt) (set_unhandled e w')
  | other => other
  end.

(** The key files can be written once the two [mkdir]s have been tried. *)
Definition keys_writable (w : world) : Prop :=
  forall path, path ∈ [public_pem; private_pem; gitignore] ->
    write_error (dirs (made certDir (made "config" w))) (unwritable (env w))
      path = None.

(** ** Worlds to run the class in *)

Definition letter (n : nat) : string :=
  String (Ascii.ascii_of_nat (65 + n)) EmptyString.

(** An environment in which nothing fails. *)
Definition sound : environment :=
  {| unreadable := ∅;
     unwritable := ∅;
     delete_fails := false;
     insert_fails := false;
     keypair_of := fun n =>
       {| public := String.append (letter n) "-PUBLIC KEY";
          private := String.append (letter n) "-PRIVATE KEY" |};
     uid_of := fun n => String.append (letter n) "-token";
     bcrypt_hash := fun s => Some (String.append "$2a$10$" (String.rev s)) |}.

Definition auth_url : string := "mongodb://localhost/blitz-js-auth".

(** Four nodes: the auth core node with its database, a core node, an api
    node, and a core node whose operator provided the secret. *)
Definition node_configs : gmap nat config :=
  {[ 0 := {| local := ∅; provided := {[ "mongoUrl" := auth_url ]} |};
     1 := {| local := ∅; provided := ∅ |};
     2 := {| local := ∅; provided := ∅ |};
     3 := {| local := ∅; provided := {[ "userSecret" := "by hand" ]} |} ]}.

(** A machine on which the program never ran: no config directory, an
    empty users collection. *)
Definition fresh_in (e : environment) : world :=
  {| env := e; dirs := ∅; files := ∅; mongo := {[ auth_url := [] ]};
     entropy := 0; certPrivate := None; certPublic := None;
     ready := Pending; authDb := Pending;
     heap := node_configs; trace := []; unhandled := [] |}.

Definition fresh : world := fresh_in sound.

(** The instance is built and its key check has come to an end. *)
Definition booted_in (e : environment) : world :=
  world_of (run (constructor (fresh_in e))).

Definition booted : world := booted_in sound.

(** After that, the auth core node is verified. *)
Definition served_in (e : environment) : world :=
  world_of (run (verify "core" "auth_core" 0 (booted_in e))).

Definition served : world := served_in sound.

(** The database refuses every insert. *)
Definition insert_refused : environment :=
  {| unreadable := ∅; unwritable := ∅;
     delete_fails := false; insert_fails := true;
     keypair_of := keypair_of sound; uid_of := uid_of sound;
     bcrypt_hash := bcrypt_hash sound |}.

(** The public key file cannot be written. *)
Definition read_only_pem : environment :=
  {| unreadable := ∅; unwritable := {[ public_pem ]};
     delete_fails := false; insert_fails := false;
     keypair_of := keypair_of sound; uid_of := uid_of sound;
     bcrypt_hash := bcrypt_hash sound |}.

(** The operator removes the private key file. *)
Definition drop_keys (w : world) : world :=
  set_files (delete private_pem) w.

(** A machine that kept an old private key, write-protected, and lost the
    public key. *)
Definition private_protected : environment :=
  {| unreadable := ∅; unwritable := {[ private_pem ]};
     delete_fails := false; insert_fails := false;
     keypair_of := keypair_of sound; uid_of := uid_of sound;
     bcrypt_hash := bcrypt_hash sound |}.

Definition half_kept : world :=
  {| env := private_protected; dirs := {[ "config"; certDir ]};
     files := {[ private_pem := Raw "OLD PRIVATE KEY" ]};
     mongo := {[ auth_url := [] ]};
     entropy := 0; certPrivate := None; certPublic := None;
     ready := Pending; authDb := Pending;
     heap := node_configs; trace := []; unhandled := [] |}.

(** The instance is built and the target of the database is known. *)
Definition targeted_in (e : environment) : world :=
  resolveDb_step (Some auth_url) (booted_in e).




(** A machine whose cache file was left with the marks of a merge. *)
Definition garbled : world :=
  set_files <[credentials_json := Raw "<<<<<<< HEAD"]> (targeted_in sound).

(** A config whose operator left the override fields blank. *)
Definition blank_config : config :=
  {| local := {[ "mongoUrl" := auth_url ]};
     provided := {[ "userSecret" := EmptyString; "mongoUrl" := EmptyString ]} |}.

Definition blank_booted : world := set_heap <[4 := blank_config]> booted.

(** The event loop goes on with the key check until it is through. *)
Definition eight_wakes : list action :=
  [WakeKeys; WakeKeys; WakeKeys; WakeKeys; WakeKeys; WakeKeys; WakeKeys;
   WakeKeys].

(** Two nodes ask for their keys while the key check is still running. *)
Definition two_api_nodes : list action :=
  [Verify "api" "blog_api" 2; WakeKeys; WakeKeys; Wake 0;
   Verify "auth" "main_auth" 1; WakeKeys; WakeKeys; WakeKeys; WakeKeys;
   WakeKeys; WakeKeys; Wake 1; Wake 0].








(** The database server is gone. *)
Definition offline (w : world) : world := set_mongo (fun _ => ∅) w.

(** ** Running a call on its own *)

Lemma run_bind_res {A B} (r : res A) (f : A -> M B) :
  run (bind_res r f) =
  match run r with
  | Done a w => run (f a w)
  | Fail e w => Fail e w
  | Yield k w => Yield (fun w' => bind_res (k w') f) w
  | AwaitReady k w => AwaitReady (fun w' => bind_res (k w') f) w
  | AwaitAuthDb k w => AwaitAuthDb (fun u w' => bind_res (k u w') f) w
  end.
Proof.
  induction r as [a w|e w|k IH w|k IH w|k IH w]; simpl; try done.
  - destruct (ready w); [done|]. apply IH.
  - destruct (authDb w) as [|u]; [done|]. apply IH.
Qed.

(** ** Processes keep their invariant *)

Section system.
Variables Rk Gk Rv Gv : world -> world -> Prop.
Variable I : world -> Prop.
Variable allowed : string -> string -> nat -> Prop.

Hypothesis Rk_refl : forall w, Rk w w.
Hypothesis Rk_trans : forall a b c, Rk a b -> Rk b c -> Rk a c.
Hypothesis Rv_refl : forall w, Rv w w.
Hypothesis Rv_trans : forall a b c, Rv a b -> Rv b c -> Rv a c.
Hypothesis Gk_Rv : forall w w', Gk w w' -> Rv w w'.
Hypothesis Gv_Rk : forall w w', Gv w w' -> Rk w w'.
Hypothesis Gv_Rv : forall w w', Gv w w' -> Rv w w'.
Hypothesis Gk_I : forall w w', Gk w w' -> I w -> I w'.
Hypothesis Gv_I : forall w w', Gv w w' -> I w -> I w'.
Hypothesis verify_ok : forall type id config w,
  allowed type id config -> always Rv Gv w (verify type id config w).

Lemma resume_conts {A} R G (r : res A) w :
  (forall a b c, R a b -> R b c -> R a c) ->
  conts R G r -> R (world_of r) w ->
  (world_of (resume r w) = w \/ G w (world_of (resume r w))) /\
  conts R G (resume r w).
Proof.
  intros Rtrans Hc HR. destruct r as [a w0|e w0|k w0|k w0|k w0]; simpl in *.
  - by split; [left|].
  - by split; [left|].
  - destruct (Hc w HR) as [HG Hk]. by split; [right|].
  - destruct (ready w) as [|[]] eqn:Hr.
    + split; [by left|]. simpl. intros w' HR'. apply Hc. by eapply Rtrans.
    + destruct (Hc w HR Hr) as [HG Hk]. by split; [right|].
  - destruct (authDb w) as [|u] eqn:Ha.
    + split; [by left|]. simpl. intros u w' HR'. apply Hc. by eapply Rtrans.
    + destruct (Hc u w HR Ha) as [HG Hk]. by split; [right|].
Qed.

Lemma act_inv p a :
  is_verify allowed a ->
  sys_inv Rk Gk Rv Gv I p -> sys_inv Rk Gk Rv Gv I (act p a).
Proof.
  intros Ha (HI & Hk & HRk & Hcalls).
  destruct a as [type id c| |i]; unfold sys_inv; simpl.
  - destruct (verify_ok type id c (state p) Ha) as [HG Hc].
    split_and!; [by eapply Gv_I|done|by eauto|].
    apply Forall_app. split.
    + eapply Forall_impl; [exact Hcalls|]. simpl. intros r [? ?]. eauto.
    + apply Forall_singleton. split; [done|apply Rv_refl].
  - destruct (resume_conts Rk Gk (keycheck p) (state p) Rk_trans Hk HRk)
      as [[Heq|HG] Hc].
    + rewrite Heq. split_and!; [done|done|apply Rk_refl|done].
    + split_and!; [by eapply Gk_I|done|apply Rk_refl|].
      eapply Forall_impl; [exact Hcalls|]. simpl. intros r [? ?]. eauto.
  - destruct (calls p !! i) as [r|] eqn:Hi; [|by split_and!].
    pose proof (proj1 (Forall_lookup _ _) Hcalls i r Hi) as [Hc HR].
    destruct (resume_conts Rv Gv r (state p) Rv_trans Hc HR)
      as [[Heq|HG] Hc']; simpl.
    + rewrite Heq. split_and!; [done|done|done|].
      apply Forall_insert; [done|]. split; [done|]. rewrite Heq. apply Rv_refl.
    + split_and!; [by eapply Gv_I|done|by eauto|].
      apply Forall_insert.
      * eapply Forall_impl; [exact Hcalls|]. simpl. intros r0 [? ?]. eauto.
      * split; [done|apply Rv_refl].
Qed.

Lemma exec_inv acts p :
  Forall (is_verify allowed) acts ->
  sys_inv Rk Gk Rv Gv I p -> sys_inv Rk Gk Rv Gv I (exec acts p).
Proof.
  revert p. induction acts as [|a acts IH]; intros p Hall Hp; [done|].
  inversion_clear Hall. simpl. apply IH; [done|]. by apply act_inv.
Qed.

(** Whatever relation [T] the steps of both kinds stay within, the
    state of the process moves by [T]. *)
Variable T : world -> world -> Prop.
Context `{!PreOrder T}.
Hypothesis Gk_T : forall w w', Gk w w' -> T w w'.
Hypothesis Gv_T : forall w w', Gv w w' -> T w w'.

Lemma act_rel p a :
  is_verify allowed a ->
  sys_inv Rk Gk Rv Gv I p -> T (state p) (state (act p a)).
Proof.
  intros Ha (HI & Hk & HRk & Hcalls). destruct a as [type id c| |i]; simpl.
  - apply Gv_T. by destruct (verify_ok type id c (state p) Ha).
  - destruct (resume_conts Rk Gk (keycheck p) (state p) Rk_trans Hk HRk)
      as [[Heq|HG] _]; [by rewrite Heq|by apply Gk_T].
  - destruct (calls p !! i) as [r|] eqn:Hi; [|done].
    pose proof (proj1 (Forall_lookup _ _) Hcalls i r Hi) as [Hc HR].
    destruct (resume_conts Rv Gv r (state p) Rv_trans Hc HR)
      as [[Heq|HG] _]; simpl; [by rewrite Heq|by apply Gv_T].
Qed.

Lemma exec_rel acts p :
  Forall (is_verify allowed) acts ->
  sys_inv Rk Gk Rv Gv I p -> T (state p) (state (exec acts p)).
Proof.
  revert p. induction acts as [|a acts IH]; intros p Hall Hp; [done|].
  inversion_clear Hall. simpl. etrans; [by apply act_rel|].
  apply IH; [done|]. by apply act_inv.
Qed.
End system.

(** ** Rules for the steps of a call *)

Section rules.
Variables R G : world -> world -> Prop.
Context `{!PreOrder G}.

Lemma always_anchor {A} w0 w (r : res A) :
  G w0 w -> always R G w r -> always R G w0 r.
Proof. intros H0 [H1 H2]. split; [by etrans|done]. Qed.

Lemma always_bind {A B} w0 (r : res A) (f : A -> M B) :
  always R G w0 r -> (forall a, guar R G (f a)) ->
  always R G w0 (bind_res r f).
Proof.
  intros Hr Hf. revert w0 Hr.
  induction r as [a w|e w|k IH w|k IH w|k IH w]; intros w0 [H0 Hc]; simpl in *.
  - eapply always_anchor; [exact H0|apply Hf].
  - by split.
  - split; [done|]. intros w' HR. destruct (Hc w' HR) as [HG Hk].
    apply (IH w' w'). by split.
  - split; [done|]. intros w' HR Hr. destruct (Hc w' HR Hr) as [HG Hk].
    apply (IH w' w'). by split.
  - split; [done|]. intros u w' HR Ha. destruct (Hc u w' HR Ha) as [HG Hk].
    apply (IH u w' w'). by split.
Qed.

Lemma always_catch {A} w0 (r : res A) (h : error -> M A) :
  always R G w0 r -> (forall e, guar R G (h e)) ->
  always R G w0 (catch_res r h).
Proof.
  intros Hr Hh. revert w0 Hr.
  induction r as [a w|e w|k IH w|k IH w|k IH w]; intros w0 [H0 Hc]; simpl in *.
  - by split.
  - eapply always_anchor; [exact H0|apply Hh].
  - split; [done|]. intros w' HR. destruct (Hc w' HR) as [HG Hk].
    apply (IH w' w'). by split.
  - split; [done|]. intros w' HR Hr. destruct (Hc w' HR Hr) as [HG Hk].
    apply (IH w' w'). by split.
  - split; [done|]. intros u w' HR Ha. destruct (Hc u w' HR Ha) as [HG Hk].
    apply (IH u w' w'). by split.
Qed.

Lemma guar_bind {A B} (m : M A) (f : A -> M B) :
  guar R G m -> (forall a, guar R G (f a)) -> guar R G (bind m f).
Proof. intros Hm Hf w. apply always_bind; [apply Hm|done]. Qed.

Lemma guar_try_catch {A} (m : M A) (h : error -> M A) :
  guar R G m -> (forall e, guar R G (h e)) -> guar R G (try_catch m h).
Proof. intros Hm Hh w. apply always_catch; [apply Hm|done]. Qed.

Lemma guar_ret {A} (a : A) : guar R G (ret a).
Proof. intros w. by split. Qed.

Lemma guar_throw {A} (e : error) : guar R G (@throw A e).
Proof. intros w. by split. Qed.

Lemma guar_get {A} (f : world -> A) : guar R G (get f).
Proof. intros w. by split. Qed.

Lemma guar_modify (f : world -> world) :
  (forall w, G w (f w)) -> guar R G (modify f).
Proof. intros Hf w. by split; [apply Hf|]. Qed.

Lemma guar_sync {A} (f : world -> A * world) :
  (forall w, G w (f w).2) -> guar R G (sync f).
Proof.
  intros Hf w. unfold sync. specialize (Hf w).
  destruct (f w) as [a w']. by split.
Qed.

Lemma always_io {A} (op : world -> (error + A) * world) w :
  G w (op w).2 -> always R G w (io op w).
Proof.
  intros Hop. unfold io.
  destruct (op w) as [[e|a] w1]; (split; [done|]); simpl; intros w' _;
    by split.
Qed.

Lemma guar_io {A} (op : world -> (error + A) * world) :
  (forall w, G w (op w).2) -> guar R G (io op).
Proof. intros Hop w. by apply always_io. Qed.

Lemma always_await_authDb_bind {A} (f : option string -> M A) w :
  (forall u w', R w w' -> authDb w' = Resolved u -> always R G w' (f u w')) ->
  always R G w (bind await_authDb f w).
Proof. intros Hf. split; [done|]. simpl. intros u w' HR Ha. by apply Hf. Qed.

Lemma always_await_ready_bind {A} (f : unit -> M A) w :
  (forall w', R w w' -> ready w' = Resolved tt -> always R G w' (f tt w')) ->
  always R G w (bind await_ready f w).
Proof. intros Hf. split; [done|]. simpl. intros w' HR Ha. by apply Hf. Qed.

Lemma guar_detached {A} (op : world -> (error + A) * world) :
  (forall w, G w (op w).2) -> (forall e w, G w (set_unhandled e w)) ->
  guar R G (detached op).
Proof.
  intros Hop Hun w. unfold detached. specialize (Hop w).
  destruct (op w) as [[e|a] w1]; (split; [|done]); simpl; [|done].
  etrans; [exact Hop|apply Hun].
Qed.

Lemma guar_await_ready : guar R G await_ready.
Proof. intros w. split; [done|]. simpl. intros w' _ _. by split. Qed.

Lemma guar_await_authDb : guar R G await_authDb.
Proof. intros w. split; [done|]. simpl. intros u w' _ _. by split. Qed.

Lemma always_await_call {A} (r : res A) w :
  (forall a b c, R a b -> R b c -> R a c) ->
  conts R G r -> R (world_of r) w -> always R G w (await_call r w).
Proof.
  intros Rtrans Hc HR. split; [by destruct r|].
  destruct r as [a w0|e w0|k w0|k w0|k w0]; simpl in *; try done.
  - intros w' HR'. apply Hc. by eapply Rtrans.
  - intros w' HR'. apply Hc. by eapply Rtrans.
  - intros u w' HR'. apply Hc. by eapply Rtrans.
Qed.

Lemma guar_get_config c : guar R G (get_config c).
Proof. intros w. unfold get_config. destruct (heap w !! c); by split. Qed.

Lemma guar_set_local c key v :
  (forall f w, G w (set_heap f w)) -> guar R G (set_local c key v).
Proof.
  intros H w. unfold set_local. destruct (heap w !! c); split; try done.
  apply H.
Qed.

Lemma guar_JSON_parse d : guar R G (JSON_parse d).
Proof. destruct d; [apply guar_throw|apply guar_ret]. Qed.
End rules.

Ltac guar_step side :=
  first
    [ apply guar_bind; [tc_solve| |intros ?]
    | apply guar_try_catch; [tc_solve| |intros ?]
    | apply guar_ret; tc_solve
    | apply guar_throw; tc_solve
    | apply guar_get; tc_solve
    | apply guar_await_ready; tc_solve
    | apply guar_await_authDb; tc_solve
    | apply guar_get_config; tc_solve
    | apply guar_JSON_parse; tc_solve
    | apply guar_set_local; [tc_solve|intros ? ?; side]
    | apply guar_modify; [intros ?; side]
    | apply guar_sync; [intros ?; simpl; side]
    | apply guar_io; [tc_solve|intros ?; side]
    | apply guar_detached; [tc_solve|intros ?; side|intros ? ?; side] ].

Ltac unfold_ops :=
  unfold op_lstat, op_readFile, op_mkdir, op_writeFile, op_connect,
    op_deleteOne, op_insertOne, op_hash, resolve_ready_step.

Ltac unfold_prims :=
  unfold fileExists, readFile, mkdir, writeFile, writeFile_field, generateKeys,
    randtoken_uid, mongodb_connect, bcrypt_hash_async,
    JSON_stringify, log_silly, resolve_ready, resolveDb.


(** ** The step relations are preorders *)

#[global] Instance anything_preorder : PreOrder anything.
Proof. by split. Qed.

#[global] Instance keeps_keys_preorder : PreOrder keeps_keys.
Proof.
  split.
  - by repeat split.
  - intros a b c (?&?&?&Hf) (?&?&?&Hf'). split_and!; try congruence.
    intros p Hp. rewrite Hf', Hf; done.
Qed.

#[global] Instance G_target_preorder : PreOrder G_target.
Proof.
  split.
  - split; [done|]. intros url H. by left.
  - intros a b c [Hm Hc] [Hm' Hc']. split; [by eauto|].
    intros url H. destruct (Hc' url H) as [H'|H']; [|by right].
    destruct (Hc url H') as [H''|H'']; [by left|]. right. by apply Hm'.
Qed.

#[global] Instance G_no_target_preorder : PreOrder G_no_target.
Proof.
  split.
  - by split.
  - intros a b c [Hm Hc] [Hm' Hc']. split; [congruence|by eauto].
Qed.

Lemma G_no_target_target w w' : G_no_target w w' -> G_target w w'.
Proof.
  intros [Ha Hc]. split; [by rewrite Ha|]. intros url H. left. by apply Hc.
Qed.

Lemma G_target_connected w w' :
  G_target w w' -> connected_to_target w -> connected_to_target w'.
Proof.
  intros [Hm Hc] HI url H. destruct (Hc url H) as [H'|H']; [|done].
  apply Hm, HI, H'.
Qed.

Lemma keeps_keys_complete w w' :
  keeps_keys w w' -> keys_complete w -> keys_complete w'.
Proof.
  intros (Hpriv & Hpub & Hr & Hf) HI Hready. rewrite Hr in Hready.
  destruct (HI Hready) as (priv & pub & H1 & H2 & H3 & H4).
  exists priv, pub. unfold stored. rewrite Hpriv, Hpub, !Hf by done. done.
Qed.

(** ** What the methods do at each step *)

Ltac keeps_keys_side :=
  unfold_ops; repeat case_match; simpl;
  (split_and!; simpl; try done; intros ? ?; by rewrite lookup_insert_ne).

Ltac no_target_side :=
  unfold_ops; repeat case_match; simpl;
  (split; simpl; [done|];
   intros ?; rewrite ?elem_of_app, ?list_elem_of_singleton;
   intuition discriminate).

Ltac target_side := apply G_no_target_target; no_target_side.

Lemma checkUser_keeps_keys id c : guar anything keeps_keys (checkUser id c).
Proof.
  unfold checkUser. unfold_prims.
  repeat first [guar_step keeps_keys_side | case_match].
Qed.

Lemma checkUser_target id c : guar anything G_target (checkUser id c).
Proof.
  intros w. unfold checkUser. apply always_await_authDb_bind; [tc_solve|].
  intros u w' _ Hu. apply always_bind; [tc_solve| |].
  - apply always_io; [tc_solve|]. unfold op_connect. simpl. split; [done|].
    simpl. intros url. rewrite elem_of_app, list_elem_of_singleton.
    intros [?|[= ->]]; [by left|by right].
  - intros db. unfold_prims.
    repeat first [guar_step target_side | case_match].
Qed.

#[global] Instance keeps_target_preorder : PreOrder keeps_target.
Proof. split; unfold keeps_target; [done|congruence]. Qed.

Section verify_steps.
Variable G : world -> world -> Prop.
Context `{!PreOrder G}.
Variables type id : string.
Variable c : nat.

Hypothesis G_heap : forall f w, G w (set_heap f w).
Hypothesis G_checkUser : guar anything G (checkUser id c).
Hypothesis G_resolveDb :
  String.eqb type "core" = true -> String.eqb id "auth_core" = true ->
  forall url w, G w (resolveDb_step url w).

Lemma guar_verifyKeys : guar anything G (verifyKeys type id c).
Proof.
  unfold verifyKeys. case_match; repeat guar_step ltac:(apply G_heap).
Qed.

Lemma guar_verifyUser : guar anything G (verifyUser type id c).
Proof.
  unfold verifyUser. destruct (String.eqb type "core") eqn:Htype;
    [|by apply guar_ret].
  apply guar_bind; [tc_solve|by apply guar_get_config|]. intros cfg.
  case_match; [|by apply guar_ret]. intros w.
  destruct (G_checkUser w) as [HG Hc].
  eapply always_anchor; [done|exact HG|].
  apply always_bind; [tc_solve| |].
  - destruct (String.eqb id "auth_core") eqn:Hid; [|by apply guar_ret].
    apply guar_bind; [tc_solve|by apply guar_get_config|]. intros cfg'.
    apply guar_modify. intros w'. by apply G_resolveDb.
  - intros _ w'. apply always_await_call; [tc_solve|done|done|done].
Qed.

Lemma guar_verify : guar anything G (verify type id c).
Proof.
  unfold verify. apply guar_bind; [tc_solve|by apply guar_await_ready|].
  intros _. apply guar_bind; [tc_solve|apply guar_verifyKeys|].
  intros _. apply guar_verifyUser.
Qed.
End verify_steps.

Lemma verify_keeps_keys type id c : guar anything keeps_keys (verify type id c).
Proof.
  apply guar_verify; [tc_solve| | |].
  - intros f w. by repeat split.
  - apply checkUser_keeps_keys.
  - intros _ _ url w. unfold resolveDb_step. case_match; by repeat split.
Qed.

Lemma verify_target type id c : guar anything G_target (verify type id c).
Proof.
  apply guar_verify; [tc_solve| | |].
  - intros f w. target_side.
  - apply checkUser_target.
  - intros _ _ url w. unfold resolveDb_step.
    destruct (authDb w) eqn:Ha; (split; simpl; [congruence|by left]).
Qed.

Lemma checkUser_keeps_target id c : guar anything keeps_target (checkUser id c).
Proof.
  unfold checkUser. unfold_prims.
  repeat first
    [guar_step ltac:(unfold_ops; repeat case_match; reflexivity) | case_match].
Qed.

Lemma verify_keeps_target type id c :
  ~ (type = "core" /\ id = "auth_core") ->
  guar anything keeps_target (verify type id c).
Proof.
  intros Hnot. apply guar_verify; [tc_solve| | |].
  - done.
  - apply checkUser_keeps_target.
  - intros Ht Hi. apply String.eqb_eq in Ht, Hi. tauto.
Qed.

(** ** Rules with pre- and postconditions *)

Lemma ensures_conts {A} R G Q (r : res A) : ensures R G Q r -> conts R G r.
Proof.
  induction r as [a w|e w|k IH w|k IH w|k IH w]; simpl; try done.
  - intros H w' HR. destruct (H w' HR). split; [done|]. by apply IH.
  - intros H w' HR Hr. destruct (H w' HR Hr). split; [done|]. by apply IH.
  - intros H u w' HR Ha. destruct (H u w' HR Ha). split; [done|]. by apply IH.
Qed.

Lemma conts_impl {A} R (G G' : world -> world -> Prop) (r : res A) :
  (forall w w', G w w' -> G' w w') -> conts R G r -> conts R G' r.
Proof.
  intros HG. induction r as [a w|e w|k IH w|k IH w|k IH w]; simpl; try done.
  - intros H w' HR. destruct (H w' HR). split; [by apply HG|]. by apply IH.
  - intros H w' HR Hr. destruct (H w' HR Hr). split; [by apply HG|]. by apply IH.
  - intros H u w' HR Ha. destruct (H u w' HR Ha).
    split; [by apply HG|]. by apply IH.
Qed.

Section triples.
Variables R G : world -> world -> Prop.
Context `{!PreOrder G}.

Lemma triple_bind {A B} P (m : M A) (f : A -> M B) Q1 Q :
  triple R G P m Q1 ->
  (forall a, triple R G (Q1 (inr a)) (f a) Q) ->
  (forall e w, Q1 (inl e) w -> Q (inl e) w) ->
  triple R G P (bind m f) Q.
Proof.
  intros Hm Hf He w HP. unfold bind. destruct (Hm w HP) as [HG Hens].
  remember (m w) as r eqn:E. clear E HP. revert w HG Hens.
  induction r as [a w1|e w1|k IH w1|k IH w1|k IH w1]; intros w0 HG Hens;
    simpl in *.
  - destruct (Hf a w1 Hens) as [HG' Hens']. split; [by etrans|done].
  - split; [done|by apply He].
  - split; [done|]. intros w' HR. destruct (Hens w' HR). by apply IH.
  - split; [done|]. intros w' HR Hr. destruct (Hens w' HR Hr). by apply IH.
  - split; [done|]. intros u w' HR Ha. destruct (Hens u w' HR Ha).
    by apply IH.
Qed.

Lemma triple_catch {A} P (m : M A) (h : error -> M A) Q1 Q :
  triple R G P m Q1 ->
  (forall e, triple R G (Q1 (inl e)) (h e) Q) ->
  (forall a w, Q1 (inr a) w -> Q (inr a) w) ->
  triple R G P (try_catch m h) Q.
Proof.
  intros Hm Hh Ha w HP. unfold try_catch. destruct (Hm w HP) as [HG Hens].
  remember (m w) as r eqn:E. clear E HP. revert w HG Hens.
  induction r as [a w1|e w1|k IH w1|k IH w1|k IH w1]; intros w0 HG Hens;
    simpl in *.
  - split; [done|by apply Ha].
  - destruct (Hh e w1 Hens) as [HG' Hens']. split; [by etrans|done].
  - split; [done|]. intros w' HR. destruct (Hens w' HR). by apply IH.
  - split; [done|]. intros w' HR Hr. destruct (Hens w' HR Hr). by apply IH.
  - split; [done|]. intros u w' HR Hu. destruct (Hens u w' HR Hu).
    by apply IH.
Qed.

Lemma triple_io {A} P (op : world -> (error + A) * world) Q :
  (forall w, P w ->
     G w (op w).2 /\ forall w', R (op w).2 w' -> Q (op w).1 w') ->
  triple R G P (io op) Q.
Proof.
  intros Hop w HP. unfold io. destruct (Hop w HP) as [HG HQ].
  destruct (op w) as [[e|a] w1]; simpl in *; (split; [done|]);
    intros w' HR; by split; [|apply HQ].
Qed.

Lemma triple_modify P (f : world -> world) (Q : error + unit -> world -> Prop) :
  (forall w, P w -> G w (f w) /\ Q (inr tt) (f w)) ->
  triple R G P (modify f) Q.
Proof. intros Hf w HP. apply Hf, HP. Qed.

Lemma triple_sync {A} P (f : world -> A * world) Q :
  (forall w, P w -> G w (f w).2 /\ Q (inr (f w).1) (f w).2) ->
  triple R G P (sync f) Q.
Proof.
  intros Hf w HP. unfold sync. specialize (Hf w HP).
  by destruct (f w) as [a w'].
Qed.

Lemma triple_get {A} P (f : world -> A) Q :
  (forall w, P w -> Q (inr (f w)) w) -> triple R G P (get f) Q.
Proof. intros Hf w HP. split; [done|]. by apply Hf. Qed.

Lemma triple_ret {A} P (a : A) Q :
  (forall w, P w -> Q (inr a) w) -> triple R G P (ret a) Q.
Proof. intros Hf w HP. split; [done|]. by apply Hf. Qed.

Lemma triple_throw {A} P (e : error) (Q : error + A -> world -> Prop) :
  (forall w, P w -> Q (inl e) w) -> triple R G P (throw e) Q.
Proof. intros Hf w HP. split; [done|]. by apply Hf. Qed.

Lemma ensures_impl {A} (Q Q' : error + A -> world -> Prop) (r : res A) :
  (forall o w, Q o w -> Q' o w) -> ensures R G Q r -> ensures R G Q' r.
Proof.
  intros HQ. induction r as [a w|e w|k IH w|k IH w|k IH w]; simpl; eauto.
  - intros H w' HR. destruct (H w' HR). split; [done|]. by apply IH.
  - intros H w' HR Hr. destruct (H w' HR Hr). split; [done|]. by apply IH.
  - intros H u w' HR Ha. destruct (H u w' HR Ha). split; [done|]. by apply IH.
Qed.

Lemma triple_post {A} P (m : M A) (Q Q' : error + A -> world -> Prop) :
  triple R G P m Q -> (forall o w, Q o w -> Q' o w) -> triple R G P m Q'.
Proof.
  intros Hm HQ w Hw. destruct (Hm w Hw). split; [done|].
  by eapply ensures_impl.
Qed.

Lemma triple_pre {A} (P P' : world -> Prop) (m : M A) Q :
  (forall w, P' w -> P w) -> triple R G P m Q -> triple R G P' m Q.
Proof. intros HP Hm w Hw. apply Hm, HP, Hw. Qed.
End triples.

#[global] Instance G_keys_preorder : PreOrder G_keys.
Proof.
  split; [intros w H; exact H|intros a b c H1 H2 H; exact (H2 (H1 H))].
Qed.

Lemma G_keys_pending w w' : ready w' = Pending -> G_keys w w'.
Proof. intros H _ H'. congruence. Qed.

Lemma knows_stable a b c d w w' :
  knows a b c d w -> keeps_keys w w' -> knows a b c d w'.
Proof.
  intros (Hr & H1 & H2 & H3 & H4) (Hp & Hq & Hrr & Hf).
  unfold knows. rewrite Hp, Hq, Hrr, !Hf by done. done.
Qed.

Lemma knows_weaken a b c d w : knows a b c d w -> knows None None None None w.
Proof. intros (Hr & _). by split_and!. Qed.

Lemma knows_loaded d1 d2 w :
  knows (Some (text_of d1)) (Some (text_of d2)) (Some d1) (Some d2) w ->
  keys_loaded w.
Proof.
  intros (Hr & H1 & H2 & H3 & H4). split; [done|].
  exists (text_of d1), (text_of d2). unfold stored. naive_solver.
Qed.

(** A step that leaves [this.ready], the two fields and the two files. *)
Lemma knows_frame a b c d w w' :
  knows a b c d w ->
  ready w' = ready w -> certPrivate w' = certPrivate w ->
  certPublic w' = certPublic w ->
  files w' !! private_pem = files w !! private_pem ->
  files w' !! public_pem = files w !! public_pem ->
  G_keys w w' /\ forall w'', keeps_keys w' w'' -> knows a b c d w''.
Proof.
  intros Hk Hr Hp Hq Hf1 Hf2.
  assert (knows a b c d w') as Hk'.
  { destruct Hk as (? & ? & ? & ? & ?). unfold knows.
    rewrite Hr, Hp, Hq, Hf1, Hf2. done. }
  split; [apply G_keys_pending, Hk'|]. intros w''. by apply knows_stable.
Qed.

Lemma op_readFile_inr path w d :
  (op_readFile path w).1 = inr d -> files w !! path = Some d.
Proof.
  unfold op_readFile, read_result. simpl. repeat case_match; naive_solver.
Qed.

Section keycheck.
Variables a b : option string.
Variables c d : option file_data.

Lemma fileExists_knows path :
  triple keeps_keys G_keys (knows a b c d) (fileExists path)
    (outcome (fun _ => knows a b c d) (knows None None None None)).
Proof.
  apply triple_io; [tc_solve|]. intros w Hw. unfold op_lstat. simpl.
  destruct (knows_frame a b c d w (emit (EvLstat path) w) Hw) as [HG Hs];
    try done.
  split; [done|]. intros w' HR. specialize (Hs w' HR).
  case_match; simpl; [done|by eapply knows_weaken].
Qed.

Lemma readFile_private_knows :
  triple keeps_keys G_keys (knows a b c d) (readFile private_pem)
    (outcome (fun x => knows a b (Some x) d) (knows None None None None)).
Proof.
  apply triple_io; [tc_solve|]. intros w Hw.
  destruct (knows_frame a b c d w (op_readFile private_pem w).2 Hw)
    as [HG Hs]; try done.
  split; [done|]. intros w' HR. specialize (Hs w' HR).
  destruct (op_readFile private_pem w).1 as [e|x] eqn:Hx; simpl;
    [by eapply knows_weaken|].
  apply op_readFile_inr in Hx.
  destruct Hs as (? & ? & ? & ? & ?). split_and!; try done.
  intros ? [= <-]. destruct HR as (_ & _ & _ & Hf). by rewrite Hf.
Qed.

Lemma readFile_public_knows :
  triple keeps_keys G_keys (knows a b c d) (readFile public_pem)
    (outcome (fun x => knows a b c (Some x)) (knows None None None None)).
Proof.
  apply triple_io; [tc_solve|]. intros w Hw.
  destruct (knows_frame a b c d w (op_readFile public_pem w).2 Hw)
    as [HG Hs]; try done.
  split; [done|]. intros w' HR. specialize (Hs w' HR).
  destruct (op_readFile public_pem w).1 as [e|x] eqn:Hx; simpl;
    [by eapply knows_weaken|].
  apply op_readFile_inr in Hx.
  destruct Hs as (? & ? & ? & ? & ?). split_and!; try done.
  intros ? [= <-]. destruct HR as (_ & _ & _ & Hf). by rewrite Hf.
Qed.

Lemma set_certPrivate_knows s :
  triple keeps_keys G_keys (knows a b c d) (modify (set_certPrivate (Some s)))
    (outcome (fun _ => knows (Some s) b c d) (knows None None None None)).
Proof.
  apply triple_modify. intros w (Hr & H1 & H2 & H3 & H4).
  split; [by apply G_keys_pending|]. simpl. by split_and!.
Qed.

Lemma set_certPublic_knows s :
  triple keeps_keys G_keys (knows a b c d) (modify (set_certPublic (Some s)))
    (outcome (fun _ => knows a (Some s) c d) (knows None None None None)).
Proof.
  apply triple_modify. intros w (Hr & H1 & H2 & H3 & H4).
  split; [by apply G_keys_pending|]. simpl. by split_and!.
Qed.

Lemma generateKeys_knows :
  triple keeps_keys G_keys (knows a b c d) generateKeys
    (outcome (fun _ => knows a b c d) (knows None None None None)).
Proof.
  apply triple_sync. intros w (Hr & H1 & H2 & H3 & H4).
  split; [by apply G_keys_pending|]. simpl. by split_and!.
Qed.

Lemma try_mkdir_knows path :
  triple keeps_keys G_keys (knows a b c d)
    (try_catch (mkdir path) (fun err => ret tt))
    (outcome (fun _ => knows a b c d) (knows None None None None)).
Proof.
  eapply triple_catch with (Q1 := fun _ => knows a b c d); [tc_solve| | |done].
  - apply triple_io; [tc_solve|]. intros w Hw.
    apply knows_frame; [done|unfold op_mkdir; repeat case_match; done..].
  - intros e. apply triple_ret; [tc_solve|]. intros w Hw. exact Hw.
Qed.
End keycheck.

Lemma op_writeFile_cases path data w :
  op_writeFile path data w =
    (inr tt, set_files <[path := data]> (emit (EvWriteFile path data) w)) \/
  exists e, op_writeFile path data w = (inl e, emit (EvWriteFile path data) w).
Proof. unfold op_writeFile. case_match; eauto. Qed.

Section keycheck_writes.
Variables a b : option string.
Variables c d : option file_data.

Lemma writeFile_public_knows s :
  triple keeps_keys G_keys (knows a (Some s) c d)
    (writeFile_field public_pem certPublic)
    (outcome (fun _ => knows a (Some s) c (Some (Raw s))) (fun _ => True)).
Proof.
  unfold writeFile_field.
  eapply triple_bind with
    (Q1 := outcome (fun v w => v = Some s /\ knows a (Some s) c d w) (fun _ => True));
    [tc_solve| | |done].
  - apply triple_get; [tc_solve|]. intros w Hw. split; [|done].
    destruct Hw as (_ & _ & H & _). by apply H.
  - intros v w [Hv Hw]. subst v. revert w Hw. apply triple_io; [tc_solve|].
    intros w Hw. pose proof Hw as (Hr & H1 & H2 & H3 & H4).
    destruct (op_writeFile_cases public_pem (Raw s) w) as [->|[e ->]]; simpl.
    + split; [by apply G_keys_pending|]. intros w' HR.
      eapply knows_stable; [|exact HR]. split_and!; simpl; try done.
      * intros x Hx. rewrite lookup_insert_ne by done. by apply H3.
      * intros ? [= <-]. by rewrite lookup_insert_eq.
    + split; [by apply G_keys_pending|done].
Qed.

Lemma writeFile_private_knows s :
  triple keeps_keys G_keys (knows (Some s) b c d)
    (writeFile_field private_pem certPrivate)
    (outcome (fun _ => knows (Some s) b (Some (Raw s)) d) (fun _ => True)).
Proof.
  unfold writeFile_field.
  eapply triple_bind with
    (Q1 := outcome (fun v w => v = Some s /\ knows (Some s) b c d w) (fun _ => True));
    [tc_solve| | |done].
  - apply triple_get; [tc_solve|]. intros w Hw. split; [|done].
    destruct Hw as (_ & H & _). by apply H.
  - intros v w [Hv Hw]. subst v. revert w Hw. apply triple_io; [tc_solve|].
    intros w Hw. pose proof Hw as (Hr & H1 & H2 & H3 & H4).
    destruct (op_writeFile_cases private_pem (Raw s) w) as [->|[e ->]]; simpl.
    + split; [by apply G_keys_pending|]. intros w' HR.
      eapply knows_stable; [|exact HR]. split_and!; simpl; try done.
      * intros ? [= <-]. by rewrite lookup_insert_eq.
      * intros x Hx. rewrite lookup_insert_ne by done. by apply H4.
    + split; [by apply G_keys_pending|done].
Qed.

Lemma writeFile_gitignore_knows data :
  triple keeps_keys G_keys (knows a b c d) (writeFile gitignore data)
    (outcome (fun _ => knows a b c d) (fun _ => True)).
Proof.
  apply triple_io; [tc_solve|].
  intros w Hw. pose proof Hw as (Hr & H1 & H2 & H3 & H4).
  destruct (op_writeFile_cases gitignore data w) as [->|[e ->]]; simpl.
  - split; [by apply G_keys_pending|]. intros w' HR.
    eapply knows_stable; [|exact HR]. split_and!; simpl; try done.
    + intros x Hx. rewrite lookup_insert_ne by done. by apply H3.
    + intros x Hx. rewrite lookup_insert_ne by done. by apply H4.
  - split; [by apply G_keys_pending|done].
Qed.
End keycheck_writes.

Lemma resolve_ready_loaded :
  triple keeps_keys G_keys keys_loaded resolve_ready (fun _ _ => True).
Proof.
  apply triple_modify. intros w (Hr & priv & pub & H). split; [|done].
  unfold resolve_ready_step. rewrite Hr. intros _ _. by exists priv, pub.
Qed.

Lemma checkRSAKeys_keys :
  triple keeps_keys G_keys (knows None None None None)
    (dropped (checkRSAKeys resolve_ready)) (fun _ _ => True).
Proof.
  unfold dropped, checkRSAKeys.
  eapply triple_catch with (Q1 := fun _ _ => True); [tc_solve| | |done].
  2:{ intros e. apply triple_modify. intros w _. split; [|done].
      intros H Hr. apply H, Hr. }
  eapply triple_bind with
    (Q1 := outcome (fun _ => keys_loaded) (fun _ => True));
    [tc_solve| |intros ?; apply resolve_ready_loaded|done].
  eapply triple_catch with
    (Q1 := outcome (fun _ => keys_loaded) (knows None None None None));
    [tc_solve| | |done].
  - (* the keys are on disk *)
    eapply triple_bind; [tc_solve|apply fileExists_knows| |done].
    intros ?. eapply triple_bind; [tc_solve|apply readFile_private_knows| |done].
    intros priv. eapply triple_bind;
      [tc_solve|apply set_certPrivate_knows| |done].
    intros ?. eapply triple_bind; [tc_solve|apply readFile_public_knows| |done].
    intros pub. eapply triple_post; [apply set_certPublic_knows|].
    intros [e|[]] w; [done|]. apply knows_loaded.
  - (* they are not: make and save them *)
    intros err. simpl.
    eapply triple_bind; [tc_solve|apply generateKeys_knows| |done].
    intros keys. eapply triple_bind;
      [tc_solve|apply set_certPrivate_knows| |done].
    intros ?. eapply triple_bind; [tc_solve|apply set_certPublic_knows| |done].
    intros ?. eapply triple_bind; [tc_solve|apply try_mkdir_knows| |done].
    intros ?. eapply triple_bind; [tc_solve|apply try_mkdir_knows| |done].
    intros ?. eapply triple_bind;
      [tc_solve|apply writeFile_public_knows| |done].
    intros ?. eapply triple_bind;
      [tc_solve|apply writeFile_private_knows| |done].
    intros ?. eapply triple_post; [apply writeFile_gitignore_knows|].
    intros [e|[]] w; [done|]. apply (knows_loaded (Raw _) (Raw _)).
Qed.

(** ** The key check and the target promise *)

Lemma checkRSAKeys_no_target :
  guar anything G_no_target (dropped (checkRSAKeys resolve_ready)).
Proof.
  unfold dropped, checkRSAKeys. unfold_prims.
  repeat first [guar_step no_target_side | case_match].
Qed.

Lemma boot_state w :
  state (boot w) =
    emit (EvLstat private_pem)
      (set_authDb Pending
        (set_ready Pending
          (set_certPublic None (set_certPrivate None (clear_log w))))).
Proof. reflexivity. Qed.

Lemma constructor_conts_no_target w :
  conts anything G_no_target (constructor w).
Proof. unfold constructor. apply checkRSAKeys_no_target. Qed.

Lemma constructor_conts_keys w : conts keeps_keys G_keys (constructor w).
Proof.
  unfold constructor. eapply ensures_conts.
  apply checkRSAKeys_keys. by split_and!.
Qed.

(** ** Invariants of every process *)

Lemma process_keys_inv w acts :
  sys_inv keeps_keys G_keys anything keeps_keys keys_complete
    (exec acts (boot w)).
Proof.
  apply exec_inv with (allowed := fun _ _ _ => True).
  - apply keeps_keys_preorder.
  - apply keeps_keys_preorder.
  - apply anything_preorder.
  - done.
  - done.
  - done.
  - done.
  - intros w1 w2 HG. apply HG.
  - apply keeps_keys_complete.
  - intros type id c w0 _. apply verify_keeps_keys.
  - apply Forall_forall. intros []; done.
  - split_and!.
    + rewrite boot_state. intros H. done.
    + apply constructor_conts_keys.
    + reflexivity.
    + constructor.
Qed.

Lemma process_target_inv w acts :
  sys_inv anything G_target anything G_target connected_to_target
    (exec acts (boot w)).
Proof.
  apply exec_inv with (allowed := fun _ _ _ => True); try done.
  - intros w1 w2 HG. by apply G_target_connected.
  - intros w1 w2 HG. by apply G_target_connected.
  - intros type id c w0 _. apply verify_target.
  - apply Forall_forall. intros []; done.
  - split_and!.
    + rewrite boot_state. intros url. simpl.
      rewrite list_elem_of_singleton. done.
    + eapply conts_impl; [apply G_no_target_target|].
      apply constructor_conts_no_target.
    + done.
    + constructor.
Qed.

Lemma process_no_target_inv w acts :
  Forall (is_verify not_the_target_call) acts ->
  sys_inv anything keeps_target anything keeps_target
    (fun w => authDb w = Pending) (exec acts (boot w)).
Proof.
  intros Hacts. apply exec_inv with (allowed := not_the_target_call); try done.
  - unfold keeps_target. congruence.
  - unfold keeps_target. congruence.
  - intros type id c w0 H. by apply verify_keeps_target.
  - split_and!.
    + by rewrite boot_state.
    + eapply conts_impl; [|apply constructor_conts_no_target].
      by intros w1 w2 [? _].
    + done.
    + constructor.
Qed.


(** ** A call left to run on its own *)

Lemma ending_done {A} (r : res A) a w :
  ending_of r = Ended (inr a) w <-> r = Done a w.
Proof. destruct r; simpl; split; intros H; by simplify_eq. Qed.

Lemma ending_fail {A} (r : res A) e w :
  ending_of r = Ended (inl e) w <-> r = Fail e w.
Proof. destruct r; simpl; split; intros H; by simplify_eq. Qed.

Lemma solo_done {A} (m : M A) w a w' :
  solo m w = Ended (inr a) w' <-> run (m w) = Done a w'.
Proof. apply ending_done. Qed.


Lemma solo_ret {A} (a : A) w : solo (ret a) w = Ended (inr a) w.
Proof. reflexivity. Qed.

Lemma solo_throw {A} e w : solo (@throw A e) w = Ended (inl e) w.
Proof. reflexivity. Qed.

Lemma solo_modify f w : solo (modify f) w = Ended (inr tt) (f w).
Proof. reflexivity. Qed.

Lemma solo_get {A} (f : world -> A) w : solo (get f) w = Ended (inr (f w)) w.
Proof. reflexivity. Qed.

Lemma solo_bind {A B} (m : M A) (f : A -> M B) w :
  solo (bind m f) w =
    match solo m w with
    | Ended (inr a) w' => solo (f a) w'
    | Ended (inl e) w' => Ended (inl e) w'
    | Blocked w' => Blocked w'
    end.
Proof.
  unfold solo, bind. rewrite run_bind_res. by destruct (run (m w)).
Qed.

Lemma run_catch_res {A} (r : res A) (h : error -> M A) :
  run (catch_res r h) =
  match run r with
  | Done a w => Done a w
  | Fail e w => run (h e w)
  | Yield k w => Yield (fun w' => catch_res (k w') h) w
  | AwaitReady k w => AwaitReady (fun w' => catch_res (k w') h) w
  | AwaitAuthDb k w => AwaitAuthDb (fun u w' => catch_res (k u w') h) w
  end.
Proof.
  induction r as [a w|e w|k IH w|k IH w|k IH w]; simpl; try done.
  - destruct (ready w); [done|]. apply IH.
  - destruct (authDb w) as [|u]; [done|]. apply IH.
Qed.

Lemma solo_try_catch {A} (m : M A) (h : error -> M A) w :
  solo (try_catch m h) w =
    match solo m w with
    | Ended (inr a) w' => Ended (inr a) w'
    | Ended (inl e) w' => solo (h e) w'
    | Blocked w' => Blocked w'
    end.
Proof.
  unfold solo, try_catch. rewrite run_catch_res. by destruct (run (m w)).
Qed.

Lemma solo_io {A} (op : world -> (error + A) * world) w :
  solo (io op) w = Ended (op w).1 (op w).2.
Proof. unfold solo, io. simpl. by destruct (op w).1. Qed.

Lemma solo_detached {A} (op : world -> (error + A) * world) w :
  solo (detached op) w =
    Ended (inr tt) match (op w).1 with
                   | inr _ => (op w).2
                   | inl e => set_unhandled e (op w).2
                   end.
Proof. reflexivity. Qed.

Lemma solo_await_ready w :
  solo await_ready w =
    match ready w with Resolved _ => Ended (inr tt) w | Pending => Blocked w end.
Proof. unfold solo. simpl. by destruct (ready w). Qed.

Lemma solo_await_authDb w :
  solo await_authDb w =
    match authDb w with Resolved u => Ended (inr u) w | Pending => Blocked w end.
Proof. unfold solo. simpl. by destruct (authDb w). Qed.

Lemma solo_get_config c w :
  solo (get_config c) w =
    match heap w !! c with
    | Some cfg => Ended (inr cfg) w
    | None => Ended (inl TypeError) w
    end.
Proof. unfold solo, get_config. by destruct (heap w !! c). Qed.

Lemma solo_set_local c key v w :
  solo (set_local c key v) w =
    match heap w !! c with
    | Some cfg =>
        Ended (inr tt) (set_heap
          <[c := {| local := set_prop key v (local cfg);
                    provided := provided cfg |}]> w)
    | None => Ended (inl TypeError) w
    end.
Proof. unfold solo, set_local. by destruct (heap w !! c). Qed.

Lemma solo_JSON_parse d w :
  solo (JSON_parse d) w =
    match d with
    | CredsDoc c => Ended (inr c) w
    | Raw _ => Ended (inl SyntaxError) w
    end.
Proof. by destruct d. Qed.

Lemma solo_fileExists path w :
  solo (fileExists path) w =
    Ended (if bool_decide (path ∈ dom (files w) ∪ dirs w)
           then inr tt else inl (ENOENT path))
          (emit (EvLstat path) w).
Proof. apply solo_io. Qed.

Lemma solo_readFile path w :
  solo (readFile path) w =
    Ended (read_result (files w) (dirs w) (unreadable (env w)) path)
          (emit (EvReadFile path) w).
Proof. apply solo_io. Qed.

Lemma solo_mkdir path w :
  solo (mkdir path) w =
    match mkdir_error (files w) (dirs w) (unwritable (env w)) path with
    | Some e => Ended (inl e) (emit (EvMkdir path) w)
    | None => Ended (inr tt) (set_dirs (union {[path]}) (emit (EvMkdir path) w))
    end.
Proof.
  unfold mkdir. rewrite solo_io. unfold op_mkdir. by case_match.
Qed.

Lemma solo_writeFile path data w :
  solo (writeFile path data) w =
    match write_error (dirs w) (unwritable (env w)) path with
    | Some e => Ended (inl e) (emit (EvWriteFile path data) w)
    | None =>
        Ended (inr tt)
          (set_files <[path := data]> (emit (EvWriteFile path data) w))
    end.
Proof.
  unfold writeFile. rewrite solo_io. unfold op_writeFile. by case_match.
Qed.

Lemma solo_generateKeys w :
  solo generateKeys w =
    Ended (inr (keypair_of (env w) (entropy w)))
          (set_entropy (S (entropy w)) (emit EvGenerateKeys w)).
Proof. reflexivity. Qed.

Lemma solo_uid len w :
  solo (randtoken_uid len) w =
    Ended (inr (uid_of (env w) (entropy w)))
          (set_entropy (S (entropy w)) (emit EvUid w)).
Proof. reflexivity. Qed.

Lemma solo_connect url w :
  solo (mongodb_connect url) w =
    match url with
    | Some u =>
        match mongo w !! u with
        | Some _ => Ended (inr u) (emit (EvConnect url) w)
        | None => Ended (inl (MongoNetworkError url)) (emit (EvConnect url) w)
        end
    | None => Ended (inl (MongoNetworkError url)) (emit (EvConnect url) w)
    end.
Proof.
  unfold mongodb_connect. rewrite solo_io. unfold op_connect. simpl.
  by repeat case_match.
Qed.

Lemma solo_deleteOne db id w :
  solo (io (op_deleteOne db id)) w =
    if delete_fails (env w)
    then Ended (inl (MongoWriteError "deleteOne")) (emit (EvDeleteOne db id) w)
    else Ended (inr tt)
           (set_mongo (alter (delete_first id) db) (emit (EvDeleteOne db id) w)).
Proof.
  rewrite solo_io. unfold op_deleteOne. by destruct (delete_fails (env w)).
Qed.

Lemma solo_insertOne db u w :
  solo (detached (op_insertOne db u)) w =
    Ended (inr tt)
      (if insert_fails (env w)
       then set_unhandled (MongoWriteError "insertOne")
              (emit (EvInsertOne db u) w)
       else set_mongo (alter (fun users => users ++ [u]) db)
              (emit (EvInsertOne db u) w)).
Proof.
  rewrite solo_detached. unfold op_insertOne.
  by destruct (insert_fails (env w)).
Qed.

Lemma solo_hash data w :
  solo (bcrypt_hash_async data) w =
    match bcrypt_hash (env w) data with
    | Some h => Ended (inr h) (emit (EvHash data) w)
    | None => Ended (inl BcryptError) (emit (EvHash data) w)
    end.
Proof.
  unfold bcrypt_hash_async. rewrite solo_io. unfold op_hash. simpl.
  by case_match.
Qed.

Lemma solo_log msg w :
  solo (log_silly msg) w = Ended (inr tt) (emit (EvLog msg) w).
Proof. reflexivity. Qed.

Lemma solo_resolveDb url w :
  solo (resolveDb url) w = Ended (inr tt) (resolveDb_step url w).
Proof. reflexivity. Qed.

(** ** Running the methods symbolically *)

Ltac world_fields :=
  repeat first
    [ progress simpl (env _) | progress simpl (dirs _)
    | progress simpl (files _) | progress simpl (mongo _)
    | progress simpl (entropy _) | progress simpl (certPrivate _)
    | progress simpl (certPublic _) | progress simpl (ready _)
    | progress simpl (authDb _) | progress simpl (heap _) ].

Ltac solo_rewrite :=
  first
    [ rewrite solo_bind | rewrite solo_try_catch | rewrite solo_ret
    | rewrite solo_throw | rewrite solo_modify | rewrite solo_get
    | rewrite solo_await_ready | rewrite solo_await_authDb
    | rewrite solo_get_config | rewrite solo_set_local
    | rewrite solo_JSON_parse | rewrite solo_fileExists
    | rewrite solo_readFile | rewrite solo_mkdir | rewrite solo_writeFile
    | rewrite solo_generateKeys | rewrite solo_uid | rewrite solo_connect
    | rewrite solo_deleteOne | rewrite solo_insertOne | rewrite solo_hash
    | rewrite solo_log | rewrite solo_resolveDb ].

Ltac solo_case :=
  match goal with
  | H : ?x = _ |- context [match ?x with _ => _ end] => rewrite H
  | |- context [match ?x with _ => _ end] =>
      lazymatch x with
      | context [match _ with _ => _ end] => fail
      | context [solo] => fail
      | _ => destruct x eqn:?
      end
  end.

Ltac solo_step :=
  first
    [ solo_rewrite
    | progress cbv beta iota
    | progress world_fields
    | rewrite lookup_insert_eq
    | rewrite lookup_empty
    | solo_case ].

Lemma read_credentials_solo w :
  solo (try_catch
          (let! text := readFile credentials_json in JSON_parse text)
          (fun err => ret ∅)) w =
    Ended (inr (cached w)) (emit (EvReadFile credentials_json) w).
Proof.
  rewrite solo_try_catch, solo_bind, solo_readFile. unfold cached.
  world_fields.
  destruct (read_result _ _ _ _) as [e|[text|doc]]; done.
Qed.

Lemma hand_over_solo c k s w :
  solo (set_local c "userKey" (Some k);; set_local c "userSecret" (Some s)) w =
    hand_over c {| Cache.user_key := k; Cache.user_secret := s |} w.
Proof.
  rewrite solo_bind, solo_set_local. unfold hand_over.
  destruct (heap w !! c) as [cfg|]; [|done]. cbv beta iota.
  rewrite solo_set_local. world_fields. rewrite lookup_insert_eq.
  unfold set_heap, with_credentials. simpl. by rewrite insert_insert_eq.
Qed.

Lemma hand_over_undefined_solo c w :
  solo (set_local c "userKey" None;; set_local c "userSecret" None) w =
    hand_over_undefined c w.
Proof.
  rewrite solo_bind, solo_set_local. unfold hand_over_undefined.
  destruct (heap w !! c) as [cfg|]; [|done]. cbv beta iota.
  rewrite solo_set_local. world_fields. rewrite lookup_insert_eq.
  unfold set_heap, without_credentials. simpl. by rewrite insert_insert_eq.
Qed.

Lemma checkUser_solo id c w :
  solo (checkUser id c) w = checkUser_alone id c w.
Proof.
  unfold checkUser, checkUser_alone.
  rewrite solo_bind, solo_await_authDb.
  destruct (authDb w) as [|url]; [done|]. cbv beta iota.
  rewrite solo_bind, solo_connect.
  destruct url as [u|]; [|done]. simpl (Some u ≫= _).
  destruct (mongo w !! u) as [users|] eqn:Hu; [|done]. simpl (Some users ≫= _).
  cbv beta iota. rewrite solo_bind, read_credentials_solo. cbv beta iota.
  change (cached (emit (EvConnect (Some u)) w)) with (cached w).
  rewrite solo_bind. unfold get_property.
  destruct (cached w !! id) as [entry|] eqn:Hid.
  - rewrite solo_ret. cbv beta iota. simpl (_.1). simpl (_.2).
    rewrite hand_over_solo. by destruct entry.
  - destruct (inherited id) eqn:Hinh.
    { rewrite solo_ret. cbv beta iota. simpl (_.1). simpl (_.2).
      by rewrite hand_over_undefined_solo. }
    rewrite solo_bind, solo_log. cbv beta iota.
    rewrite solo_bind, solo_uid. cbv beta iota.
    rewrite solo_bind, solo_uid. cbv beta iota.
    rewrite solo_bind, solo_deleteOne. world_fields.
    destruct (delete_fails (env w)); [done|]. cbv beta iota.
    rewrite solo_bind, solo_hash. world_fields.
    change (uid_of (env w) (S (entropy w))) with (new_secret w).
    destruct (bcrypt_hash (env w) (new_secret w)) as [hashed|]; [|done].
    cbv beta iota. rewrite solo_bind, solo_uid. cbv beta iota.
    rewrite solo_bind, solo_insertOne. world_fields.
    unfold new_doc, inserted.
    destruct (insert_fails (env w)); cbv beta iota;
      rewrite solo_bind, solo_writeFile; world_fields;
      (destruct (write_error _ _ _); [done|]); cbv beta iota;
      rewrite solo_ret; cbv beta iota; simpl (_.1); simpl (_.2);
      by rewrite hand_over_solo.
Qed.

Lemma verifyKeys_solo type id c w :
  solo (verifyKeys type id c) w = verifyKeys_alone type c w.
Proof.
  unfold verifyKeys, verifyKeys_alone.
  destruct (String.eqb type "api" || String.eqb type "auth"); [|done].
  rewrite solo_bind, solo_get. cbv beta iota.
  rewrite solo_bind, solo_set_local.
  destruct (heap w !! c) as [cfg|]; [|done]. cbv beta iota.
  rewrite solo_bind, solo_get. cbv beta iota. rewrite solo_set_local.
  world_fields. rewrite lookup_insert_eq. unfold set_heap, with_keys. simpl.
  by rewrite insert_insert_eq.
Qed.

Lemma checkUser_start id c :
  exists k, forall w, checkUser id c w = AwaitAuthDb k w.
Proof. eexists. intros w. reflexivity. Qed.

(** [verifyUser] starts [checkUser], resolves the target if the node is
    ['auth_core'], and then is that [checkUser] call. *)
Lemma verifyUser_unfold type id c w :
  verifyUser type id c w =
    if String.eqb type "core" then
      match heap w !! c with
      | Some cfg =>
          if negb (truthy (provided cfg !! "userSecret"))
          then checkUser id c (entering id cfg w)
          else Done tt w
      | None => Fail TypeError w
      end
    else Done tt w.
Proof.
  unfold verifyUser. destruct (String.eqb type "core"); [|done].
  unfold bind at 1. unfold get_config at 1.
  destruct (heap w !! c) as [cfg|] eqn:Hc; [|done]. simpl bind_res.
  destruct (negb _); [|done].
  destruct (checkUser_start id c) as [k Hk]. rewrite !Hk. simpl world_of.
  unfold entering, target_of.
  destruct (String.eqb id "auth_core"); [|done].
  unfold bind, get_config, resolveDb, modify. rewrite Hc. done.
Qed.

Lemma verifyUser_solo type id c w :
  solo (verifyUser type id c) w = verifyUser_alone type id c w.
Proof.
  unfold solo at 1. rewrite verifyUser_unfold. unfold verifyUser_alone.
  destruct (String.eqb type "core"); [|done].
  destruct (heap w !! c) as [cfg|]; [|done].
  destruct (negb _); [|done]. apply checkUser_solo.
Qed.

Lemma verify_solo type id c w :
  solo (verify type id c) w = verify_alone type id c w.
Proof.
  unfold verify, verify_alone. rewrite solo_bind, solo_await_ready.
  destruct (ready w); [done|]. cbv beta iota.
  rewrite solo_bind, verifyKeys_solo.
  destruct (verifyKeys_alone type c w) as [[e|[]] w1|w1]; try done.
  apply verifyUser_solo.
Qed.

Lemma try_mkdir_solo path w :
  solo (try_catch (mkdir path) (fun err => ret tt)) w =
    Ended (inr tt) (made path w).
Proof.
  rewrite solo_try_catch, solo_mkdir. unfold made.
  by destruct (mkdir_error _ _ _ _).
Qed.

Lemma writeFile_then_solo {A} path data (f : unit -> M A) w :
  solo (bind (writeFile path data) f) w =
    match write_error (dirs w) (unwritable (env w)) path with
    | Some e => Ended (inl e) (emit (EvWriteFile path data) w)
    | None =>
        solo (f tt)
          (set_files <[path := data]> (emit (EvWriteFile path data) w))
    end.
Proof.
  rewrite solo_bind, solo_writeFile. by destruct (write_error _ _ _).
Qed.

Lemma load_keys_solo w :
  solo (fileExists private_pem ;;
        let! priv := readFile private_pem in
        modify (set_certPrivate (Some (text_of priv))) ;;
        let! pub := readFile public_pem in
        modify (set_certPublic (Some (text_of pub)))) w =
    load_keys w.
Proof.
  unfold load_keys. rewrite solo_bind, solo_fileExists.
  destruct (bool_decide _); [|done]. cbv beta iota zeta.
  rewrite solo_bind, solo_readFile. world_fields.
  destruct (read_result _ _ _ private_pem) as [e|priv]; [done|].
  cbv beta iota. rewrite solo_bind, solo_modify. cbv beta iota.
  rewrite solo_bind, solo_readFile. world_fields.
  destruct (read_result _ _ _ public_pem) as [e|pub]; [done|].
  cbv beta iota. by rewrite solo_modify.
Qed.

Lemma save_keys_solo w :
  solo (let! keys := generateKeys in
        modify (set_certPrivate (Some (private keys))) ;;
        modify (set_certPublic (Some (public keys))) ;;
        try_catch (mkdir "config") (fun err => ret tt) ;;
        try_catch (mkdir certDir) (fun err => ret tt) ;;
        writeFile_field public_pem certPublic ;;
        writeFile_field private_pem certPrivate ;;
        writeFile gitignore (Raw "*.*")) w =
    save_keys (generated w).
Proof.
  unfold save_keys, generated. rewrite solo_bind, solo_generateKeys.
  cbv beta iota. rewrite solo_bind, solo_modify. cbv beta iota.
  rewrite solo_bind, solo_modify. cbv beta iota.
  rewrite solo_bind, try_mkdir_solo. cbv beta iota.
  rewrite solo_bind, try_mkdir_solo. cbv beta iota zeta.
  unfold writeFile_field.
  rewrite solo_bind, solo_bind, solo_get. cbv beta iota.
  destruct (certPublic _) as [pub|]; [|done].
  unfold written. rewrite solo_writeFile.
  destruct (write_error _ _ public_pem); [done|]. cbv beta iota.
  rewrite solo_bind, solo_bind, solo_get. cbv beta iota.
  destruct (certPrivate _) as [priv|]; [|done].
  rewrite solo_writeFile.
  destruct (write_error _ _ private_pem); [done|]. cbv beta iota.
  rewrite solo_writeFile. by destruct (write_error _ _ gitignore).
Qed.

Lemma checkRSAKeys_solo w :
  solo (checkRSAKeys resolve_ready) w = checkRSAKeys_alone w.
Proof.
  unfold checkRSAKeys, checkRSAKeys_alone.
  rewrite solo_bind, solo_try_catch, load_keys_solo.
  destruct (load_keys w) as [[e|[]] w'|w']; try done.
  rewrite save_keys_solo. by destruct (save_keys _) as [[e'|[]] w''|w''].
Qed.

Lemma constructor_solo w : solo constructor w = constructor_alone w.
Proof.
  unfold constructor, constructor_alone, dropped.
  change (solo (fun w0 => ?m (fresh_instance w0)) w)
    with (solo m (fresh_instance w)).
  rewrite solo_try_catch, checkRSAKeys_solo.
  by destruct (checkRSAKeys_alone _) as [[e|[]] w'|w'].
Qed.

(** ** What a creation leaves alone *)

Lemma read_result_inr fs ds un path d :
  read_result fs ds un path = inr d <-> fs !! path = Some d /\ path ∉ un.
Proof.
  unfold read_result. split.
  - destruct (fs !! path) as [d'|]; [|by case_bool_decide].
    case_bool_decide; [done|]. by intros [= <-].
  - intros [-> H]. by rewrite bool_decide_eq_false_2.
Qed.

Lemma inserted_frame id db hashed w :
  env (inserted id db hashed w) = env w /\
  dirs (inserted id db hashed w) = dirs w /\
  files (inserted id db hashed w) = files w /\
  heap (inserted id db hashed w) = heap w /\
  ready (inserted id db hashed w) = ready w /\
  authDb (inserted id db hashed w) = authDb w /\
  certPrivate (inserted id db hashed w) = certPrivate w /\
  certPublic (inserted id db hashed w) = certPublic w.
Proof. unfold inserted. by destruct (insert_fails (env w)). Qed.

Lemma inserted_mongo id db hashed w :
  mongo (inserted id db hashed w) =
    if insert_fails (env w)
    then alter (delete_first id) db (mongo w)
    else alter (fun users => users ++ [new_user id hashed w]) db
           (alter (delete_first id) db (mongo w)).
Proof. unfold inserted. by destruct (insert_fails (env w)). Qed.


Lemma connected_inv (url : option string) (m : gmap string (list user)) db :
  (url ≫= (fun u => m !! u ≫= (fun _ => Some u))) = Some db ->
  url = Some db /\ is_Some (m !! db).
Proof.
  destruct url as [u|]; [|done]. simpl.
  destruct (m !! u) eqn:Hu; [|done]. simpl. intros [= <-]. eauto.
Qed.

Lemma cached_inv w id e :
  cached w !! id = Some e ->
  exists doc, files w !! credentials_json = Some (CredsDoc doc) /\
    (credentials_json ∉ unreadable (env w)) /\ doc !! id = Some e.
Proof.
  unfold cached.
  destruct (read_result _ _ _ _) as [err|[text|doc]] eqn:Hr; try done.
  apply read_result_inr in Hr as [? ?]. eauto.
Qed.

Lemma cached_hit w doc :
  files w !! credentials_json = Some (CredsDoc doc) ->
  credentials_json ∉ unreadable (env w) -> cached w = doc.
Proof.
  intros Hf Hr. unfold cached.
  by rewrite (proj2 (read_result_inr _ (dirs w) _ _ _) (conj Hf Hr)).
Qed.

Lemma checkUser_done id c w w1 cfg :
  inherited id = false ->
  heap w !! c = Some cfg ->
  run (checkUser id c w) = Done tt w1 ->
  exists url doc e,
    authDb w = Resolved (Some url) /\
    authDb w1 = Resolved (Some url) /\ is_Some (mongo w1 !! url) /\
    ready w1 = ready w /\ env w1 = env w /\
    files w1 !! credentials_json = Some (CredsDoc doc) /\ doc !! id = Some e /\
    heap w1 = <[c := with_credentials e cfg]> (heap w) /\
    (cached w !! id = Some e \/ cached w !! id = None /\ e = new_entry w).
Proof.
  intros Hinh Hc. rewrite <- solo_done, checkUser_solo. unfold checkUser_alone.
  destruct (authDb w) as [|url] eqn:Ha; [done|].
  destruct (_ ≫= _) as [db|] eqn:Hdb; [|done].
  apply connected_inv in Hdb as [-> [users Hm]].
  destruct (cached w !! id) as [e|] eqn:Hid.
  - apply cached_inv in Hid as (doc & Hf & Hr & Hd).
    unfold hand_over, looked_up. simpl (heap _). rewrite Hc.
    intros [= <-]. exists db, doc, e. simpl. rewrite Hm. by eauto 12.
  - rewrite Hinh. destruct (delete_fails (env w)); [done|].
    destruct (bcrypt_hash _ _) as [hashed|]; [|done].
    destruct (write_error _ _ _); [done|].
    destruct (inserted_frame id db hashed w)
      as (He & Hd & Hf & Hh & Hr & Hau & _).
    unfold hand_over. simpl (heap _). rewrite Hh, Hc.
    intros [= <-]. exists db, (<[id := new_entry w]> (cached w)), (new_entry w).
    simpl. rewrite inserted_mongo, He, Hr, Hau, Hh, Ha.
    split_and!; try done.
    + destruct (insert_fails (env w)); rewrite !lookup_alter_eq, Hm;
        by eexists.
    + unfold new_doc. apply lookup_insert_eq.
    + apply lookup_insert_eq.
    + by right.
Qed.

Lemma checkUser_hit id c w cfg doc e url users :
  files w !! credentials_json = Some (CredsDoc doc) ->
  credentials_json ∉ unreadable (env w) ->
  doc !! id = Some e ->
  heap w !! c = Some cfg ->
  authDb w = Resolved (Some url) ->
  mongo w !! url = Some users ->
  run (checkUser id c w) =
    Done tt (set_heap <[c := with_credentials e cfg]>
      (emit (EvReadFile credentials_json) (emit (EvConnect (Some url)) w))).
Proof.
  intros Hf Hr Hd Hc Ha Hm. rewrite <- solo_done, checkUser_solo.
  unfold checkUser_alone. rewrite Ha. simpl (_ ≫= _). rewrite Hm.
  simpl (_ ≫= _). rewrite (cached_hit w doc), Hd by done.
  unfold hand_over, looked_up. simpl (heap _). by rewrite Hc.
Qed.


Lemma entering_resolved id cfg w u :
  authDb w = Resolved u -> entering id cfg w = w.
Proof.
  intros Ha. unfold entering, resolveDb_step. rewrite Ha.
  by destruct (String.eqb id "auth_core").
Qed.

(** A [verify] for a core node without override is its [checkUser]. *)
Lemma verify_core_solo id c w cfg :
  ready w = Resolved tt -> heap w !! c = Some cfg -> no_override cfg ->
  solo (verify "core" id c) w = solo (checkUser id c) (entering id cfg w).
Proof.
  intros Hr Hc Hno. rewrite verify_solo, checkUser_solo.
  unfold verify_alone, verifyKeys_alone, verifyUser_alone. rewrite Hr.
  simpl (String.eqb _ _ || _). cbv iota. simpl (String.eqb _ _). cbv iota.
  rewrite Hc. unfold no_override in Hno. by rewrite Hno.
Qed.





(** ** [verify], step by step *)

Lemma verify_start type id c :
  exists k, forall w, verify type id c w = AwaitReady k w.
Proof. eexists. intros w. reflexivity. Qed.

Lemma verify_resume type id c w w' :
  ready w' = Resolved tt ->
  resume (verify type id c w) w' =
    bind_res (verifyKeys type id c w') (fun _ => verifyUser type id c).
Proof.
  intros Hr. unfold verify, bind at 1, await_ready. simpl bind_res.
  unfold resume. rewrite Hr. reflexivity.
Qed.


Lemma verify_blocked type id c w :
  ready w = Pending -> exists k, run (verify type id c w) = AwaitReady k w.
Proof.
  intros Hr. destruct (verify_start type id c) as [k Hk]. exists k.
  rewrite Hk. simpl. by rewrite Hr.
Qed.

Lemma run_resume {A} (r : res A) : run (resume r (world_of r)) = run r.
Proof.
  destruct r as [a w|e w|k w|k w|k w]; simpl; try done.
  - destruct (ready w) eqn:E; simpl; by rewrite ?E.
  - destruct (authDb w) eqn:E; simpl; by rewrite ?E.
Qed.

Lemma verifyKeys_core id c w : verifyKeys "core" id c w = Done tt w.
Proof. reflexivity. Qed.

(** C10.  When [config.provided.userSecret] is set, a [verify] for a core
    node does nothing at all: it leaves the world as it is when it is
    called, and when it goes on after [this.ready] it ends at once in the
    very world it finds.  So the shared store is not touched, the cache
    file is neither read nor written, the call does not wait for the
    database target, and [config.local] gets no [userKey] or
    [userSecret]. *)
Theorem override_bypasses_credentials id c w w' cfg :
  ready w' = Resolved tt ->
  heap w' !! c = Some cfg ->
  truthy (provided cfg !! "userSecret") = true ->
  world_of (verify "core" id c w) = w /\
  resume (verify "core" id c w) w' = Done tt w'.
Proof.
  intros Hr Hc Ht. split; [reflexivity|].
  rewrite verify_resume by done. rewrite verifyKeys_core. simpl bind_res.
  rewrite verifyUser_unfold. simpl (String.eqb _ _). cbv iota.
  by rewrite Hc, Ht.
Qed.

Lemma override_bypasses_credentials_witness :
  world_of (verify "core" "mail_core" 3 fresh) = fresh /\
  resume (verify "core" "mail_core" 3 fresh) booted = Done tt booted.
Proof.
  apply (override_bypasses_credentials "mail_core" 3 fresh booted
           {| local := ∅; provided := {[ "userSecret" := "by hand" ]} |});
    by vm_compute.
Defined.

(** ** Key material in [config.local] *)

Lemma with_keys_public w cfg :
  local (with_keys w cfg) !! "certPublic" = certPublic w.
Proof.
  unfold with_keys, set_prop. simpl.
  destruct (certPrivate w), (certPublic w);
    rewrite ?lookup_insert_ne, ?lookup_delete_ne by done;
    by rewrite ?lookup_insert_eq, ?lookup_delete_eq.
Qed.

Lemma with_keys_private w cfg :
  local (with_keys w cfg) !! "certPrivate" = certPrivate w.
Proof.
  unfold with_keys, set_prop. simpl.
  destruct (certPrivate w); by rewrite ?lookup_insert_eq, ?lookup_delete_eq.
Qed.

Lemma verify_key_node type id c w cfg :
  key_consuming type -> ready w = Resolved tt -> heap w !! c = Some cfg ->
  run (verify type id c w) = Done tt (set_heap <[c := with_keys w cfg]> w).
Proof.
  intros Hty Hr Hc. rewrite <- solo_done, verify_solo.
  unfold verify_alone, verifyKeys_alone, verifyUser_alone. rewrite Hr.
  destruct Hty as [-> | ->]; simpl (String.eqb _ _ || _); cbv iota;
    rewrite Hc; simpl (String.eqb _ _); done.
Qed.

(** C9.  For nodes of type ['api'] or ['auth'], [verify] copies the
    instance's public and private key into [config.local.certPublic] and
    [config.local.certPrivate]; two such nodes verified one after the
    other end up with the same key material, that of the instance. *)
Theorem key_nodes_share_keys type1 id1 c1 type2 id2 c2 w cfg1 cfg2 :
  key_consuming type1 -> key_consuming type2 ->
  ready w = Resolved tt ->
  heap w !! c1 = Some cfg1 -> heap w !! c2 = Some cfg2 ->
  exists w1 w2 cfg1' cfg2',
    run (verify type1 id1 c1 w) = Done tt w1 /\
    run (verify type2 id2 c2 w1) = Done tt w2 /\
    heap w2 !! c1 = Some cfg1' /\ heap w2 !! c2 = Some cfg2' /\
    local cfg1' !! "certPublic" = certPublic w /\
    local cfg1' !! "certPrivate" = certPrivate w /\
    local cfg2' !! "certPublic" = certPublic w /\
    local cfg2' !! "certPrivate" = certPrivate w.
Proof.
  intros Ht1 Ht2 Hr Hc1 Hc2.
  pose (w1 := set_heap <[c1 := with_keys w cfg1]> w).
  assert (exists cfg, heap w1 !! c2 = Some cfg /\
            (c1 = c2 -> cfg = with_keys w cfg1)) as (cfg & Hc & Heq).
  { simpl. destruct (decide (c1 = c2)) as [->|Hne].
    - rewrite lookup_insert_eq. by eexists.
    - rewrite lookup_insert_ne by done. by exists cfg2. }
  exists w1, (set_heap <[c2 := with_keys w1 cfg]> w1).
  destruct (decide (c1 = c2)) as [->|Hne].
  - exists (with_keys w1 cfg), (with_keys w1 cfg).
    split_and!; try (by apply verify_key_node); simpl;
      rewrite ?lookup_insert_eq; try done;
      first [apply (with_keys_public w1)|apply (with_keys_private w1)].
  - exists (with_keys w cfg1), (with_keys w1 cfg).
    split_and!; try (by apply verify_key_node); simpl;
      rewrite ?lookup_insert_eq, ?lookup_insert_ne by done;
      rewrite ?lookup_insert_eq; try done;
      first [apply (with_keys_public w)|apply (with_keys_private w)
            |apply (with_keys_public w1)|apply (with_keys_private w1)].
Qed.

Lemma key_nodes_share_keys_witness :
  exists w1 w2 cfg1' cfg2',
    run (verify "api" "api_node" 2 booted) = Done tt w1 /\
    run (verify "auth" "auth_node" 1 w1) = Done tt w2 /\
    heap w2 !! 2 = Some cfg1' /\ heap w2 !! 1 = Some cfg2' /\
    local cfg1' !! "certPublic" = certPublic booted /\
    local cfg1' !! "certPrivate" = certPrivate booted /\
    local cfg2' !! "certPublic" = certPublic booted /\
    local cfg2' !! "certPrivate" = certPrivate booted.
Proof.
  apply (key_nodes_share_keys "api" "api_node" 2 "auth" "auth_node" 1 booted
           {| local := ∅; provided := ∅ |} {| local := ∅; provided := ∅ |});
    first [by left|by right|by vm_compute].
Defined.

(** ** One record per user id *)

Lemma records_of_app id l1 l2 :
  records_of id (l1 ++ l2) = records_of id l1 ++ records_of id l2.
Proof. apply filter_app. Qed.

Lemma records_of_delete_first_ne id id' l :
  id <> id' -> records_of id' (delete_first id l) = records_of id' l.
Proof.
  intros Hne. unfold records_of. induction l as [|u l IH]; [done|]. simpl.
  destruct (String.eqb_spec (user_id u) id) as [Heq|Hneq].
  - rewrite filter_cons_False; [done|]. congruence.
  - rewrite !filter_cons. by rewrite IH.
Qed.






(** ** The cache hit *)

(** A cache hit still needs the database.  Where the server cannot be
    reached, [credentials.json] holds the entry of ['auth_core'] and the
    target is resolved, yet [checkUser] ends with the connection error and
    [config.local] gets nothing. *)
Lemma cache_hit_without_database :
  cached (offline served) !! "auth_core" =
    Some {| Cache.user_key := "B-token"; Cache.user_secret := "C-token" |} /\
  authDb (offline served) = Resolved (Some auth_url) /\
  heap (offline served) !! 1 = Some {| local := ∅; provided := ∅ |} /\
  run (checkUser "auth_core" 1 (offline served)) =
    Fail (MongoNetworkError (Some auth_url))
      (emit (EvConnect (Some auth_url)) (offline served)).
Proof. by vm_compute. Qed.

(** C2 (amended).  For a node id present in [credentials.json], once the
    database target is resolved and the connection to it is made,
    [checkUser] ends with the cached pair in [config.local]; it opens the
    connection and reads the cache file and does nothing else: the shared
    store, the files and the token source are as before, and no event is
    issued but the connect and the read (no delete, no insert, no write
    of the cache file). *)
Theorem cache_hit_reads_only id c w cfg e url users :
  cached w !! id = Some e ->
  heap w !! c = Some cfg ->
  authDb w = Resolved (Some url) ->
  mongo w !! url = Some users ->
  exists w1,
    run (checkUser id c w) = Done tt w1 /\
    heap w1 = <[c := with_credentials e cfg]> (heap w) /\
    mongo w1 = mongo w /\ files w1 = files w /\ dirs w1 = dirs w /\
    entropy w1 = entropy w /\ unhandled w1 = unhandled w /\
    trace w1 =
      trace w ++ [EvConnect (Some url); EvReadFile credentials_json].
Proof.
  intros Hid Hc Ha Hm. apply cached_inv in Hid as (doc & Hf & Hr & Hd).
  eexists. split; [by eapply checkUser_hit|].
  simpl. by rewrite <- app_assoc.
Qed.

Lemma cache_hit_reads_only_witness :
  exists w1,
    run (checkUser "auth_core" 1 served) = Done tt w1 /\
    heap w1 =
      <[1 := with_credentials
               {| Cache.user_key := "B-token"; Cache.user_secret := "C-token" |}
               {| local := ∅; provided := ∅ |}]> (heap served) /\
    mongo w1 = mongo served /\ files w1 = files served /\
    dirs w1 = dirs served /\ entropy w1 = entropy served /\
    unhandled w1 = unhandled served /\
    trace w1 =
      trace served ++
        [EvConnect (Some auth_url); EvReadFile credentials_json].
Proof.
  apply (cache_hit_reads_only "auth_core" 1 served _ _ auth_url
           [new_user "auth_core" "$2a$10$nekot-C" booted]);
    by vm_compute.
Defined.



(** ** What a creation leaves behind *)








(** ** The insert that nobody awaits *)

(** C1.  The database refuses every insert.  The [verify] of the auth
    core node then still resolves: [config.local] and [credentials.json]
    get the new key and secret, the users collection stays empty, and the
    refusal is left behind as an unhandled rejection. *)
Theorem insert_failure_not_fatal :
  settled (run (verify "core" "auth_core" 0 (booted_in insert_refused))) =
    Some (inr tt) /\
  (heap (served_in insert_refused) !! 0 ≫= fun cfg => local cfg !! "userKey")
    = Some "B-token" /\
  (heap (served_in insert_refused) !! 0 ≫=
     fun cfg => local cfg !! "userSecret") = Some "C-token" /\
  cached (served_in insert_refused) !! "auth_core" =
    Some {| Cache.user_key := "B-token"; Cache.user_secret := "C-token" |} /\
  mongo (served_in insert_refused) !! auth_url = Some [] /\
  unhandled (served_in insert_refused) = [MongoWriteError "insertOne"].
Proof. by vm_compute. Qed.

(** ** A key check that fails *)

Lemma visited_head {A} (r : res A) : exists l, visited r = world_of r :: l.
Proof. destruct r; simpl; eauto. Qed.

Lemma visited_resume {A} (P : world -> Prop) (r : res A) :
  Forall P (visited r) -> Forall P (visited (resume r (world_of r))).
Proof.
  destruct r as [a w|e w|k w|k w|k w]; simpl; try done.
  - by inversion 1.
  - destruct (ready w) eqn:E; simpl; rewrite ?E; [done|]. by inversion 1.
  - destruct (authDb w) eqn:E; simpl; rewrite ?E; [done|]. by inversion 1.
Qed.

Lemma awaits_ready_unsettled {A} (r : res A) :
  awaits_ready r -> settled r = None.
Proof. by destruct r. Qed.

(** While [this.ready] stays pending in every world the key check passes
    through, no schedule resolves it and every [verify] stays at its
    first line. *)
Lemma pending_forever w acts :
  Forall (fun v => ready v = Pending) (visited (constructor (clear_log w))) ->
  ready (state (exec acts (boot w))) = Pending /\
  Forall awaits_ready (calls (exec acts (boot w))).
Proof.
  intros Hv.
  cut (state (exec acts (boot w)) = world_of (keycheck (exec acts (boot w))) /\
       Forall (fun v => ready v = Pending)
         (visited (keycheck (exec acts (boot w)))) /\
       Forall awaits_ready (calls (exec acts (boot w)))).
  { intros (Hs & Hk & Hc). split; [|done]. rewrite Hs.
    destruct (visited_head (keycheck (exec acts (boot w)))) as [l Hl].
    rewrite Hl in Hk. by inversion Hk. }
  unfold exec. induction acts as [|a acts IH] using rev_ind; [by simpl|].
  rewrite fold_left_app. simpl.
  destruct IH as (Hs & Hk & Hc). set (p := fold_left act acts (boot w)) in *.
  assert (ready (state p) = Pending) as Hr.
  { rewrite Hs. destruct (visited_head (keycheck p)) as [l Hl].
    rewrite Hl in Hk. by inversion Hk. }
  destruct a as [type id c| |i]; simpl.
  - split_and!; try done. apply Forall_app. split; [done|].
    apply Forall_singleton. destruct (verify_start type id c) as [k Hk'].
    by rewrite Hk'.
  - rewrite Hs. split_and!; try done. by apply visited_resume.
  - destruct (calls p !! i) as [r|] eqn:Hi; [|done]. simpl.
    pose proof (Forall_lookup_1 _ _ _ _ Hc Hi) as Hri.
    destruct r as [| | |k w0|]; try done. simpl. rewrite Hr. simpl.
    split_and!; try done. apply Forall_insert; done.
Qed.

(** C7.  The public key file cannot be written.  The key check then
    generates the keys and fails at the first [writeFile]; its rejection
    is unhandled, [this.ready] stays pending, and whatever the loader
    calls and however the event loop goes on, [this.ready] is never
    resolved and no [verify] ever settles: none resolves, and none
    rejects with the error either. *)
Theorem key_write_failure_hangs :
  run (constructor (fresh_in read_only_pem)) =
    Done tt (booted_in read_only_pem) /\
  ready (booted_in read_only_pem) = Pending /\
  unhandled (booted_in read_only_pem) = [EACCES public_pem] /\
  certPublic (booted_in read_only_pem) = Some "A-PUBLIC KEY" /\
  files (booted_in read_only_pem) = ∅ /\
  forall acts,
    ready (state (exec acts (boot (fresh_in read_only_pem)))) = Pending /\
    Forall (fun r => settled r = None)
      (calls (exec acts (boot (fresh_in read_only_pem)))).
Proof.
  do 5 (split; [by vm_compute|]).
  intros acts.
  destruct (pending_forever (fresh_in read_only_pem) acts) as [Hr Hc].
  - vm_compute. repeat constructor.
  - split; [done|]. eapply Forall_impl; [done|].
    intros r. apply awaits_ready_unsettled.
Qed.

(** ** The database target *)

Lemma checkUser_connects id c :
  exists k,
    (forall w, checkUser id c w = AwaitAuthDb k w) /\
    (forall u w, world_of (k u w) = emit (EvConnect u) w).
Proof. eexists. split; [intros w|intros u w]; reflexivity. Qed.

Lemma verify_core_resume id c w w' cfg :
  ready w' = Resolved tt -> heap w' !! c = Some cfg -> no_override cfg ->
  resume (verify "core" id c w) w' = checkUser id c (entering id cfg w').
Proof.
  intros Hr Hc Hno. rewrite verify_resume by done.
  rewrite verifyKeys_core. simpl bind_res. rewrite verifyUser_unfold.
  simpl (String.eqb _ _). cbv iota. rewrite Hc.
  unfold no_override in Hno. by rewrite Hno.
Qed.

Lemma process_target_kept w acts more u :
  authDb (state (exec acts (boot w))) = Resolved u ->
  authDb (state (exec (acts ++ more) (boot w))) = Resolved u.
Proof.
  intros Hu. unfold exec at 1. rewrite fold_left_app.
  change (authDb (state (exec more (exec acts (boot w)))) = Resolved u).
  revert u Hu.
  apply (exec_rel anything G_target anything G_target connected_to_target
           (fun _ _ _ => True)) with
    (T := fun w1 w2 => forall u, authDb w1 = Resolved u -> authDb w2 = Resolved u);
    try done.
  - intros w1 w2 HG. by apply G_target_connected.
  - intros w1 w2 HG. by apply G_target_connected.
  - intros type id c w0 _. apply verify_target.
  - split; [by intros ?|]. intros a b c0 Hab Hbc u0 H. by apply Hbc, Hab.
  - by intros w1 w2 [H _].
  - by intros w1 w2 [H _].
  - apply Forall_forall. intros []; done.
  - apply process_target_inv.
Qed.

(** C8.  The target of the shared database comes from the call for
    ['auth_core'] and from no other: that call resolves [this.authDb]
    with [provided.mongoUrl], or else [local.mongoUrl], of its config, and
    as long as no such call is made the promise stays pending.  Once
    resolved the promise keeps its value whatever happens next.  The
    [checkUser] of any other core node stops at [await this.authDb] and
    stays there while the promise is pending; it goes on by connecting to
    the resolved value, and every connection a process ever makes goes
    to the value the promise holds. *)
Theorem database_target_resolution :
  (forall c w w' cfg,
     ready w' = Resolved tt -> heap w' !! c = Some cfg -> no_override cfg ->
     authDb w' = Pending ->
     authDb (world_of (resume (verify "core" "auth_core" c w) w')) =
       Resolved (or_else (provided cfg !! "mongoUrl")
                         (local cfg !! "mongoUrl"))) /\
  (forall w acts,
     Forall (is_verify not_the_target_call) acts ->
     authDb (state (exec acts (boot w))) = Pending) /\
  (forall w acts more u,
     authDb (state (exec acts (boot w))) = Resolved u ->
     authDb (state (exec (acts ++ more) (boot w))) = Resolved u) /\
  (forall id c w w' cfg,
     id <> "auth_core" ->
     ready w' = Resolved tt -> heap w' !! c = Some cfg -> no_override cfg ->
     exists k,
       resume (verify "core" id c w) w' = AwaitAuthDb k w' /\
       (forall w2, authDb w2 = Pending ->
          resume (AwaitAuthDb k w') w2 = AwaitAuthDb k w2) /\
       (forall u w2, authDb w2 = Resolved u ->
          world_of (resume (AwaitAuthDb k w') w2) = emit (EvConnect u) w2)) /\
  (forall w acts url,
     EvConnect url ∈ trace (state (exec acts (boot w))) ->
     authDb (state (exec acts (boot w))) = Resolved url).
Proof.
  split_and!.
  - intros c w w' cfg Hr Hc Hno Ha.
    rewrite (verify_core_resume _ _ _ _ cfg) by done.
    destruct (checkUser_connects "auth_core" c) as (k & Hk & _).
    rewrite Hk. cbn [world_of]. unfold entering. simpl (String.eqb _ _).
    cbv iota. unfold resolveDb_step. by rewrite Ha.
  - intros w acts Hacts. by destruct (process_no_target_inv w acts Hacts).
  - apply process_target_kept.
  - intros id c w w' cfg Hid Hr Hc Hno.
    destruct (checkUser_connects id c) as (k & Hk & Hconn). exists k.
    rewrite (verify_core_resume _ _ _ _ cfg) by done. unfold entering.
    rewrite (proj2 (String.eqb_neq _ _) Hid), Hk. split_and!; [done| |].
    + intros w2 Hw2. simpl. by rewrite Hw2.
    + intros u w2 Hw2. simpl. rewrite Hw2. apply Hconn.
  - intros w acts. by destruct (process_target_inv w acts).
Qed.

Lemma database_target_resolution_witness :
  let cfg := {| local := ∅; provided := {[ "mongoUrl" := auth_url ]} |} in
  authDb (world_of (resume (verify "core" "auth_core" 0 fresh) booted)) =
    Resolved (or_else (provided cfg !! "mongoUrl") (local cfg !! "mongoUrl")).
Proof.
  intros cfg.
  apply (proj1 database_target_resolution 0 fresh booted cfg); by vm_compute.
Defined.

(** ** The key check, from the first line to the last *)

(** The fields of a world under the setters, and nothing else unfolded. *)
Ltac world_cbn :=
  cbn [env dirs files mongo entropy certPrivate certPublic ready authDb heap
       trace unhandled emit set_files set_dirs set_mongo set_entropy
       set_certPrivate set_certPublic set_ready set_authDb set_heap
       set_unhandled].

Lemma made_frame path w :
  env (made path w) = env w /\ files (made path w) = files w /\
  certPrivate (made path w) = certPrivate w /\
  certPublic (made path w) = certPublic w /\
  ready (made path w) = ready w /\ entropy (made path w) = entropy w /\
  unhandled (made path w) = unhandled w.
Proof. unfold made. by destruct (mkdir_error _ _ _ _). Qed.

Lemma made_dirs path w w' :
  env w' = env w -> files w' = files w -> dirs w' = dirs w ->
  dirs (made path w') = dirs (made path w).
Proof.
  intros He Hf Hd. unfold made. rewrite He, Hf, Hd.
  destruct (mkdir_error _ _ _ _); world_cbn; by rewrite Hd.
Qed.

Lemma keys_writable_ext w w' :
  env w' = env w -> files w' = files w -> dirs w' = dirs w ->
  keys_writable w -> keys_writable w'.
Proof.
  intros He Hf Hd H path Hpath. rewrite He.
  destruct (made_frame "config" w) as (He1 & Hf1 & _).
  destruct (made_frame "config" w') as (He2 & Hf2 & _).
  rewrite (made_dirs certDir (made "config" w) (made "config" w')).
  - by apply H.
  - by rewrite He1, He2.
  - by rewrite Hf1, Hf2.
  - by apply made_dirs.
Qed.

Lemma read_result_unavailable w path :
  unavailable w path <->
  exists e, read_result (files w) (dirs w) (unreadable (env w)) path = inl e.
Proof.
  unfold unavailable, read_result. destruct (files w !! path) as [d|].
  - case_bool_decide; split; try by eauto.
    + by intros [|].
    + by intros [e ?].
  - split; [|by left]. intros _. case_bool_decide; by eexists.
Qed.

Lemma load_keys_frame w :
  env (last_world (load_keys w)) = env w /\
  dirs (last_world (load_keys w)) = dirs w /\
  files (last_world (load_keys w)) = files w /\
  ready (last_world (load_keys w)) = ready w /\
  entropy (last_world (load_keys w)) = entropy w /\
  unhandled (last_world (load_keys w)) = unhandled w.
Proof.
  unfold load_keys. case_bool_decide; [|done].
  destruct (read_result _ _ _ private_pem); [done|].
  by destruct (read_result _ _ _ public_pem).
Qed.

Lemma load_keys_unavailable w :
  unavailable w private_pem \/ unavailable w public_pem ->
  exists e w', load_keys w = Ended (inl e) w'.
Proof.
  rewrite !read_result_unavailable. unfold load_keys. intros H.
  case_bool_decide; [|by eauto].
  destruct (read_result _ _ _ private_pem) as [e|priv]; [by eauto|].
  destruct H as [[e H]|[e H]]; [done|]. rewrite H. by eauto.
Qed.

Lemma load_keys_available w priv pub :
  files w !! private_pem = Some priv -> private_pem ∉ unreadable (env w) ->
  files w !! public_pem = Some pub -> public_pem ∉ unreadable (env w) ->
  exists w', load_keys w = Ended (inr tt) w' /\
    certPrivate w' = Some (text_of priv) /\
    certPublic w' = Some (text_of pub) /\
    files w' = files w /\ ready w' = ready w /\
    trace w' =
      trace w ++ [EvLstat private_pem; EvReadFile private_pem;
                  EvReadFile public_pem].
Proof.
  intros Hf1 Hr1 Hf2 Hr2. unfold load_keys.
  rewrite bool_decide_eq_true_2
    by (apply elem_of_union; left; apply elem_of_dom; by eexists).
  rewrite (proj2 (read_result_inr _ (dirs w) _ _ _) (conj Hf1 Hr1)).
  rewrite (proj2 (read_result_inr _ (dirs w) _ _ _) (conj Hf2 Hr2)).
  eexists. split; [done|]. simpl. by rewrite <- !app_assoc.
Qed.

Lemma save_keys_result wg pub priv :
  certPublic wg = Some pub -> certPrivate wg = Some priv ->
  exists o w1,
    save_keys wg = Ended o w1 /\
    certPublic w1 = Some pub /\ certPrivate w1 = Some priv /\
    ready w1 = ready wg /\
    (forall u, o = inr u ->
       files w1 !! public_pem = Some (Raw pub) /\
       files w1 !! private_pem = Some (Raw priv) /\
       files w1 !! gitignore = Some (Raw "*.*")) /\
    (keys_writable wg -> o = inr tt).
Proof.
  intros Hpub Hpriv. unfold save_keys, keys_writable.
  destruct (made_frame "config" wg) as (He1 & _ & Hpr1 & Hpu1 & Hr1 & _).
  destruct (made_frame certDir (made "config" wg))
    as (He2 & _ & Hpr2 & Hpu2 & Hr2 & _).
  set (w3 := made certDir (made "config" wg)) in *.
  cbv zeta. unfold written. world_cbn.
  rewrite He2, He1, Hpu2, Hpu1, Hpub, Hpr2, Hpr1, Hpriv.
  assert (forall path : string,
            path ∈ [public_pem; private_pem; gitignore] <->
            path = public_pem \/ path = private_pem \/ path = gitignore)
    as Hin.
  { intros path. rewrite !elem_of_cons, elem_of_nil. tauto. }
  destruct (write_error _ _ public_pem) eqn:E1.
  { do 2 eexists. split; [done|]. world_cbn.
    rewrite Hpu2, Hpu1, Hpr2, Hpr1, Hr2, Hr1.
    split_and!; try done. intros H. rewrite H in E1; [done|].
    apply Hin. tauto. }
  destruct (write_error _ _ private_pem) eqn:E2.
  { do 2 eexists. split; [done|]. world_cbn.
    rewrite Hpu2, Hpu1, Hpr2, Hpr1, Hr2, Hr1.
    split_and!; try done. intros H. rewrite H in E2; [done|].
    apply Hin. tauto. }
  destruct (write_error _ _ gitignore) eqn:E3.
  { do 2 eexists. split; [done|]. world_cbn.
    rewrite Hpu2, Hpu1, Hpr2, Hpr1, Hr2, Hr1.
    split_and!; try done. intros H. rewrite H in E3; [done|].
    apply Hin. tauto. }
  do 2 eexists. split; [done|]. world_cbn.
  rewrite Hpu2, Hpu1, Hpr2, Hpr1, Hr2, Hr1.
  split_and!; try done. intros _ _.
  rewrite lookup_insert_ne, lookup_insert_ne, lookup_insert_eq by done.
  rewrite lookup_insert_ne, lookup_insert_eq by done.
  by rewrite lookup_insert_eq.
Qed.

Lemma process_keys_complete w acts : keys_complete (state (exec acts (boot w))).
Proof. by destruct (process_keys_inv w acts). Qed.

(** C6.  When the constructor's key check finds one of the two PEM files
    missing or unreadable, it generates a fresh keypair and holds it in
    memory; if it resolves [this.ready], the two PEM files hold that pair
    and [.gitignore] is written, and it does resolve [this.ready] when
    the three files can be written.  When both files can be read, the
    keys are loaded from them and [this.ready] is resolved.  And in every
    process, at every moment: if [this.ready] is resolved, both keys are
    in memory and on disk, so no caller that got past [await this.ready]
    sees half a keypair. *)
Theorem key_check_completes_before_ready :
  (forall w,
     unavailable w private_pem \/ unavailable w public_pem ->
     exists w1,
       run (constructor w) = Done tt w1 /\
       certPrivate w1 = Some (private (keypair_of (env w) (entropy w))) /\
       certPublic w1 = Some (public (keypair_of (env w) (entropy w))) /\
       (ready w1 = Resolved tt ->
          files w1 !! public_pem =
            Some (Raw (public (keypair_of (env w) (entropy w)))) /\
          files w1 !! private_pem =
            Some (Raw (private (keypair_of (env w) (entropy w)))) /\
          files w1 !! gitignore = Some (Raw "*.*")) /\
       (keys_writable w -> ready w1 = Resolved tt)) /\
  (forall w priv pub,
     files w !! private_pem = Some priv -> private_pem ∉ unreadable (env w) ->
     files w !! public_pem = Some pub -> public_pem ∉ unreadable (env w) ->
     exists w1,
       run (constructor w) = Done tt w1 /\
       certPrivate w1 = Some (text_of priv) /\
       certPublic w1 = Some (text_of pub) /\
       ready w1 = Resolved tt /\ files w1 = files w) /\
  (forall w acts,
     ready (state (exec acts (boot w))) = Resolved tt ->
     exists priv pub,
       certPrivate (state (exec acts (boot w))) = Some priv /\
       certPublic (state (exec acts (boot w))) = Some pub /\
       stored (state (exec acts (boot w))) private_pem priv /\
       stored (state (exec acts (boot w))) public_pem pub).
Proof.
  split_and!.
  - intros w Hun.
    assert (unavailable (fresh_instance w) private_pem \/
            unavailable (fresh_instance w) public_pem) as Hun' by done.
    destruct (load_keys_unavailable _ Hun') as (e & w' & Hload).
    pose proof (load_keys_frame (fresh_instance w)) as Hfr.
    rewrite Hload in Hfr. cbn [last_world] in Hfr.
    destruct Hfr as (He & Hd & Hf & Hr & Hen & Hu).
    change (env w' = env w) in He. change (dirs w' = dirs w) in Hd.
    change (files w' = files w) in Hf. change (ready w' = Pending) in Hr.
    change (entropy w' = entropy w) in Hen.
    destruct (save_keys_result (generated w')
                (public (keypair_of (env w) (entropy w)))
                (private (keypair_of (env w) (entropy w))))
      as (o & w1 & Hsave & Hpu & Hpr & Hr1 & Hfiles & Hok).
    { unfold generated. world_cbn. by rewrite He, Hen. }
    { unfold generated. world_cbn. by rewrite He, Hen. }
    assert (keys_writable w -> keys_writable (generated w')) as Hkw.
    { by apply keys_writable_ext. }
    assert (ready (generated w') = Pending) as Hrg.
    { unfold generated. world_cbn. by rewrite Hr. }
    pose proof (constructor_solo w) as Hsolo.
    unfold constructor_alone, checkRSAKeys_alone in Hsolo.
    rewrite Hload, Hsave in Hsolo. destruct o as [e'|[]].
    + apply solo_done in Hsolo. eexists. split; [exact Hsolo|].
      world_cbn. rewrite Hr1, Hrg. split_and!; try done.
      intros H. by specialize (Hok (Hkw H)).
    + apply solo_done in Hsolo. eexists. split; [exact Hsolo|].
      unfold resolve_ready_step. rewrite Hr1, Hrg. world_cbn.
      split_and!; try done. intros _. by apply (Hfiles tt).
  - intros w priv pub Hf1 Hr1 Hf2 Hr2.
    destruct (load_keys_available (fresh_instance w) priv pub)
      as (w' & Hload & Hpr & Hpu & Hf & Hr & _); try done.
    pose proof (constructor_solo w) as Hsolo.
    unfold constructor_alone, checkRSAKeys_alone in Hsolo.
    rewrite Hload in Hsolo. apply solo_done in Hsolo.
    change (ready w' = Pending) in Hr. change (files w' = files w) in Hf.
    eexists. split; [exact Hsolo|]. unfold resolve_ready_step.
    rewrite Hr. world_cbn. by rewrite Hf.
  - intros w acts. apply process_keys_complete.
Qed.

Lemma key_check_completes_before_ready_witness :
  exists w1,
    run (constructor fresh) = Done tt w1 /\
    certPrivate w1 = Some (private (keypair_of (env fresh) (entropy fresh))) /\
    certPublic w1 = Some (public (keypair_of (env fresh) (entropy fresh))) /\
    (ready w1 = Resolved tt ->
       files w1 !! public_pem =
         Some (Raw (public (keypair_of (env fresh) (entropy fresh)))) /\
       files w1 !! private_pem =
         Some (Raw (private (keypair_of (env fresh) (entropy fresh)))) /\
       files w1 !! gitignore = Some (Raw "*.*")) /\
    (keys_writable fresh -> ready w1 = Resolved tt).
Proof.
  apply (proj1 key_check_completes_before_ready fresh). left. by left.
Defined.

(** ** One record per id *)

#[global] Instance same_store_preorder : PreOrder same_store.
Proof. split; unfold same_store; [done|congruence]. Qed.


(** A [checkUser] that ends well either found the id in the cache and
    left the store alone, or went through a creation. *)
Lemma checkUser_done_store id c w w1 :
  run (checkUser id c w) = Done tt w1 ->
  env w1 = env w /\ authDb w1 = authDb w /\
  exists db users,
    authDb w = Resolved (Some db) /\ mongo w !! db = Some users /\
    ((is_Some (cached w !! id) \/ inherited id = true) /\
     mongo w1 = mongo w /\ cached w1 = cached w \/
     cached w !! id = None /\ inherited id = false /\
     files w1 !! credentials_json = Some (new_doc id w) /\
     exists hashed, mongo w1 = mongo (inserted id db hashed w)).
Proof.
  rewrite <- solo_done, checkUser_solo. unfold checkUser_alone.
  destruct (authDb w) as [|url] eqn:Ha; [done|].
  destruct (_ ≫= _) as [db|] eqn:Hdb; [|done].
  apply connected_inv in Hdb as [-> [users Hm]].
  destruct (cached w !! id) as [e|] eqn:Hid;
    [|destruct (inherited id) eqn:Hinh].
  - unfold hand_over, looked_up. world_cbn.
    destruct (heap w !! c); [|done]. intros [= <-]. world_cbn.
    split_and!; try done. exists db, users. split_and!; try done.
    left. split_and!; by eauto.
  - unfold hand_over_undefined, looked_up. world_cbn.
    destruct (heap w !! c); [|done]. intros [= <-]. world_cbn.
    split_and!; try done. exists db, users. split_and!; try done.
    left. split_and!; by eauto.
  - destruct (delete_fails (env w)); [done|].
    destruct (bcrypt_hash _ _) as [hashed|]; [|done].
    destruct (write_error _ _ _); [done|].
    destruct (inserted_frame id db hashed w)
      as (He & Hd & Hf & Hh & Hr & Hau & _).
    unfold hand_over. world_cbn. rewrite Hh.
    destruct (heap w !! c); [|done]. intros [= <-]. world_cbn.
    rewrite He, Hau, Ha. split_and!; try done. exists db, users.
    split_and!; try done. right. split_and!; try done.
    + apply lookup_insert_eq.
    + by exists hashed.
Qed.



Lemma settled_done {A} (r : res A) a :
  settled r = Some (inr a) -> r = Done a (world_of r).
Proof. destruct r; simpl; intros [=]; by subst. Qed.

(** *** Calls that interleave *)

#[global] Instance keeps_records_preorder X : PreOrder (keeps_records X).
Proof.
  split; [done|]. intros a b c Hab Hbc url. by rewrite Hbc, Hab.
Qed.

Lemma keeps_records_same X w w' : mongo w' = mongo w -> keeps_records X w w'.
Proof. intros Hm url. by rewrite Hm. Qed.

Lemma keeps_records_delete X id db w w' :
  id <> X -> mongo w' = alter (delete_first id) db (mongo w) ->
  keeps_records X w w'.
Proof.
  intros Hne Hm url. rewrite Hm. destruct (decide (db = url)) as [->|Hdb].
  - rewrite lookup_alter_eq. destruct (mongo w !! url) as [l|]; [|done].
    simpl. by rewrite records_of_delete_first_ne.
  - by rewrite lookup_alter_ne.
Qed.

Lemma keeps_records_insert X db u w w' :
  user_id u <> X -> mongo w' = alter (fun users => users ++ [u]) db (mongo w) ->
  keeps_records X w w'.
Proof.
  intros Hne Hm url. rewrite Hm. destruct (decide (db = url)) as [->|Hdb].
  - rewrite lookup_alter_eq. destruct (mongo w !! url) as [l|]; [|done].
    simpl. rewrite records_of_app. unfold records_of at 2.
    rewrite filter_cons_False by done. by rewrite filter_nil, app_nil_r.
  - by rewrite lookup_alter_ne.
Qed.

Ltac records_side :=
  unfold_ops; repeat case_match; simpl;
  first
    [ by apply keeps_records_same
    | eapply keeps_records_delete; [|reflexivity]; done
    | eapply keeps_records_insert; [|reflexivity]; simpl; done ].

Lemma checkUser_keeps_records X id c :
  id <> X -> guar anything (keeps_records X) (checkUser id c).
Proof.
  intros Hne. unfold checkUser. unfold_prims.
  repeat first [guar_step records_side | case_match].
Qed.

Lemma verify_keeps_records X type id c :
  id <> X -> guar anything (keeps_records X) (verify type id c).
Proof.
  intros Hne. apply guar_verify; [tc_solve| | |].
  - intros f w. by apply keeps_records_same.
  - by apply checkUser_keeps_records.
  - intros _ _ url w. apply keeps_records_same. unfold resolveDb_step.
    by case_match.
Qed.

Lemma checkRSAKeys_keeps_store :
  guar anything same_store (dropped (checkRSAKeys resolve_ready)).
Proof.
  unfold dropped, checkRSAKeys. unfold_prims.
  repeat first
    [guar_step ltac:(unfold_ops; repeat case_match; reflexivity) | case_match].
Qed.

#[global] Instance R_own_preorder X : PreOrder (R_own X).
Proof.
  split.
  - intros w. by split.
  - intros a b c [H1 H2] [H3 H4]. split; [by etrans|auto].
Qed.

#[global] Instance G_own_preorder X : PreOrder (G_own X).
Proof.
  split.
  - intros w. by split.
  - intros a b c [H1 H2] [H3 H4]. split; [|by auto].
    intros Y HY. etrans; eauto.
Qed.





Section own.
Variable X : string.
Variable S : world -> Prop.
Hypothesis S_same : forall w w', mongo w' = mongo w -> S w -> S w'.
Hypothesis S_stable : forall w w', S w -> R_own X w w' -> S w'.









End own.

























(** * Further properties of the class *)

(** ** [verify] for the other node types *)

(** X1.  For a node that is neither ['api'], ['auth'] nor ['core'],
    [verify] only waits for [this.ready]: it then ends at once and leaves
    the world exactly as it is, whatever [config] is. *)
Theorem verify_other_type type id c w :
  type <> "api" -> type <> "auth" -> type <> "core" ->
  ready w = Resolved tt ->
  run (verify type id c w) = Done tt w.
Proof.
  intros Hapi Hauth Hcore Hr. rewrite <- solo_done, verify_solo.
  unfold verify_alone, verifyKeys_alone, verifyUser_alone. rewrite Hr.
  by rewrite (proj2 (String.eqb_neq _ _) Hapi),
    (proj2 (String.eqb_neq _ _) Hauth), (proj2 (String.eqb_neq _ _) Hcore).
Qed.

Lemma verify_other_type_witness :
  run (verify "view" "blog_view" 7 booted) = Done tt booted.
Proof. apply verify_other_type; by vm_compute. Defined.

(** ** The constructor's key check *)

Lemma load_keys_all w :
  exists o w', load_keys w = Ended o w' /\
    ready w' = ready w /\ unhandled w' = unhandled w /\ heap w' = heap w /\
    mongo w' = mongo w /\ authDb w' = authDb w.
Proof.
  unfold load_keys. case_bool_decide; [|by do 2 eexists].
  destruct (read_result _ _ _ private_pem); [by do 2 eexists|].
  destruct (read_result _ _ _ public_pem); by do 2 eexists.
Qed.

Lemma made_rest path w :
  ready (made path w) = ready w /\ unhandled (made path w) = unhandled w /\
  heap (made path w) = heap w /\ mongo (made path w) = mongo w /\
  authDb (made path w) = authDb w /\ env (made path w) = env w /\
  entropy (made path w) = entropy w.
Proof. unfold made. by destruct (mkdir_error _ _ _ _). Qed.

Lemma save_keys_all wg :
  exists o w1, save_keys wg = Ended o w1 /\
    ready w1 = ready wg /\ unhandled w1 = unhandled wg /\ heap w1 = heap wg /\
    mongo w1 = mongo wg /\ authDb w1 = authDb wg /\ env w1 = env wg /\
    entropy w1 = entropy wg.
Proof.
  unfold save_keys.
  destruct (made_rest certDir (made "config" wg))
    as (Hr2 & Hu2 & Hh2 & Hm2 & Ha2 & He2 & Hn2).
  destruct (made_rest "config" wg) as (Hr1 & Hu1 & Hh1 & Hm1 & Ha1 & He1 & Hn1).
  rewrite Hr1 in Hr2. rewrite Hu1 in Hu2. rewrite Hh1 in Hh2.
  rewrite Hm1 in Hm2. rewrite Ha1 in Ha2. rewrite He1 in He2.
  rewrite Hn1 in Hn2.
  set (w3 := made certDir (made "config" wg)) in *.
  cbv zeta. unfold written. world_cbn.
  destruct (certPublic w3); [|by do 2 eexists].
  destruct (write_error _ _ public_pem); [by do 2 eexists|].
  destruct (certPrivate w3); [|by do 2 eexists].
  destruct (write_error _ _ private_pem); [by do 2 eexists|].
  destruct (write_error _ _ gitignore); by do 2 eexists.
Qed.

Lemma constructor_frame w :
  exists w1,
    run (constructor w) = Done tt w1 /\
    (ready w1 = Resolved tt /\ unhandled w1 = unhandled w \/
     ready w1 = Pending /\ exists e, unhandled w1 = unhandled w ++ [e]) /\
    mongo w1 = mongo w /\ heap w1 = heap w /\ authDb w1 = Pending.
Proof.
  cut (exists w1,
         constructor_alone w = Ended (inr tt) w1 /\
         (ready w1 = Resolved tt /\ unhandled w1 = unhandled w \/
          ready w1 = Pending /\ exists e, unhandled w1 = unhandled w ++ [e]) /\
         mongo w1 = mongo w /\ heap w1 = heap w /\ authDb w1 = Pending).
  { intros (w1 & H & ?). exists w1. split; [|done].
    by rewrite <- solo_done, constructor_solo. }
  unfold constructor_alone, checkRSAKeys_alone.
  destruct (load_keys_all (fresh_instance w)) as (o & w' & Hload & Hfr).
  destruct Hfr as (Hr & Hu & Hh & Hm & Ha).
  change (ready w' = Pending) in Hr. change (unhandled w' = unhandled w) in Hu.
  change (heap w' = heap w) in Hh. change (mongo w' = mongo w) in Hm.
  change (authDb w' = Pending) in Ha.
  rewrite Hload. destruct o as [e|[]].
  - destruct (save_keys_all (generated w')) as (o1 & w1 & Hsave & Hfr1).
    destruct Hfr1 as (Hr1 & Hu1 & Hh1 & Hm1 & Ha1 & _).
    change (ready w1 = ready w') in Hr1.
    change (unhandled w1 = unhandled w') in Hu1.
    change (heap w1 = heap w') in Hh1. change (mongo w1 = mongo w') in Hm1.
    change (authDb w1 = authDb w') in Ha1.
    rewrite Hsave. destruct o1 as [e1|[]].
    + eexists. split; [done|]. world_cbn.
      rewrite Hr1, Hr, Hu1, Hu, Hm1, Hm, Hh1, Hh, Ha1, Ha.
      split_and!; try done. right. split; [done|]. by eexists.
    + eexists. split; [done|]. unfold resolve_ready_step.
      rewrite Hr1, Hr. world_cbn.
      rewrite Hu1, Hu, Hm1, Hm, Hh1, Hh, Ha1, Ha. split_and!; try done.
      by left.
  - eexists. split; [done|]. unfold resolve_ready_step. rewrite Hr. world_cbn.
    rewrite Hu, Hm, Hh, Ha. split_and!; try done. by left.
Qed.

(** X2.  [new Auth()] never throws and its key check always comes to an
    end.  It ends either with [this.ready] resolved and no new unhandled
    rejection, or with [this.ready] pending and exactly one new unhandled
    rejection; it touches neither the database nor any [config]. *)
Theorem constructor_always_ends w :
  exists w1,
    run (constructor w) = Done tt w1 /\
    (ready w1 = Resolved tt /\ unhandled w1 = unhandled w \/
     ready w1 = Pending /\ exists e, unhandled w1 = unhandled w ++ [e]) /\
    mongo w1 = mongo w /\ heap w1 = heap w /\ authDb w1 = Pending.
Proof. apply constructor_frame. Qed.

(** What a key check that finds no usable pair comes to. *)
Lemma constructor_generates w :
  unavailable w private_pem \/ unavailable w public_pem ->
  exists w1,
    run (constructor w) = Done tt w1 /\
    env w1 = env w /\ entropy w1 = S (entropy w) /\
    certPrivate w1 = Some (private (keypair_of (env w) (entropy w))) /\
    certPublic w1 = Some (public (keypair_of (env w) (entropy w))) /\
    (ready w1 = Resolved tt ->
       files w1 !! public_pem =
         Some (Raw (public (keypair_of (env w) (entropy w)))) /\
       files w1 !! private_pem =
         Some (Raw (private (keypair_of (env w) (entropy w))))) /\
    (keys_writable w -> ready w1 = Resolved tt).
Proof.
  intros Hun.
  assert (unavailable (fresh_instance w) private_pem \/
          unavailable (fresh_instance w) public_pem) as Hun' by done.
  destruct (load_keys_unavailable _ Hun') as (e & w' & Hload).
  pose proof (load_keys_frame (fresh_instance w)) as Hfr.
  rewrite Hload in Hfr. cbn [last_world] in Hfr.
  destruct Hfr as (He & Hd & Hf & Hr & Hen & Hu).
  change (env w' = env w) in He. change (dirs w' = dirs w) in Hd.
  change (files w' = files w) in Hf. change (ready w' = Pending) in Hr.
  change (entropy w' = entropy w) in Hen.
  destruct (save_keys_result (generated w')
              (public (keypair_of (env w) (entropy w)))
              (private (keypair_of (env w) (entropy w))))
    as (o & w1 & Hsave & Hpu & Hpr & Hr1 & Hfiles & Hok).
  { unfold generated. world_cbn. by rewrite He, Hen. }
  { unfold generated. world_cbn. by rewrite He, Hen. }
  destruct (save_keys_all (generated w'))
    as (o' & w1' & Hsave' & _ & _ & _ & _ & _ & He1 & Hn1).
  rewrite Hsave in Hsave'. injection Hsave' as <- <-.
  change (env w1 = env w') in He1. change (entropy w1 = S (entropy w')) in Hn1.
  assert (keys_writable w -> keys_writable (generated w')) as Hkw.
  { by apply keys_writable_ext. }
  assert (ready (generated w') = Pending) as Hrg.
  { unfold generated. world_cbn. by rewrite Hr. }
  cut (exists w2, constructor_alone w = Ended (inr tt) w2 /\
         env w2 = env w1 /\ entropy w2 = entropy w1 /\
         certPrivate w2 = certPrivate w1 /\ certPublic w2 = certPublic w1 /\
         files w2 = files w1 /\
         (ready w2 = Resolved tt <-> exists u, o = inr u)).
  { intros (w2 & Hc & He2 & Hn2 & Hpr2 & Hpu2 & Hf2 & Hr2). exists w2.
    rewrite <- solo_done, constructor_solo.
    rewrite He2, Hn2, Hpr2, Hpu2, Hf2, He1, Hn1, He, Hen.
    split_and!; try done.
    - intros H. apply Hr2 in H as [u ->]. by destruct (Hfiles u) as (? & ? & _).
    - intros H. apply Hr2. rewrite (Hok (Hkw H)). by eexists. }
  unfold constructor_alone, checkRSAKeys_alone. rewrite Hload, Hsave.
  destruct o as [e'|[]].
  - eexists. split; [done|]. world_cbn. rewrite Hr1, Hrg.
    split_and!; try done. split; [done|]. by intros [? ?].
  - eexists. split; [done|]. unfold resolve_ready_step. rewrite Hr1, Hrg.
    world_cbn. split_and!; try done. split; [by eexists|done].
Qed.

(** What a key check that finds both files comes to. *)
Lemma constructor_loads w priv pub :
  files w !! private_pem = Some priv -> private_pem ∉ unreadable (env w) ->
  files w !! public_pem = Some pub -> public_pem ∉ unreadable (env w) ->
  exists w1,
    run (constructor w) = Done tt w1 /\
    certPrivate w1 = Some (text_of priv) /\
    certPublic w1 = Some (text_of pub) /\
    ready w1 = Resolved tt /\ files w1 = files w /\ dirs w1 = dirs w /\
    entropy w1 = entropy w /\ env w1 = env w /\
    trace w1 =
      trace w ++ [EvLstat private_pem; EvReadFile private_pem;
                  EvReadFile public_pem].
Proof.
  intros Hf1 Hr1 Hf2 Hr2.
  destruct (load_keys_available (fresh_instance w) priv pub)
    as (w' & Hload & Hpr & Hpu & Hf & Hr & Ht); try done.
  pose proof (load_keys_frame (fresh_instance w)) as Hfr.
  rewrite Hload in Hfr. cbn [last_world] in Hfr.
  destruct Hfr as (He & Hd & _ & _ & Hen & _).
  change (env w' = env w) in He. change (dirs w' = dirs w) in Hd.
  change (entropy w' = entropy w) in Hen.
  change (ready w' = Pending) in Hr. change (files w' = files w) in Hf.
  change (trace w' = trace w ++ [EvLstat private_pem; EvReadFile private_pem;
                                 EvReadFile public_pem]) in Ht.
  eexists. split.
  { rewrite <- solo_done, constructor_solo.
    unfold constructor_alone, checkRSAKeys_alone. by rewrite Hload. }
  unfold resolve_ready_step. rewrite Hr. world_cbn.
  by rewrite Hf, Hd, Hen, He, Ht.
Qed.

(** X3.  Keys that were generated and saved are the keys of the next
    process: when a first [new Auth()] found no usable pair and resolved
    [this.ready], a second [new Auth()] on the files it left loads the
    very same pair, generates nothing and leaves the files as they
    are. *)
Theorem keys_survive_restart w w1 :
  unavailable w private_pem \/ unavailable w public_pem ->
  private_pem ∉ unreadable (env w) -> public_pem ∉ unreadable (env w) ->
  run (constructor w) = Done tt w1 ->
  ready w1 = Resolved tt ->
  exists w2,
    run (constructor w1) = Done tt w2 /\
    certPrivate w2 = certPrivate w1 /\ certPublic w2 = certPublic w1 /\
    ready w2 = Resolved tt /\ files w2 = files w1 /\
    entropy w2 = entropy w1.
Proof.
  intros Hun Hr1 Hr2 Hrun Hready.
  destruct (constructor_generates w Hun)
    as (w1' & Hrun' & He & _ & Hpr & Hpu & Hfiles & _).
  rewrite Hrun in Hrun'. injection Hrun' as <-.
  destruct (Hfiles Hready) as [Hfpu Hfpr].
  destruct (constructor_loads w1 (Raw (private (keypair_of (env w) (entropy w))))
              (Raw (public (keypair_of (env w) (entropy w)))))
    as (w2 & Hrun2 & Hpr2 & Hpu2 & Hready2 & Hf2 & _ & Hn2 & _); try done;
    try by rewrite He.
  exists w2. by rewrite Hpr, Hpu.
Qed.

Lemma keys_survive_restart_witness :
  exists w2,
    run (constructor booted) = Done tt w2 /\
    certPrivate w2 = certPrivate booted /\ certPublic w2 = certPublic booted /\
    ready w2 = Resolved tt /\ files w2 = files booted /\
    entropy w2 = entropy booted.
Proof.
  apply (keys_survive_restart fresh booted).
  - left. by left.
  - by vm_compute.
  - by vm_compute.
  - unfold booted, booted_in, fresh. apply settled_done. by vm_compute.
  - by vm_compute.
Defined.

Lemma made_existing path w :
  path ∈ dirs w -> dirs (made path w) = dirs w.
Proof.
  intros H. unfold made, mkdir_error.
  rewrite bool_decide_eq_true_2 by (apply elem_of_union; by right). done.
Qed.

Lemma write_error_below_certs (ds un : gset string) path :
  dirname path = Some certDir -> certDir ∈ ds -> path ∉ ds ->
  write_error ds un path = if bool_decide (path ∈ un) then Some (EACCES path)
                           else None.
Proof.
  intros Hd Hc Hp. unfold write_error, parent_exists. rewrite Hd.
  by rewrite (bool_decide_eq_false_2 _ Hp), (bool_decide_eq_true_2 _ Hc).
Qed.

Lemma dirs_after_mkdirs w :
  "config" ∈ dirs w -> certDir ∈ dirs w ->
  dirs (made certDir (made "config" w)) = dirs w.
Proof.
  intros H1 H2. rewrite made_existing; rewrite made_existing; done.
Qed.

(** X4.  Directories that exist already do not stop the key check: with
    [config/] and [config/certs/] in place both [mkdir]s fail, the
    failures are ignored, and the generated pair and [.gitignore] are
    written all the same; [this.ready] is resolved and no directory is
    added. *)
Theorem keys_saved_in_existing_dirs w :
  unavailable w private_pem \/ unavailable w public_pem ->
  "config" ∈ dirs w -> certDir ∈ dirs w ->
  (forall path, path ∈ [public_pem; private_pem; gitignore] ->
     (path ∉ dirs w) /\ (path ∉ unwritable (env w))) ->
  exists w1,
    run (constructor w) = Done tt w1 /\ ready w1 = Resolved tt /\
    files w1 !! public_pem =
      Some (Raw (public (keypair_of (env w) (entropy w)))) /\
    files w1 !! private_pem =
      Some (Raw (private (keypair_of (env w) (entropy w)))).
Proof.
  intros Hun Hconfig Hcerts Hpaths.
  destruct (constructor_generates w Hun)
    as (w1 & Hrun & _ & _ & _ & _ & Hfiles & Hready).
  assert (keys_writable w) as Hkw.
  { intros path Hpath. rewrite dirs_after_mkdirs by done.
    destruct (Hpaths path Hpath) as [Hnd Hnu].
    rewrite write_error_below_certs; try done.
    - by rewrite bool_decide_eq_false_2.
    - rewrite !elem_of_cons, elem_of_nil in Hpath.
      by destruct Hpath as [->|[->|[->|[]]]]. }
  exists w1. split; [done|]. split; [by apply Hready|].
  by apply Hfiles, Hready.
Qed.

Lemma keys_saved_in_existing_dirs_witness :
  exists w1,
    run (constructor (drop_keys booted)) = Done tt w1 /\
    ready w1 = Resolved tt /\
    files w1 !! public_pem =
      Some (Raw (public (keypair_of (env (drop_keys booted))
                           (entropy (drop_keys booted))))) /\
    files w1 !! private_pem =
      Some (Raw (private (keypair_of (env (drop_keys booted))
                            (entropy (drop_keys booted))))).
Proof.
  apply keys_saved_in_existing_dirs.
  - left. by left.
  - apply (bool_decide_unpack _). by vm_compute.
  - apply (bool_decide_unpack _). by vm_compute.
  - intros path Hpath. rewrite !elem_of_cons, elem_of_nil in Hpath.
    destruct Hpath as [->|[->|[->|[]]]];
      (split; apply (bool_decide_unpack _); by vm_compute).
Defined.

Lemma save_keys_private_refused wg pub priv e :
  certPublic wg = Some pub -> certPrivate wg = Some priv ->
  write_error (dirs (made certDir (made "config" wg))) (unwritable (env wg))
    public_pem = None ->
  write_error (dirs (made certDir (made "config" wg))) (unwritable (env wg))
    private_pem = Some e ->
  exists w1,
    save_keys wg = Ended (inl e) w1 /\
    files w1 = <[public_pem := Raw pub]> (files wg) /\
    ready w1 = ready wg /\ env w1 = env wg.
Proof.
  intros Hpub Hpriv E1 E2. unfold save_keys.
  destruct (made_frame "config" wg) as (He1 & Hf1 & Hpr1 & Hpu1 & Hr1 & _).
  destruct (made_frame certDir (made "config" wg))
    as (He2 & Hf2 & Hpr2 & Hpu2 & Hr2 & _).
  set (w3 := made certDir (made "config" wg)) in *.
  cbv zeta. unfold written. world_cbn.
  rewrite He2, He1, Hpu2, Hpu1, Hpub, Hpr2, Hpr1, Hpriv, E1, E2.
  eexists. split; [done|]. world_cbn. by rewrite Hf2, Hf1, Hr2, Hr1, He2, He1.
Qed.

(** X5.  The generated keys are written public key first.  Where the old
    private key is still in place, readable but write-protected, and the
    public key is missing, the key check writes the new public key and
    then fails on the private one: [this.ready] stays pending, with the
    old private key and the new public key on disk.  The next
    [new Auth()] finds both files, resolves [this.ready], and holds a
    private key and a public key that were never generated together. *)
Theorem failed_private_write_mixes_pairs w old :
  files w !! private_pem = Some (Raw old) ->
  private_pem ∉ unreadable (env w) -> public_pem ∉ unreadable (env w) ->
  files w !! public_pem = None ->
  "config" ∈ dirs w -> certDir ∈ dirs w ->
  public_pem ∉ dirs w -> private_pem ∉ dirs w ->
  public_pem ∉ unwritable (env w) -> private_pem ∈ unwritable (env w) ->
  exists w1 w2,
    run (constructor w) = Done tt w1 /\ ready w1 = Pending /\
    unhandled w1 = unhandled w ++ [EACCES private_pem] /\
    run (constructor w1) = Done tt w2 /\ ready w2 = Resolved tt /\
    certPrivate w2 = Some old /\
    certPublic w2 = Some (public (keypair_of (env w) (entropy w))).
Proof.
  intros Hpriv Hrpriv Hrpub Hpub Hconfig Hcerts Hdpub Hdpriv Hwpub Hwpriv.
  assert (unavailable (fresh_instance w) private_pem \/
          unavailable (fresh_instance w) public_pem) as Hun by (right; by left).
  destruct (load_keys_unavailable _ Hun) as (e & w' & Hload).
  pose proof (load_keys_frame (fresh_instance w)) as Hfr.
  rewrite Hload in Hfr. cbn [last_world] in Hfr.
  destruct Hfr as (He & Hd & Hf & Hr & Hen & Hu).
  change (env w' = env w) in He. change (dirs w' = dirs w) in Hd.
  change (files w' = files w) in Hf. change (ready w' = Pending) in Hr.
  change (entropy w' = entropy w) in Hen.
  change (unhandled w' = unhandled w) in Hu.
  assert (dirs (made certDir (made "config" (generated w'))) = dirs w) as Hdirs.
  { rewrite (made_dirs certDir (made "config" w) (made "config" (generated w'))).
    - by apply dirs_after_mkdirs.
    - destruct (made_frame "config" w) as (-> & _).
      by destruct (made_frame "config" (generated w')) as (-> & _).
    - destruct (made_frame "config" w) as (_ & -> & _).
      by destruct (made_frame "config" (generated w')) as (_ & -> & _).
    - by apply made_dirs. }
  destruct (save_keys_private_refused (generated w')
              (public (keypair_of (env w) (entropy w)))
              (private (keypair_of (env w) (entropy w)))
              (EACCES private_pem))
    as (w1 & Hsave & Hf1 & Hr1 & He1).
  { unfold generated. world_cbn. by rewrite He, Hen. }
  { unfold generated. world_cbn. by rewrite He, Hen. }
  { rewrite Hdirs. change (env (generated w')) with (env w'). rewrite He.
    rewrite write_error_below_certs by done.
    by rewrite bool_decide_eq_false_2. }
  { rewrite Hdirs. change (env (generated w')) with (env w'). rewrite He.
    rewrite write_error_below_certs by done.
    by rewrite bool_decide_eq_true_2. }
  change (files (generated w')) with (files w') in Hf1.
  change (ready (generated w')) with (ready w') in Hr1.
  change (env (generated w')) with (env w') in He1.
  destruct (save_keys_all (generated w'))
    as (o' & w1' & Hsave' & _ & Hu1 & _).
  rewrite Hsave in Hsave'. injection Hsave' as <- <-.
  change (unhandled w1 = unhandled w') in Hu1.
  destruct (constructor_loads (set_unhandled (EACCES private_pem) w1)
              (Raw old) (Raw (public (keypair_of (env w) (entropy w)))))
    as (w2 & Hrun2 & Hpr2 & Hpu2 & Hready2 & _).
  { world_cbn. rewrite Hf1, Hf. by rewrite lookup_insert_ne. }
  { world_cbn. by rewrite He1, He. }
  { world_cbn. rewrite Hf1. apply lookup_insert_eq. }
  { world_cbn. by rewrite He1, He. }
  exists (set_unhandled (EACCES private_pem) w1), w2. split_and!; try done.
  - rewrite <- solo_done, constructor_solo.
    unfold constructor_alone, checkRSAKeys_alone. by rewrite Hload, Hsave.
  - world_cbn. by rewrite Hr1.
  - world_cbn. by rewrite Hu1, Hu.
Qed.

Lemma failed_private_write_mixes_pairs_witness :
  exists w1 w2,
    run (constructor half_kept) = Done tt w1 /\ ready w1 = Pending /\
    unhandled w1 = unhandled half_kept ++ [EACCES private_pem] /\
    run (constructor w1) = Done tt w2 /\ ready w2 = Resolved tt /\
    certPrivate w2 = Some "OLD PRIVATE KEY" /\
    certPublic w2 =
      Some (public (keypair_of (env half_kept) (entropy half_kept))).
Proof.
  apply failed_private_write_mixes_pairs;
    first [by vm_compute | apply (bool_decide_unpack _); by vm_compute].
Defined.

(** ** [checkUser] when something fails *)

Lemma solo_fail {A} (m : M A) w e w' :
  solo m w = Ended (inl e) w' <-> run (m w) = Fail e w'.
Proof. apply ending_fail. Qed.

Lemma unreachable_inv (url : option string) (m : gmap string (list user)) :
  (url ≫= (fun u => m !! u ≫= (fun _ => Some u))) = None <->
  (forall u, url = Some u -> m !! u = None).
Proof.
  destruct url as [u|]; simpl.
  - destruct (m !! u) eqn:E; simpl; split.
    + done.
    + intros H. specialize (H u eq_refl). congruence.
    + intros _ u0 [= <-]. exact E.
    + done.
  - split; [|done]. intros _ u. done.
Qed.

(** X6.  A database that cannot be reached is fatal: [checkUser] rejects
    with the connection error right after [mongodb.connect], having read
    no file, drawn no token and written nothing, also when the node's
    credentials are in the cache. *)
Theorem connect_failure_rejects id c w url :
  authDb w = Resolved url ->
  (forall u, url = Some u -> mongo w !! u = None) ->
  run (checkUser id c w) =
    Fail (MongoNetworkError url) (emit (EvConnect url) w).
Proof.
  intros Ha Hm. rewrite <- solo_fail, checkUser_solo. unfold checkUser_alone.
  by rewrite Ha, (proj2 (unreachable_inv url (mongo w)) Hm).
Qed.

Lemma connect_failure_rejects_witness :
  run (checkUser "auth_core" 0 (offline served)) =
    Fail (MongoNetworkError (Some auth_url))
      (emit (EvConnect (Some auth_url)) (offline served)).
Proof.
  apply connect_failure_rejects; [by vm_compute|].
  intros u [= <-]. by vm_compute.
Defined.







(** ** The cache file *)

Lemma cached_unusable w :
  unavailable w credentials_json \/
  (exists text, files w !! credentials_json = Some (Raw text)) ->
  cached w = ∅.
Proof.
  intros [Hun|[text Hf]]; unfold cached.
  - apply read_result_unavailable in Hun as [e ->]. done.
  - unfold read_result. rewrite Hf. by case_bool_decide.
Qed.

(** X10.  A cache file that is missing, unreadable or holds text that is
    not JSON counts as empty, silently: a [checkUser] that ends well, for
    an id that is not a name of [Object.prototype], gave the node new
    credentials, and the file written afterwards holds exactly one
    entry, that of the node; whatever the file held before is gone. *)
Theorem unusable_cache_is_replaced id c w w1 :
  inherited id = false ->
  unavailable w credentials_json \/
  (exists text,
     files w !! credentials_json = Some (Raw text) /\ not_json text = true) ->
  run (checkUser id c w) = Done tt w1 ->
  files w1 !! credentials_json = Some (CredsDoc {[ id := new_entry w ]}) /\
  exists cfg, heap w1 !! c = Some cfg /\
    local cfg !! "userKey" = Some (new_key w) /\
    local cfg !! "userSecret" = Some (new_secret w).
Proof.
  intros Hinh Hbad Hrun.
  assert (cached w = ∅) as Hc.
  { apply cached_unusable. destruct Hbad as [H|(text & H & _)]; eauto. }
  destruct (checkUser_done_store _ _ _ _ Hrun)
    as (_ & _ & db & users & _ & _ &
        [([[e He]|Hi] & _)|(Hmiss & _ & Hf & _)]).
  { by rewrite Hc in He. }
  { by rewrite Hinh in Hi. }
  split.
  { rewrite Hf. unfold new_doc. by rewrite Hc. }
  assert (exists cfg0, heap w !! c = Some cfg0) as [cfg0 Hcfg0].
  { revert Hrun. rewrite <- solo_done, checkUser_solo. unfold checkUser_alone.
    destruct (authDb w); [done|]. destruct (_ ≫= _); [|done].
    rewrite Hmiss, Hinh. destruct (delete_fails _); [done|].
    destruct (bcrypt_hash _ _) as [hashed|]; [|done].
    destruct (write_error _ _ _); [done|].
    destruct (inserted_frame id s hashed w) as (_ & _ & _ & Hh & _).
    unfold hand_over. world_cbn. rewrite Hh.
    destruct (heap w !! c); [by eexists|done]. }
  destruct (checkUser_done _ _ _ _ _ Hinh Hcfg0 Hrun)
    as (url & doc & e & _ & _ & _ & _ & _ & Hf1 & Hd & Hh & _).
  rewrite Hf in Hf1. unfold new_doc in Hf1. injection Hf1 as <-.
  assert (Some (new_entry w) = Some e) as [= <-].
  { rewrite <- Hd. symmetry. apply lookup_insert_eq. }
  eexists. split; [by rewrite Hh, lookup_insert_eq|].
  unfold with_credentials. cbn [local].
  rewrite lookup_insert_ne, lookup_insert_eq by done.
  by rewrite lookup_insert_eq.
Qed.

Lemma unusable_cache_is_replaced_witness :
  files (world_of (run (checkUser "auth_core" 0 garbled))) !!
    credentials_json =
    Some (CredsDoc {[ "auth_core" := new_entry garbled ]}) /\
  exists cfg,
    heap (world_of (run (checkUser "auth_core" 0 garbled))) !! 0 =
      Some cfg /\
    local cfg !! "userKey" = Some (new_key garbled) /\
    local cfg !! "userSecret" = Some (new_secret garbled).
Proof.
  apply unusable_cache_is_replaced.
  - by vm_compute.
  - right. exists "<<<<<<< HEAD". split; by vm_compute.
  - apply settled_done. by vm_compute.
Defined.

(** X11.  A creation for one node leaves the others alone: the cache
    entries of every other id read as before, and in every collection of
    the database the records of every other id are the same. *)
Theorem creation_leaves_other_ids id id' c w w1 :
  id' <> id ->
  run (checkUser id c w) = Done tt w1 ->
  cached w1 !! id' = cached w !! id' /\
  forall url users,
    mongo w !! url = Some users ->
    exists users1,
      mongo w1 !! url = Some users1 /\
      records_of id' users1 = records_of id' users.
Proof.
  intros Hne Hrun.
  destruct (checkUser_done_store _ _ _ _ Hrun)
    as (He & _ & db & users0 & _ & Hm0 &
        [(_ & Hm & Hsame)|(Hmiss & _ & Hf & hashed & Hm)]).
  - split; [by rewrite Hsame|].
    intros url users Hu; exists users; by rewrite Hm.
  - split.
    + unfold cached at 1. unfold read_result. rewrite Hf, He.
      case_bool_decide as Hun.
      * rewrite (cached_unusable w); [done|]. left. by right.
      * unfold new_doc. apply lookup_insert_ne. congruence.
    + intros url users Hu. rewrite Hm, inserted_mongo.
      destruct (decide (db = url)) as [->|Hdb].
      * destruct (insert_fails (env w)); rewrite !lookup_alter_eq, Hu;
          simpl; eexists; (split; [done|]).
        -- by apply records_of_delete_first_ne.
        -- rewrite records_of_app, records_of_delete_first_ne by done.
           unfold records_of at 2. rewrite filter_cons_False by (simpl; congruence).
           by rewrite filter_nil, app_nil_r.
      * destruct (insert_fails (env w)); rewrite !lookup_alter_ne by done;
          by exists users.
Qed.

Lemma creation_leaves_other_ids_witness :
  cached (world_of (run (checkUser "mail_core" 1 served))) !! "auth_core" =
    cached served !! "auth_core" /\
  forall url users,
    mongo served !! url = Some users ->
    exists users1,
      mongo (world_of (run (checkUser "mail_core" 1 served))) !! url =
        Some users1 /\
      records_of "auth_core" users1 = records_of "auth_core" users.
Proof.
  apply (creation_leaves_other_ids "mail_core" "auth_core" 1 served);
    [done|]. apply settled_done. by vm_compute.
Defined.

(** ** What counts as absent *)

(** X12.  An empty string counts as absent, as [!] and [||] have it: with
    [provided.userSecret] set to the empty string the credentials of a
    core node are resolved all the same, and with [provided.mongoUrl]
    set to the empty string the target of the database is
    [local.mongoUrl]. *)
Theorem empty_string_is_absent c w0 w cfg :
  ready w = Resolved tt -> heap w !! c = Some cfg -> authDb w = Pending ->
  provided cfg !! "userSecret" = Some EmptyString ->
  provided cfg !! "mongoUrl" = Some EmptyString ->
  resume (verify "core" "auth_core" c w0) w =
    checkUser "auth_core" c (resolveDb_step (local cfg !! "mongoUrl") w) /\
  authDb (world_of (resume (verify "core" "auth_core" c w0) w)) =
    Resolved (local cfg !! "mongoUrl").
Proof.
  intros Hr Hc Ha Hsecret Hurl.
  assert (no_override cfg) as Hno by (unfold no_override; by rewrite Hsecret).
  rewrite (verify_core_resume _ _ _ _ cfg) by done.
  unfold entering, target_of, or_else. rewrite Hurl.
  cbn [String.eqb Ascii.eqb Bool.eqb truthy negb].
  split; [done|].
  destruct (checkUser_connects "auth_core" c) as (k & Hk & _).
  rewrite Hk. cbn [world_of]. unfold resolveDb_step. by rewrite Ha.
Qed.

Lemma empty_string_is_absent_witness :
  resume (verify "core" "auth_core" 4 fresh) blank_booted =
    checkUser "auth_core" 4
      (resolveDb_step (local blank_config !! "mongoUrl") blank_booted) /\
  authDb (world_of (resume (verify "core" "auth_core" 4 fresh) blank_booted)) =
    Resolved (local blank_config !! "mongoUrl").
Proof. apply empty_string_is_absent; by vm_compute. Defined.

(** X13.  The first target stays: when [this.authDb] is resolved already,
    a further call for ['auth_core'] does not change it, whatever
    [mongoUrl] its own config has, and connects to the value that was
    resolved first. *)
Theorem first_target_wins c w0 w cfg u :
  ready w = Resolved tt -> heap w !! c = Some cfg -> no_override cfg ->
  authDb w = Resolved u ->
  exists k,
    resume (verify "core" "auth_core" c w0) w = AwaitAuthDb k w /\
    world_of (resume (AwaitAuthDb k w) w) = emit (EvConnect u) w.
Proof.
  intros Hr Hc Hno Ha.
  destruct (checkUser_connects "auth_core" c) as (k & Hk & Hconn). exists k.
  rewrite (verify_core_resume _ _ _ _ cfg) by done.
  rewrite (entering_resolved _ _ _ _ Ha), Hk. split; [done|].
  simpl. rewrite Ha. apply Hconn.
Qed.

Lemma first_target_wins_witness :
  exists k,
    resume (verify "core" "auth_core" 1 fresh) served = AwaitAuthDb k served /\
    world_of (resume (AwaitAuthDb k served) served) =
      emit (EvConnect (Some auth_url)) served.
Proof.
  apply (first_target_wins 1 fresh served {| local := ∅; provided := ∅ |});
    by vm_compute.
Defined.

(** ** Keys and credentials together *)

(** X14.  In every process, at every moment after [this.ready] is
    resolved, a [verify] for an api node ends at once and puts a complete
    pair into [config.local]: a private and a public key, the ones the
    two PEM files hold. *)
Theorem api_node_gets_stored_keys w acts id c cfg :
  ready (state (exec acts (boot w))) = Resolved tt ->
  heap (state (exec acts (boot w))) !! c = Some cfg ->
  exists priv pub w1 cfg1,
    run (verify "api" id c (state (exec acts (boot w)))) = Done tt w1 /\
    heap w1 !! c = Some cfg1 /\
    local cfg1 !! "certPrivate" = Some priv /\
    local cfg1 !! "certPublic" = Some pub /\
    stored (state (exec acts (boot w))) private_pem priv /\
    stored (state (exec acts (boot w))) public_pem pub.
Proof.
  intros Hr Hc.
  destruct (process_keys_complete w acts Hr) as (priv & pub & Hpr & Hpu & Hs).
  exists priv, pub. do 2 eexists. split.
  { apply verify_key_node; [by left|done|done]. }
  world_cbn. rewrite lookup_insert_eq. split; [done|].
  by rewrite with_keys_private, with_keys_public, Hpr, Hpu.
Qed.

Lemma api_node_gets_stored_keys_witness :
  exists priv pub w1 cfg1,
    run (verify "api" "blog_api" 2
           (state (exec [WakeKeys; WakeKeys; WakeKeys; WakeKeys; WakeKeys;
                         WakeKeys; WakeKeys; WakeKeys] (boot fresh)))) =
      Done tt w1 /\
    heap w1 !! 2 = Some cfg1 /\
    local cfg1 !! "certPrivate" = Some priv /\
    local cfg1 !! "certPublic" = Some pub /\
    stored (state (exec [WakeKeys; WakeKeys; WakeKeys; WakeKeys; WakeKeys;
                         WakeKeys; WakeKeys; WakeKeys] (boot fresh)))
      private_pem priv /\
    stored (state (exec [WakeKeys; WakeKeys; WakeKeys; WakeKeys; WakeKeys;
                         WakeKeys; WakeKeys; WakeKeys] (boot fresh)))
      public_pem pub.
Proof.
  apply (api_node_gets_stored_keys fresh _ "blog_api" 2
           {| local := ∅; provided := ∅ |}); by vm_compute.
Defined.

(** X15.  A node keeps its identity across a restart.  On a machine that
    holds both PEM files and a cache entry for ['auth_core'], a new
    process loads the keys, resolves the target from the node's config
    and, the database being reachable, hands the node the cached
    [userKey] and [userSecret]; the database and the files stay as they
    are. *)
Theorem credentials_survive_restart c w cfg priv pub doc e url users :
  files w !! private_pem = Some priv -> private_pem ∉ unreadable (env w) ->
  files w !! public_pem = Some pub -> public_pem ∉ unreadable (env w) ->
  files w !! credentials_json = Some (CredsDoc doc) ->
  credentials_json ∉ unreadable (env w) ->
  doc !! "auth_core" = Some e ->
  heap w !! c = Some cfg -> no_override cfg ->
  target_of cfg = Some url -> mongo w !! url = Some users ->
  exists w1 w2,
    run (constructor w) = Done tt w1 /\
    run (verify "core" "auth_core" c w1) = Done tt w2 /\
    heap w2 !! c = Some (with_credentials e cfg) /\
    mongo w2 = mongo w /\ files w2 = files w /\
    certPrivate w2 = Some (text_of priv) /\ certPublic w2 = Some (text_of pub).
Proof.
  intros Hf1 Hr1 Hf2 Hr2 Hfc Hrc Hd Hc Hno Ht Hm.
  destruct (constructor_loads w priv pub Hf1 Hr1 Hf2 Hr2)
    as (w1 & Hrun1 & Hpr & Hpu & Hready & Hf & _ & _ & He & _).
  destruct (constructor_frame w) as (w1' & Hrun1' & _ & Hmo & Hh & Ha).
  rewrite Hrun1 in Hrun1'. injection Hrun1' as <-.
  exists w1. eexists. split; [done|].
  assert (entering "auth_core" cfg w1 =
          set_authDb (Resolved (Some url)) w1) as Hent.
  { unfold entering, resolveDb_step. cbn [String.eqb Ascii.eqb Bool.eqb].
    by rewrite Ha, Ht. }
  split.
  { rewrite <- solo_done, (verify_core_solo _ c w1 cfg); try done;
      [|by rewrite Hh].
    rewrite Hent. apply solo_done.
    apply (checkUser_hit _ _ _ cfg doc e url users); world_cbn;
      by rewrite ?Hf, ?He, ?Hh, ?Hmo. }
  world_cbn. rewrite lookup_insert_eq, Hmo, Hf. by split_and!.
Qed.

Lemma credentials_survive_restart_witness :
  exists w1 w2,
    run (constructor served) = Done tt w1 /\
    run (verify "core" "auth_core" 0 w1) = Done tt w2 /\
    heap w2 !! 0 =
      Some (with_credentials
              {| Cache.user_key := "B-token"; Cache.user_secret := "C-token" |}
              (with_credentials
                 {| Cache.user_key := "B-token";
                    Cache.user_secret := "C-token" |}
                 {| local := ∅; provided := {[ "mongoUrl" := auth_url ]} |})) /\
    mongo w2 = mongo served /\ files w2 = files served /\
    certPrivate w2 = Some (text_of (Raw "A-PRIVATE KEY")) /\
    certPublic w2 = Some (text_of (Raw "A-PUBLIC KEY")).
Proof.
  apply (credentials_survive_restart 0 served _ _ _
           {[ "auth_core" := {| Cache.user_key := "B-token";
                                Cache.user_secret := "C-token" |} ]}
           _ auth_url [new_user "auth_core" "$2a$10$nekot-C" booted]);
    first [by vm_compute | apply (bool_decide_unpack _); by vm_compute].
Defined.

(** ** The records of other nodes *)

(** X16.  A process leaves the records of the nodes it is not asked about
    alone: however the loader's calls and the event loop interleave, as
    long as no [verify] is called for the id [X], every collection holds
    the records of [X] it held when the process started. *)
Theorem unasked_records_untouched X w acts url :
  Forall (is_verify (not_for X)) acts ->
  records_of X <$> (mongo (state (exec acts (boot w))) !! url) =
    records_of X <$> (mongo w !! url).
Proof.
  intros Hacts.
  change (mongo w) with (mongo (state (boot w))).
  revert url.
  apply (exec_rel anything (keeps_records X) anything (keeps_records X)
           (fun _ => True) (not_for X)) with (T := keeps_records X);
    try done; try tc_solve.
  - intros type id c w0 H. by apply verify_keeps_records.
  - split_and!; try done.
    eapply conts_impl; [|unfold constructor; apply checkRSAKeys_keeps_store].
    intros w1 w2 H. by apply keeps_records_same.
Qed.

Lemma unasked_records_untouched_witness :
  records_of "auth_core" <$>
    (mongo (state (exec [WakeKeys; Verify "core" "mail_core" 1; WakeKeys;
                         Wake 0; WakeKeys; WakeKeys; Wake 0]
                     (boot served))) !! auth_url) =
  records_of "auth_core" <$> (mongo served !! auth_url).
Proof.
  apply unasked_records_untouched. repeat constructor; by vm_compute.
Defined.

(** ** The keys in the configs, under every schedule *)

#[global] Instance G_quiet_preorder : PreOrder G_quiet.
Proof.
  split.
  - by split.
  - intros a b c [Hh H] [Hh' H']. split; [congruence|].
    intros Hr. specialize (H Hr). subst b. by apply H'.
Qed.

#[global] Instance G_certs_preorder : PreOrder G_certs.
Proof.
  split.
  - split; [reflexivity|]. intros c cfg v Hc. split; intros H; left; eauto.
  - intros a b c [Hk H] [Hk' H']. split; [by etrans|].
    destruct Hk as (Hpr & Hpu & Hr & _).
    intros i cfg v Hi. destruct (H' i cfg v Hi) as [Hpub Hpriv]. split.
    + intros Hv. destruct (Hpub Hv) as [(cfg1 & Hi1 & Hv1)|[Hrb Hvb]].
      * by apply (H i cfg1 v Hi1).
      * right. by rewrite <- Hr, <- Hpu.
    + intros Hv. destruct (Hpriv Hv) as [(cfg1 & Hi1 & Hv1)|[Hrb Hvb]].
      * by apply (H i cfg1 v Hi1).
      * right. by rewrite <- Hr, <- Hpr.
Qed.

Lemma G_quiet_certs w w' :
  G_quiet w w' -> certs_from_instance w -> certs_from_instance w'.
Proof.
  intros [Hh H] HI c cfg v Hc. rewrite Hh in Hc.
  destruct (HI c cfg v Hc) as [Hpub Hpriv]. split; intros Hv.
  - destruct (Hpub Hv) as [Hr Hk]. by rewrite (H Hr).
  - destruct (Hpriv Hv) as [Hr Hk]. by rewrite (H Hr).
Qed.

Lemma G_certs_certs w w' :
  G_certs w w' -> certs_from_instance w -> certs_from_instance w'.
Proof.
  intros [(Hpr & Hpu & Hr & _) H] HI c cfg v Hc. rewrite Hr, Hpr, Hpu.
  destruct (H c cfg v Hc) as [Hpub Hpriv]. split; intros Hv.
  - destruct (Hpub Hv) as [(cfg0 & Hc0 & Hv0)|?]; [|done].
    by apply (HI c cfg0 v Hc0).
  - destruct (Hpriv Hv) as [(cfg0 & Hc0 & Hv0)|?]; [|done].
    by apply (HI c cfg0 v Hc0).
Qed.

Lemma G_certs_same w w' : keeps_keys w w' -> heap w' = heap w -> G_certs w w'.
Proof.
  intros Hk Hh. split; [done|]. intros c cfg v Hc. rewrite Hh in Hc.
  split; intros Hv; left; eauto.
Qed.

(** *** The key check *)

Lemma pending_step w w' :
  pending w -> heap w' = heap w -> ready w' = ready w ->
  G_quiet w w' /\ pending w'.
Proof.
  unfold pending. intros Hp Hh Hr. split; [|congruence].
  split; [done|]. by rewrite Hp.
Qed.

Lemma pending_rely w w' : pending w -> keeps_keys w w' -> pending w'.
Proof. unfold pending. intros Hp (_ & _ & Hr & _). congruence. Qed.

Lemma pending_io {A} (op : world -> (error + A) * world) :
  (forall w, heap (op w).2 = heap w /\ ready (op w).2 = ready w) ->
  triple keeps_keys G_quiet pending (io op) (fun _ => pending).
Proof.
  intros H. apply triple_io; [tc_solve|]. intros w Hw.
  destruct (H w) as [Hh Hr].
  destruct (pending_step w (op w).2 Hw Hh Hr). split; [done|].
  intros w' HR. by eapply pending_rely.
Qed.

Lemma pending_sync {A} (f : world -> A * world) :
  (forall w, heap (f w).2 = heap w /\ ready (f w).2 = ready w) ->
  triple keeps_keys G_quiet pending (sync f) (fun _ => pending).
Proof.
  intros H. apply triple_sync. intros w Hw. destruct (H w) as [Hh Hr].
  by destruct (pending_step w (f w).2 Hw Hh Hr).
Qed.

Lemma pending_modify (f : world -> world) :
  (forall w, heap (f w) = heap w /\ ready (f w) = ready w) ->
  triple keeps_keys G_quiet pending (modify f) (fun _ => pending).
Proof.
  intros H. apply triple_modify. intros w Hw. destruct (H w) as [Hh Hr].
  by destruct (pending_step w (f w) Hw Hh Hr).
Qed.

Lemma pending_ret {A} (a : A) :
  triple keeps_keys G_quiet pending (ret a) (fun _ => pending).
Proof. apply triple_ret; [tc_solve|done]. Qed.

Lemma pending_writeFile_field path field :
  triple keeps_keys G_quiet pending (writeFile_field path field)
    (fun _ => pending).
Proof.
  unfold writeFile_field.
  eapply triple_bind with (Q1 := fun _ => pending); [tc_solve| | |done].
  - apply triple_get; [tc_solve|done].
  - intros [s|].
    + apply pending_io. intros w. unfold op_writeFile.
      by destruct (write_error _ _ _).
    + apply triple_throw; [tc_solve|done].
Qed.

Lemma checkRSAKeys_quiet :
  triple keeps_keys G_quiet pending (dropped (checkRSAKeys resolve_ready))
    (fun _ _ => True).
Proof.
  unfold dropped, checkRSAKeys.
  eapply triple_catch with (Q1 := outcome (fun _ _ => True) pending);
    [tc_solve| | |done].
  2:{ intros e. apply triple_modify. intros w Hw. split; [|done].
      by destruct (pending_step w (set_unhandled e w) Hw). }
  eapply triple_bind with (Q1 := fun _ => pending); [tc_solve| | |done].
  2:{ intros ?. apply triple_modify. intros w Hw. split; [|done].
      split; [unfold resolve_ready_step; by destruct (ready w)|].
      unfold pending in Hw. by rewrite Hw. }
  eapply triple_catch with (Q1 := fun _ => pending); [tc_solve| | |done].
  - eapply triple_bind; [tc_solve|by apply pending_io| |done].
    intros ?. eapply triple_bind; [tc_solve|by apply pending_io| |done].
    intros priv. eapply triple_bind; [tc_solve|by apply pending_modify| |done].
    intros ?. eapply triple_bind; [tc_solve|by apply pending_io| |done].
    intros pub. by apply pending_modify.
  - intros err.
    eapply triple_bind; [tc_solve|by apply pending_sync| |done].
    intros keys. eapply triple_bind; [tc_solve|by apply pending_modify| |done].
    intros ?. eapply triple_bind; [tc_solve|by apply pending_modify| |done].
    intros ?. eapply triple_bind with (Q1 := fun _ => pending);
      [tc_solve| | |done].
    { eapply triple_catch with (Q1 := fun _ => pending); [tc_solve| | |done].
      - apply pending_io. intros w. unfold op_mkdir.
        by destruct (mkdir_error _ _ _ _).
      - intros ?. apply pending_ret. }
    intros ?. eapply triple_bind with (Q1 := fun _ => pending);
      [tc_solve| | |done].
    { eapply triple_catch with (Q1 := fun _ => pending); [tc_solve| | |done].
      - apply pending_io. intros w. unfold op_mkdir.
        by destruct (mkdir_error _ _ _ _).
      - intros ?. apply pending_ret. }
    intros ?. eapply triple_bind; [tc_solve|apply pending_writeFile_field| |done].
    intros ?. eapply triple_bind; [tc_solve|apply pending_writeFile_field| |done].
    intros ?. apply pending_io. intros w. unfold op_writeFile.
    by destruct (write_error _ _ _).
Qed.

Lemma constructor_conts_quiet w : conts keeps_keys G_quiet (constructor w).
Proof.
  unfold constructor. eapply ensures_conts. by apply checkRSAKeys_quiet.
Qed.

(** *** [verify] *)

Lemma set_prop_other key key' v (obj : gmap string string) :
  key' <> key -> set_prop key v obj !! key' = obj !! key'.
Proof.
  intros Hne. unfold set_prop.
  destruct v; [by apply lookup_insert_ne|by apply lookup_delete_ne].
Qed.

Lemma guar_set_local_plain c key v :
  key <> "certPublic" -> key <> "certPrivate" ->
  guar anything G_certs (set_local c key v).
Proof.
  intros Hpu Hpr w. unfold set_local.
  destruct (heap w !! c) as [cfg|] eqn:Hc; (split; [|done]); [|reflexivity].
  split; [by repeat split|]. intros i cfg' u. cbn [world_of]. world_cbn.
  destruct (decide (i = c)) as [->|Hi].
  - rewrite lookup_insert_eq. intros [= <-]. cbn [local].
    rewrite !set_prop_other by done. split; intros Hv; left; eauto.
  - rewrite lookup_insert_ne by done. intros Hi'.
    split; intros Hv; left; eauto.
Qed.

Ltac certs_side :=
  unfold_ops; repeat case_match; simpl;
  (apply G_certs_same;
   [split_and!; simpl; try done; intros ? ?; by rewrite lookup_insert_ne
   |done]).

Lemma checkUser_certs id c : guar anything G_certs (checkUser id c).
Proof.
  unfold checkUser. unfold_prims.
  repeat first
    [ apply guar_set_local_plain; [done|done]
    | guar_step certs_side | case_match ].
Qed.

Lemma verifyUser_certs type id c : guar anything G_certs (verifyUser type id c).
Proof.
  apply guar_verifyUser; [tc_solve|apply checkUser_certs|].
  intros _ _ url w. apply G_certs_same.
  - unfold resolveDb_step. case_match; by repeat split.
  - unfold resolveDb_step. by case_match.
Qed.

Lemma verifyKeys_certs type id c w :
  ready w = Resolved tt ->
  always anything G_certs w (verifyKeys type id c w).
Proof.
  intros Hr. unfold verifyKeys.
  destruct (String.eqb type "api" || String.eqb type "auth");
    [|apply guar_ret; tc_solve].
  unfold bind, get, set_local. cbn [bind_res].
  destruct (heap w !! c) as [cfg|] eqn:Hc; cbn [bind_res]; [|by split].
  world_cbn. rewrite lookup_insert_eq. cbn [bind_res].
  split; [|done]. cbn [world_of]. split; [by repeat split|].
  intros i cfg' v. world_cbn. rewrite insert_insert_eq.
  destruct (decide (i = c)) as [->|Hi].
  - rewrite lookup_insert_eq. intros [= <-]. cbn [local]. split; intros Hv.
    + right. split; [done|]. rewrite <- Hv.
      rewrite set_prop_other by done. unfold set_prop.
      destruct (certPublic w); by rewrite ?lookup_insert_eq, ?lookup_delete_eq.
    + right. split; [done|]. rewrite <- Hv. unfold set_prop.
      destruct (certPrivate w); by rewrite ?lookup_insert_eq, ?lookup_delete_eq.
  - rewrite lookup_insert_ne by done. intros Hi'.
    split; intros Hv; left; eauto.
Qed.

Lemma verify_certs type id c : guar anything G_certs (verify type id c).
Proof.
  intros w. unfold verify. apply always_await_ready_bind; [tc_solve|].
  intros w' _ Hr. apply always_bind; [tc_solve| |].
  - by apply verifyKeys_certs.
  - intros ?. apply verifyUser_certs.
Qed.

Lemma process_certs_inv w acts :
  key_free w ->
  sys_inv keeps_keys G_quiet anything G_certs certs_from_instance
    (exec acts (boot w)).
Proof.
  intros Hfree. apply exec_inv with (allowed := fun _ _ _ => True).
  - apply keeps_keys_preorder.
  - apply keeps_keys_preorder.
  - done.
  - done.
  - done.
  - by intros w1 w2 [H _].
  - done.
  - apply G_quiet_certs.
  - apply G_certs_certs.
  - intros type id c w0 _. apply verify_certs.
  - apply Forall_forall. intros []; done.
  - split_and!.
    + rewrite boot_state. intros c cfg v Hc.
      change (heap w !! c = Some cfg) in Hc.
      destruct (Hfree c cfg Hc) as [Hpu Hpr]. rewrite Hpu, Hpr. by split.
    + apply constructor_conts_quiet.
    + reflexivity.
    + constructor.
Qed.

(** X17.  Whatever the loader calls and however the event loop
    interleaves the calls with the key check: in a process that started
    with no key in any [config], a key found in a [config] is the key the
    instance holds, and [this.ready] is resolved by then.  So all configs
    that carry keys carry the same pair, and none carries a key of a
    half-finished key check. *)
Theorem config_keys_are_the_instance_keys w acts :
  key_free w ->
  (forall c cfg v,
     heap (state (exec acts (boot w))) !! c = Some cfg ->
     (local cfg !! "certPublic" = Some v ->
        ready (state (exec acts (boot w))) = Resolved tt /\
        certPublic (state (exec acts (boot w))) = Some v) /\
     (local cfg !! "certPrivate" = Some v ->
        ready (state (exec acts (boot w))) = Resolved tt /\
        certPrivate (state (exec acts (boot w))) = Some v)) /\
  (forall c1 c2 cfg1 cfg2 v1 v2,
     heap (state (exec acts (boot w))) !! c1 = Some cfg1 ->
     heap (state (exec acts (boot w))) !! c2 = Some cfg2 ->
     local cfg1 !! "certPublic" = Some v1 ->
     local cfg2 !! "certPublic" = Some v2 -> v1 = v2).
Proof.
  intros Hfree. destruct (process_certs_inv w acts Hfree) as [HI _].
  split; [exact HI|].
  intros c1 c2 cfg1 cfg2 v1 v2 Hc1 Hc2 Hv1 Hv2.
  destruct (proj1 (HI c1 cfg1 v1 Hc1) Hv1) as [_ H1].
  destruct (proj1 (HI c2 cfg2 v2 Hc2) Hv2) as [_ H2]. congruence.
Qed.

Lemma key_free_decide w :
  map_Forall (fun _ cfg => local cfg !! "certPublic" = None /\
                           local cfg !! "certPrivate" = None) (heap w) ->
  key_free w.
Proof. intros H c cfg Hc. by apply (H c cfg Hc). Qed.

Lemma config_keys_are_the_instance_keys_witness :
  (forall c cfg v,
     heap (state (exec two_api_nodes (boot fresh))) !! c = Some cfg ->
     (local cfg !! "certPublic" = Some v ->
        ready (state (exec two_api_nodes (boot fresh))) = Resolved tt /\
        certPublic (state (exec two_api_nodes (boot fresh))) = Some v) /\
     (local cfg !! "certPrivate" = Some v ->
        ready (state (exec two_api_nodes (boot fresh))) = Resolved tt /\
        certPrivate (state (exec two_api_nodes (boot fresh))) = Some v)) /\
  (forall c1 c2 cfg1 cfg2 v1 v2,
     heap (state (exec two_api_nodes (boot fresh))) !! c1 = Some cfg1 ->
     heap (state (exec two_api_nodes (boot fresh))) !! c2 = Some cfg2 ->
     local cfg1 !! "certPublic" = Some v1 ->
     local cfg2 !! "certPublic" = Some v2 -> v1 = v2).
Proof.
  apply config_keys_are_the_instance_keys.
  apply key_free_decide, (bool_decide_unpack _). by vm_compute.
Defined.

Lemma process_quiet_inv w acts :
  sys_inv keeps_keys G_quiet anything G_certs (fun _ => True)
    (exec acts (boot w)).
Proof.
  apply exec_inv with (allowed := fun _ _ _ => True); try done.
  - apply keeps_keys_preorder.
  - by intros w1 w2 [H _].
  - intros type id c w0 _. apply verify_certs.
  - apply Forall_forall. intros []; done.
  - split_and!; try done. apply constructor_conts_quiet.
Qed.

Lemma exec_app acts more p : exec (acts ++ more) p = exec more (exec acts p).
Proof. apply fold_left_app. Qed.

#[global] Instance keys_settled_preorder : PreOrder keys_settled.
Proof.
  split.
  - intros w _. reflexivity.
  - intros a b c Hab Hbc Hr. specialize (Hab Hr).
    etrans; [exact Hab|]. apply Hbc. destruct Hab as (_ & _ & -> & _). done.
Qed.

(** X18.  Once [this.ready] is resolved nothing of the key material
    changes any more, whatever the loader calls and however the event
    loop goes on: [this.ready] stays resolved, the two keys in memory stay
    the same, and every file except [credentials.json] keeps its
    content, the two PEM files among them. *)
Theorem keys_settled_for_good w acts more :
  ready (state (exec acts (boot w))) = Resolved tt ->
  ready (state (exec (acts ++ more) (boot w))) = Resolved tt /\
  certPrivate (state (exec (acts ++ more) (boot w))) =
    certPrivate (state (exec acts (boot w))) /\
  certPublic (state (exec (acts ++ more) (boot w))) =
    certPublic (state (exec acts (boot w))) /\
  forall path, path <> credentials_json ->
    files (state (exec (acts ++ more) (boot w))) !! path =
      files (state (exec acts (boot w))) !! path.
Proof.
  intros Hr.
  assert (keys_settled (state (exec acts (boot w)))
            (state (exec (acts ++ more) (boot w)))) as H.
  { rewrite exec_app.
    apply (exec_rel keeps_keys G_quiet anything G_certs (fun _ => True)
             (fun _ _ _ => True)) with (T := keys_settled); try done.
    - apply keeps_keys_preorder.
    - by intros w1 w2 [H _].
    - intros type id c w0 _. apply verify_certs.
    - tc_solve.
    - intros w1 w2 [_ H] Hr1. rewrite (H Hr1). reflexivity.
    - by intros w1 w2 [H _] _.
    - apply Forall_forall. intros []; done.
    - apply process_quiet_inv. }
  destruct (H Hr) as (Hpr & Hpu & Hr' & Hf). rewrite Hr', Hr. by split_and!.
Qed.

Lemma keys_settled_for_good_witness :
  ready (state (exec (eight_wakes ++ [Verify "core" "auth_core" 0; Wake 0])
                  (boot fresh))) = Resolved tt /\
  certPrivate (state (exec (eight_wakes ++
                              [Verify "core" "auth_core" 0; Wake 0])
                        (boot fresh))) =
    certPrivate (state (exec eight_wakes (boot fresh))) /\
  certPublic (state (exec (eight_wakes ++
                             [Verify "core" "auth_core" 0; Wake 0])
                       (boot fresh))) =
    certPublic (state (exec eight_wakes (boot fresh))) /\
  forall path, path <> credentials_json ->
    files (state (exec (eight_wakes ++ [Verify "core" "auth_core" 0; Wake 0])
                    (boot fresh))) !! path =
      files (state (exec eight_wakes (boot fresh))) !! path.
Proof. apply keys_settled_for_good. by vm_compute. Defined.

(** ** A key check that does not get through *)

Lemma quiet_run_stays {A} Q (r : res A) :
  ensures keeps_keys G_quiet Q r -> ready (world_of r) = Resolved tt ->
  world_of (run r) = world_of r.
Proof.
  induction r as [a w|e w|k IH w|k IH w|k IH w]; simpl; intros Hens Hr;
    try done.
  - destruct (Hens w) as [[_ HG] Hk]; [reflexivity|].
    specialize (HG Hr). rewrite IH; [done|done|by rewrite HG].
  - rewrite Hr. destruct (Hens w) as [[_ HG] Hk]; [reflexivity|done|].
    specialize (HG Hr). rewrite IH; [done|done|by rewrite HG].
  - destruct (authDb w) as [|u] eqn:Ha; [done|].
    destruct (Hens u w) as [[_ HG] Hk]; [reflexivity|done|].
    specialize (HG Hr). rewrite IH; [done|done|by rewrite HG].
Qed.

Lemma quiet_visited {A} Q (r : res A) :
  ensures keeps_keys G_quiet Q r ->
  ready (world_of (run r)) = Pending ->
  Forall (fun v => ready v = Pending) (visited r).
Proof.
  induction r as [a w|e w|k IH w|k IH w|k IH w]; simpl; intros Hens Hr.
  - by apply Forall_singleton.
  - by apply Forall_singleton.
  - destruct (Hens w) as [HG Hk]; [reflexivity|].
    apply Forall_cons. split; [|by apply IH].
    destruct (ready w) as [|[]] eqn:E; [done|].
    destruct HG as [_ HG]. specialize (HG E).
    rewrite (quiet_run_stays Q (k w)) in Hr; [|done|by rewrite HG].
    by rewrite HG, E in Hr.
  - destruct (ready w) as [|[]] eqn:E.
    + by apply Forall_singleton.
    + destruct (Hens w) as [[_ HG] Hk]; [reflexivity|done|].
      specialize (HG E).
      rewrite (quiet_run_stays Q (k w)) in Hr; [|done|by rewrite HG].
      by rewrite HG, E in Hr.
  - apply Forall_cons.
    destruct (authDb w) as [|u] eqn:Ha; [by split|].
    destruct (Hens u w) as [HG Hk]; [reflexivity|done|].
    split; [|by apply IH].
    destruct (ready w) as [|[]] eqn:E; [done|].
    destruct HG as [_ HG]. specialize (HG E).
    rewrite (quiet_run_stays Q (k u w)) in Hr; [|done|by rewrite HG].
    by rewrite HG, E in Hr.
Qed.

(** X19.  [this.ready] is resolved by the key check or not at all.  When
    the key check, left to run on its own, ends with [this.ready]
    pending, then under every schedule [this.ready] stays pending and no
    [verify] ever settles, whatever type and id it is called for. *)
Theorem verify_waits_for_the_key_check w acts :
  ready (world_of (run (constructor (clear_log w)))) = Pending ->
  ready (state (exec acts (boot w))) = Pending /\
  Forall (fun r => settled r = None) (calls (exec acts (boot w))).
Proof.
  intros Hend.
  destruct (pending_forever w acts) as [Hr Hc].
  - apply (quiet_visited (fun _ _ => True)); [|done].
    unfold constructor. by apply checkRSAKeys_quiet.
  - split; [done|]. eapply Forall_impl; [done|].
    intros r. apply awaits_ready_unsettled.
Qed.

Lemma verify_waits_for_the_key_check_witness :
  ready (state (exec two_api_nodes (boot (fresh_in read_only_pem)))) =
    Pending /\
  Forall (fun r => settled r = None)
    (calls (exec two_api_nodes (boot (fresh_in read_only_pem)))).
Proof. apply verify_waits_for_the_key_check. by vm_compute. Defined.

(** ** The insert, in general *)



(** ** An id found on the prototype *)


